(** * neolib: thread pool, events, event handles and simple variants

    A shallow embedding of the parts of neolib that the specification
    talks about:

    - [Variant]: the comparison operators of [i_simple_variant]
      (include/neolib/i_simple_variant.hpp);
    - [Handle]: [event_handle] and [event_control] (event.hpp);
    - [Pool]: [thread_pool_thread] and [thread_pool]
      (src/task/thread_pool.cpp);
    - [Event]: [event<Args...>]: subscription, the acceptance-context
      stack, [sync_trigger], [async_trigger] and [enqueue] (event.hpp);
    - [Limiter]: [recursion_limiter<Tag>] (recursion.hpp).

    Each module holds the definitions; the companion module with the
    suffix [Facts] holds what is proved about them.  Mutexes are not
    modelled: every operation is taken as one atomic step of the thread
    that performs it, which is what the single recursive [event_mutex] and
    the pool's recursive mutex provide. *)

From Stdlib Require Import ZArith Lia Bool.
From Stdlib Require Import Floats.SpecFloat.
From stdpp Require Import base option list sorting gmap.

Local Open Scope Z_scope.

(** ** Simple variants *)

Module Variant.

(** [enum class simple_variant_type] *)
Inductive simple_variant_type :=
| Empty | Boolean | Integer | Real | String | Enum | CustomType | COUNT.

#[global] Instance simple_variant_type_eq_dec : EqDecision simple_variant_type.
Proof. solve_decision. Defined.

(** [i_simple_variant::unknown_type] and [i_simple_variant::type_mismatch] *)
Inductive exn := unknown_type | type_mismatch.

Inductive result (A : Type) :=
| Ok (a : A)
| Throw (e : exn).
Arguments Ok {A} a.
Arguments Throw {A} e.

Definition bind {A B} (r : result A) (k : A → result B) : result B :=
  match r with
  | Ok a => k a
  | Throw e => Throw e
  end.

Definition fmap {A B} (f : A → B) (r : result A) : result B :=
  bind r (λ a, Ok (f a)).

(** The operators [==] and [!=] of the collaborator interfaces
    [i_string], [i_enum] and [i_custom_type]; their headers are not part
    of the sources at hand, so the operators are taken as they come. *)
Class Comparable (T : Type) := {
  op_eq : T → T → bool;
  op_ne : T → T → bool
}.

(** [double]: the built-in [==] holds exactly when the operands compare
    equal; the built-in [!=] holds when they compare less, greater or
    unordered (IEEE 754). *)
Definition double_eq (a b : spec_float) : bool :=
  match SFcompare a b with
  | Some Eq => true
  | Some Lt | Some Gt | None => false
  end.

Definition double_ne (a b : spec_float) : bool :=
  match SFcompare a b with
  | Some Lt | Some Gt => true
  | None => true
  | Some Eq => false
  end.

Section Operators.
Context {i_string i_enum i_custom_type : Type}.
Context {string_ops : Comparable i_string}.
Context {enum_ops : Comparable i_enum}.
Context {custom_ops : Comparable i_custom_type}.

(** A value behind the [i_simple_variant] interface: its [type()] and
    the payload the matching [value_as_...] accessor returns. *)
Inductive i_simple_variant :=
| VEmpty
| VBoolean (b : bool)
| VInteger (i : Z)
| VReal (d : spec_float)
| VString (s : i_string)
| VEnum (e : i_enum)
| VCustomType (c : i_custom_type).

Definition type (v : i_simple_variant) : simple_variant_type :=
  match v with
  | VEmpty => Empty
  | VBoolean _ => Boolean
  | VInteger _ => Integer
  | VReal _ => Real
  | VString _ => String
  | VEnum _ => Enum
  | VCustomType _ => CustomType
  end.

Definition value_as_boolean (v : i_simple_variant) : result bool :=
  match v with VBoolean b => Ok b | _ => Throw type_mismatch end.
Definition value_as_integer (v : i_simple_variant) : result Z :=
  match v with VInteger i => Ok i | _ => Throw type_mismatch end.
Definition value_as_real (v : i_simple_variant) : result spec_float :=
  match v with VReal d => Ok d | _ => Throw type_mismatch end.
Definition value_as_string (v : i_simple_variant) : result i_string :=
  match v with VString s => Ok s | _ => Throw type_mismatch end.
Definition value_as_enum (v : i_simple_variant) : result i_enum :=
  match v with VEnum e => Ok e | _ => Throw type_mismatch end.
Definition value_as_custom_type (v : i_simple_variant) : result i_custom_type :=
  match v with VCustomType c => Ok c | _ => Throw type_mismatch end.

(** [get<T>(lhs) op get<T>(rhs)] *)
Definition compare_with {T} (get : i_simple_variant → result T)
    (op : T → T → bool) (lhs rhs : i_simple_variant) : result bool :=
  bind (get lhs) (λ a, bind (get rhs) (λ b, Ok (op a b))).

(** [operator==(const i_simple_variant&, const i_simple_variant&)] *)
Definition operator_eq (lhs rhs : i_simple_variant) : result bool :=
  if bool_decide (type lhs ≠ type rhs) then Ok false
  else match type lhs with
       | Empty => Ok true
       | Boolean => compare_with value_as_boolean Bool.eqb lhs rhs
       | Integer => compare_with value_as_integer Z.eqb lhs rhs
       | Real => compare_with value_as_real double_eq lhs rhs
       | String => compare_with value_as_string op_eq lhs rhs
       | Enum => compare_with value_as_enum op_eq lhs rhs
       | CustomType => compare_with value_as_custom_type op_eq lhs rhs
       | COUNT => Throw unknown_type
       end.

(** [operator!=(const i_simple_variant&, const i_simple_variant&)]:
    there is no [case simple_variant_type::Enum], so that type reaches
    [default]. *)
Definition operator_ne (lhs rhs : i_simple_variant) : result bool :=
  if bool_decide (type lhs ≠ type rhs) then Ok true
  else match type lhs with
       | Empty => Ok false
       | Boolean => compare_with value_as_boolean xorb lhs rhs
       | Integer => compare_with value_as_integer (λ a b, negb (a =? b)) lhs rhs
       | Real => compare_with value_as_real double_ne lhs rhs
       | String => compare_with value_as_string op_ne lhs rhs
       | CustomType => compare_with value_as_custom_type op_ne lhs rhs
       | Enum | COUNT => Throw unknown_type
       end.
End Operators.

Arguments i_simple_variant : clear implicits.

(** Strings, enumerators and custom values stood in for by numbers *)
Definition nat_ops : Comparable nat :=
  {| op_eq := Nat.eqb; op_ne := λ a b, negb (Nat.eqb a b) |}.

(** *** Ordering *)

(** The operator [<] of the collaborator interfaces [i_string] and
    [i_custom_type] *)
Class Ordered (T : Type) := {
  op_lt : T → T → bool
}.

(** [double]: the built-in [<] holds exactly when the operands compare
    less; it is false when they are unordered. *)
Definition double_lt (a b : spec_float) : bool :=
  match SFcompare a b with
  | Some Lt => true
  | Some Eq | Some Gt | None => false
  end.

(** The value of an enumerator of [simple_variant_type] *)
Definition type_value (t : simple_variant_type) : Z :=
  match t with
  | Empty => 0
  | Boolean => 1
  | Integer => 2
  | Real => 3
  | String => 4
  | Enum => 5
  | CustomType => 6
  | COUNT => 7
  end.

Section Less.
Context {i_string i_enum i_custom_type : Type}.
Context {string_order : Ordered i_string}.
Context {custom_order : Ordered i_custom_type}.

(** [operator<(const i_simple_variant&, const i_simple_variant&)]: as in
    [operator!=] there is no [case simple_variant_type::Enum]. *)
Definition operator_lt (lhs rhs : i_simple_variant i_string i_enum i_custom_type)
    : result bool :=
  if bool_decide (type lhs ≠ type rhs) then Ok (type_value (type lhs) <? type_value (type rhs))
  else match type lhs with
       | Empty => Ok false
       | Boolean => compare_with value_as_boolean (λ a b, negb a && b) lhs rhs
       | Integer => compare_with value_as_integer Z.ltb lhs rhs
       | Real => compare_with value_as_real double_lt lhs rhs
       | String => compare_with value_as_string op_lt lhs rhs
       | CustomType => compare_with value_as_custom_type op_lt lhs rhs
       | Enum | COUNT => Throw unknown_type
       end.
End Less.

(** The order of the numbers that stand in for strings and custom values *)
Definition nat_order : Ordered nat := {| op_lt := Nat.ltb |}.

End Variant.

(** ** Event handles and control blocks *)

Module Handle.

(** [cookie]: the typedef lives in neolib/core/jar.hpp, which is not
    among the sources; a cookie is an integer identifier. *)
Abbreviation cookie := Z.

(** [event_handle::no_control], [event_control::no_event]; [dangling]
    stands for the use of a control block after [delete this]. *)
Inductive exn := no_control | no_event | dangling.

Inductive result (A : Type) :=
| Ok (a : A)
| Throw (e : exn).
Arguments Ok {A} a.
Arguments Throw {A} e.

Definition bind {A B} (r : result A) (k : A → result B) : result B :=
  match r with
  | Ok a => k a
  | Throw e => Throw e
  end.

(** [class event_control]: [iEvent] is [None] for [nullptr]; [iRefCount]
    is a [uint32_t]. *)
Record event_control := {
  iEvent : option nat;
  iRefCount : Z
}.

(** [cookie_ref_ptr] (jar.hpp): the consumer it refers to and the
    cookie; a reset pointer has no consumer. *)
Record cookie_ref_ptr := {
  consumer : option nat;
  ref_cookie : cookie
}.

(** [class event_handle] *)
Record event_handle := {
  iControl : option nat;
  iRef : cookie_ref_ptr;
  iPrimary : bool
}.

(** The free store: the control blocks by address, and the list of
    cookie references given back through [iRef.reset()], oldest
    first. *)
Record store := {
  controls : gmap nat event_control;
  resets : list cookie_ref_ptr
}.

Definition uint32 (z : Z) : Z := z mod 2 ^ 32.

(** [event_control::valid] *)
Definition valid (c : event_control) : bool :=
  bool_decide (iEvent c ≠ None).

(** [event_control::add_ref] on the block at address [p] *)
Definition control_add_ref (p : nat) (s : store) : result store :=
  match controls s !! p with
  | None => Throw dangling
  | Some c =>
      Ok {| controls :=
              <[p := {| iEvent := iEvent c; iRefCount := uint32 (iRefCount c + 1) |}]>
                (controls s);
            resets := resets s |}
  end.

(** [event_control::release]: the block deletes itself when the count
    reaches zero. *)
Definition control_release (p : nat) (s : store) : result store :=
  match controls s !! p with
  | None => Throw dangling
  | Some c =>
      let n := uint32 (iRefCount c - 1) in
      Ok {| controls :=
              if n =? 0 then delete p (controls s)
              else <[p := {| iEvent := iEvent c; iRefCount := n |}]> (controls s);
            resets := resets s |}
  end.

(** [event_handle::have_control] *)
Definition have_control (h : event_handle) : bool :=
  bool_decide (iControl h ≠ None).

(** [event_handle::primary] *)
Definition primary (h : event_handle) : bool := iPrimary h.

(** [if (have_control()) control().add_ref();], the tail of all three
    constructors *)
Definition add_ref_if_controlled (h : event_handle) (s : store) : result store :=
  match iControl h with
  | Some p => control_add_ref p s
  | None => Ok s
  end.

(** [event_handle(i_event_control& aControl, cookie aId)]: the handle
    [subscribe] returns; [aControl.get()] throws when the control block
    has lost its event. *)
Definition event_handle_new (p : nat) (aId : cookie) (s : store)
    : result (store * event_handle) :=
  match controls s !! p with
  | None => Throw dangling
  | Some c =>
      match iEvent c with
      | None => Throw no_event
      | Some e =>
          let h := {| iControl := Some p;
                      iRef := {| consumer := Some e; ref_cookie := aId |};
                      iPrimary := true |} in
          bind (add_ref_if_controlled h s) (λ s', Ok (s', h))
      end
  end.

(** [event_handle(const event_handle& aOther)] *)
Definition event_handle_copy (aOther : event_handle) (s : store)
    : result (store * event_handle) :=
  let h := {| iControl := iControl aOther; iRef := iRef aOther; iPrimary := false |} in
  bind (add_ref_if_controlled h s) (λ s', Ok (s', h)).

(** [event_handle(event_handle&& aOther)]: returns the store, the
    moved-from handle and the new handle. *)
Definition event_handle_move (aOther : event_handle) (s : store)
    : result (store * event_handle * event_handle) :=
  let h := {| iControl := iControl aOther; iRef := iRef aOther; iPrimary := false |} in
  let aOther' := {| iControl := iControl aOther; iRef := iRef aOther; iPrimary := false |} in
  bind (add_ref_if_controlled h s) (λ s', Ok (s', aOther', h)).

(** [iRef.reset()]: the handle gives its cookie reference back. *)
Definition ref_reset (h : event_handle) (s : store) : store * event_handle :=
  ({| controls := controls s; resets := resets s ++ [iRef h] |},
   {| iControl := iControl h;
      iRef := {| consumer := None; ref_cookie := 0 |};
      iPrimary := iPrimary h |}).

(** The body of [~event_handle()].  The result also says whether the
    branch with [iRef.reset()] was taken. *)
Definition event_handle_destroy (h : event_handle) (s : store)
    : result (store * bool) :=
  match iControl h with
  | None => Ok (s, false)
  | Some p =>
      match controls s !! p with
      | None => Throw dangling
      | Some c =>
          if negb (valid c) || primary h then
            let '(s1, h1) := ref_reset h s in
            bind (control_release p s1) (λ s2, Ok (s2, true))
          else
            bind (control_release p s) (λ s2, Ok (s2, false))
      end
  end.

(** A control block at address 0 for the event at address 7, with the
    event's own reference. *)
Definition store0 : store :=
  {| controls := {[ 0%nat := {| iEvent := Some 7%nat; iRefCount := 1 |} ]}; resets := [] |}.

(** The handle [subscribe] returns for cookie 1 *)
Definition primary0 : event_handle :=
  {| iControl := Some 0%nat;
     iRef := {| consumer := Some 7%nat; ref_cookie := 1 |};
     iPrimary := true |}.

(** *** Reference counting *)

(** [event_control::reset] *)
Definition control_reset (p : nat) (s : store) : result store :=
  match controls s !! p with
  | None => Throw dangling
  | Some c =>
      Ok {| controls := <[p := {| iEvent := None; iRefCount := iRefCount c |}]> (controls s);
            resets := resets s |}
  end.

(** What [event::~event] does to its control block, at address [p]:
    [control().reset(); control().release();] *)
Definition event_gone (p : nat) (s : store) : result store :=
  bind (control_reset p s) (control_release p).

(** [event_handle::operator=]; [self] says whether [&aRhs == this]. *)
Definition event_handle_assign (this aRhs : event_handle) (self : bool) (s : store)
    : result (store * event_handle) :=
  if self then Ok (s, this)
  else
    let oldControl := iControl this in
    let this1 := {| iControl := iControl aRhs; iRef := iRef this; iPrimary := iPrimary this |} in
    bind (add_ref_if_controlled this1 s) (λ s1,
    bind (match oldControl with
          | Some p => control_release p s1
          | None => Ok s1
          end) (λ s2,
      Ok (s2, {| iControl := iControl this1; iRef := iRef aRhs; iPrimary := iPrimary this1 |}))).

(** What is done with handles, the handles that are alive being kept in
    a list: a handle is made for the control block at [p], the handle at
    [i] is copied, moved from, destroyed or assigned the handle at [j],
    or the event behind the control block at [p] is destroyed. *)
Inductive op :=
| New (p : nat) (aId : cookie)
| Copy (i : nat)
| Move (i : nat)
| Destroy (i : nat)
| Assign (i j : nat)
| EventGone (p : nat).

Definition step (o : op) (st : store * list event_handle)
    : result (store * list event_handle) :=
  match o with
  | New p aId =>
      bind (event_handle_new p aId st.1) (λ r, Ok (r.1, st.2 ++ [r.2]))
  | Copy i =>
      match st.2 !! i with
      | Some h => bind (event_handle_copy h st.1) (λ r, Ok (r.1, st.2 ++ [r.2]))
      | None => Ok st
      end
  | Move i =>
      match st.2 !! i with
      | Some h =>
          bind (event_handle_move h st.1) (λ r, Ok (r.1.1, <[i := r.1.2]> st.2 ++ [r.2]))
      | None => Ok st
      end
  | Destroy i =>
      match st.2 !! i with
      | Some h => bind (event_handle_destroy h st.1) (λ r, Ok (r.1, delete i st.2))
      | None => Ok st
      end
  | Assign i j =>
      match st.2 !! i, st.2 !! j with
      | Some this, Some aRhs =>
          bind (event_handle_assign this aRhs (bool_decide (i = j)) st.1)
            (λ r, Ok (r.1, <[i := r.2]> st.2))
      | _, _ => Ok st
      end
  | EventGone p => bind (event_gone p st.1) (λ s', Ok (s', st.2))
  end.

(** A handle is made for, and an event is destroyed behind, a control
    block that is there and valid. *)
Definition allowed (o : op) (s : store) : Prop :=
  match o with
  | New p _ | EventGone p => ∃ c, controls s !! p = Some c ∧ valid c = true
  | _ => True
  end.

(** The number of handles that refer to the control block at [p] *)
Definition refs (p : nat) (hs : list event_handle) : nat :=
  length (filter (λ h, iControl h = Some p) hs).

(** Every control block counts the handles that refer to it, and one
    more while its event is alive; a block that is gone has no handle. *)
Definition counted (s : store) (hs : list event_handle) : Prop :=
  ∀ p, match controls s !! p with
       | Some c => iRefCount c = (if valid c then 1 else 0) + Z.of_nat (refs p hs)
                   ∧ 0 < iRefCount c
       | None => refs p hs = 0%nat
       end.

End Handle.

(** ** The thread pool *)

Module Pool.

Local Open Scope nat_scope.

(** [task_pointer] is a [std::shared_ptr<i_task>]: the address of the task
    object, or [None] for the null pointer. *)
Abbreviation task_pointer := (option nat).
(** [std::pair<task_pointer, int32_t>] and the [std::deque] of them *)
Abbreviation task_queue_entry := (task_pointer * Z)%type.
Abbreviation task_queue := (list task_queue_entry).

(** [thread_pool_thread::no_active_task], [thread_pool_thread::already_active],
    [thread_pool::no_threads]; [bad_task_pointer] stands for the
    dereference of a task pointer that owns no object. *)
Inductive exn := no_active_task | already_active | no_threads | bad_task_pointer.

Inductive result (A : Type) :=
| Ok (a : A)
| Throw (e : exn)
| OutOfFuel.
Arguments Ok {A} a.
Arguments Throw {A} e.
Arguments OutOfFuel {A}.

Definition bind {A B} (r : result A) (k : A → result B) : result B :=
  match r with
  | Ok a => k a
  | Throw e => Throw e
  | OutOfFuel => OutOfFuel
  end.

(** [class thread_pool_thread]: the fields the operations read and write;
    the mutexes and the condition variable are left out. *)
Record thread_pool_thread := {
  iWaitingTasks : task_queue;
  iActiveTask : task_pointer;
  iStopped : bool
}.

(** [class thread_pool]; [size_t] is [nat]. *)
Record thread_pool := {
  iThreads : list thread_pool_thread;
  iMaxThreads : nat;
  pool_iStopped : bool;
  iIdle : bool
}.

(** A worker as its constructor leaves it. *)
Definition new_thread : thread_pool_thread :=
  {| iWaitingTasks := []; iActiveTask := None; iStopped := false |}.

(** [thread_pool::thread_pool()] before its call of [reserve] *)
Definition new_pool : thread_pool :=
  {| iThreads := []; iMaxThreads := 0; pool_iStopped := false; iIdle := true |}.

Definition thread_at (p : thread_pool) (i : nat) : thread_pool_thread :=
  default new_thread (iThreads p !! i).

Definition with_thread (p : thread_pool) (i : nat)
    (f : thread_pool_thread → thread_pool_thread) : thread_pool :=
  {| iThreads := alter f i (iThreads p);
     iMaxThreads := iMaxThreads p;
     pool_iStopped := pool_iStopped p;
     iIdle := iIdle p |}.

Definition set_queue (q : task_queue) (t : thread_pool_thread) : thread_pool_thread :=
  {| iWaitingTasks := q; iActiveTask := iActiveTask t; iStopped := iStopped t |}.

Definition set_active (a : task_pointer) (t : thread_pool_thread) : thread_pool_thread :=
  {| iWaitingTasks := iWaitingTasks t; iActiveTask := a; iStopped := iStopped t |}.

(** [thread_pool_thread::active] *)
Definition active (t : thread_pool_thread) : bool :=
  bool_decide (iActiveTask t ≠ None).

(** [thread_pool_thread::idle] *)
Definition idle (t : thread_pool_thread) : bool :=
  bool_decide (iActiveTask t = None) && bool_decide (iWaitingTasks t = []).

(** The comparison handed to [std::upper_bound] by [add] *)
Definition comp (aLeft aRight : task_queue_entry) : bool :=
  (aLeft.2 >? aRight.2)%Z.

(** [std::upper_bound(first, last, value, comp)]: the binary search of the
    standard library, on positions of the queue.  [count] at least halves
    in every round, so [length q] rounds are enough. *)
Fixpoint upper_bound_loop (fuel : nat) (q : task_queue) (value : task_queue_entry)
    (first count : nat) : nat :=
  match fuel with
  | 0 => first
  | S fuel' =>
      if count =? 0 then first
      else
        let step := count / 2 in
        let it := first + step in
        match q !! it with
        | Some e =>
            if negb (comp value e)
            then upper_bound_loop fuel' q value (S it) (count - (step + 1))
            else upper_bound_loop fuel' q value first step
        | None => first
        end
  end.

Definition upper_bound (q : task_queue) (value : task_queue_entry) : nat :=
  upper_bound_loop (length q) q value 0 (length q).

(** [iWaitingTasks.emplace(where, aTask, aPriority)] *)
Definition emplace (where_ : nat) (e : task_queue_entry) (q : task_queue) : task_queue :=
  take where_ q ++ e :: drop where_ q.

(** [thread_pool::update_idle] *)
Definition update_idle (p : thread_pool) : thread_pool :=
  {| iThreads := iThreads p;
     iMaxThreads := iMaxThreads p;
     pool_iStopped := pool_iStopped p;
     iIdle := forallb idle (iThreads p) |}.

(** [thread_pool::thread_gone_idle] and [thread_pool::thread_gone_busy];
    the notification of the waiting thread leaves the state alone. *)
Definition thread_gone_idle (p : thread_pool) : thread_pool := update_idle p.
Definition thread_gone_busy (p : thread_pool) : thread_pool := update_idle p.

(** [thread_pool_thread::next_task] of worker [i]; [steal] is
    [thread_pool::steal_work]. *)
Definition next_task_body (steal : thread_pool → nat → result thread_pool)
    (p : thread_pool) (i : nat) : result thread_pool :=
  if active (thread_at p i) then Throw already_active
  else
    bind (match iWaitingTasks (thread_at p i) with
          | [] => steal p i
          | _ :: _ => Ok p
          end)
      (λ p1,
         match iWaitingTasks (thread_at p1 i) with
         | front :: rest =>
             Ok (thread_gone_busy
                   (with_thread p1 i (λ t, set_queue rest (set_active front.1 t))))
         | [] => Ok (thread_gone_idle p1)
         end).

(** [thread_pool_thread::add] of worker [i]; [next] is [next_task]. *)
Definition add_body (next : thread_pool → nat → result thread_pool)
    (p : thread_pool) (i : nat) (aTask : task_pointer) (aPriority : Z)
    : result thread_pool :=
  let where_ := upper_bound (iWaitingTasks (thread_at p i)) (None, aPriority) in
  let p1 := with_thread p i
              (λ t, set_queue (emplace where_ (aTask, aPriority) (iWaitingTasks t)) t) in
  if negb (active (thread_at p1 i)) then next p1 i else Ok p1.

(** [thread_pool_thread::steal_work] of worker [victim], for the idle
    worker [aIdleThread] *)
Definition thread_steal_work_body
    (add : thread_pool → nat → task_pointer → Z → result thread_pool)
    (p : thread_pool) (victim aIdleThread : nat) : result (thread_pool * bool) :=
  match iWaitingTasks (thread_at p victim) with
  | newTask :: rest =>
      bind (add (with_thread p victim (set_queue rest)) aIdleThread newTask.1 newTask.2)
        (λ p', Ok (p', true))
  | [] => Ok (p, false)
  end.

(** The loop of [thread_pool::steal_work] over the workers [js] *)
Fixpoint steal_scan (tsteal : thread_pool → nat → nat → result (thread_pool * bool))
    (aIdleThread : nat) (js : list nat) (p : thread_pool) : result thread_pool :=
  match js with
  | [] => Ok p
  | j :: js' =>
      if j =? aIdleThread then steal_scan tsteal aIdleThread js' p
      else
        match tsteal p j aIdleThread with
        | Ok (p', true) => Ok p'
        | Ok (p', false) => steal_scan tsteal aIdleThread js' p'
        | Throw e => Throw e
        | OutOfFuel => OutOfFuel
        end
  end.

(** [thread_pool::steal_work] *)
Definition pool_steal_work_body
    (tsteal : thread_pool → nat → nat → result (thread_pool * bool))
    (p : thread_pool) (aIdleThread : nat) : result thread_pool :=
  match iThreads p with
  | [] => Throw no_threads
  | _ :: _ => steal_scan tsteal aIdleThread (seq 0 (length (iThreads p))) p
  end.

(** The four functions call each other: [next_task] steals, stealing
    adds, and [add] calls [next_task].  [fuel] bounds the depth of
    [next_task] inside [next_task]. *)
Fixpoint next_task (fuel : nat) (p : thread_pool) (i : nat) : result thread_pool :=
  match fuel with
  | 0 => OutOfFuel
  | S fuel' =>
      next_task_body
        (pool_steal_work_body (thread_steal_work_body (add_body (next_task fuel'))))
        p i
  end.

Definition add (fuel : nat) : thread_pool → nat → task_pointer → Z → result thread_pool :=
  add_body (next_task fuel).

Definition thread_steal_work (fuel : nat)
    : thread_pool → nat → nat → result (thread_pool * bool) :=
  thread_steal_work_body (add fuel).

Definition pool_steal_work (fuel : nat) : thread_pool → nat → result thread_pool :=
  pool_steal_work_body (thread_steal_work fuel).

(** [thread_pool_thread::release] *)
Definition release (p : thread_pool) (i : nat) : result thread_pool :=
  match iActiveTask (thread_at p i) with
  | None => Throw no_active_task
  | Some _ => Ok (with_thread p i (set_active None))
  end.

(** [thread_pool::max_threads] *)
Definition max_threads (p : thread_pool) : nat := iMaxThreads p.

(** [thread_pool::stopped] *)
Definition stopped (p : thread_pool) : bool := pool_iStopped p.

Definition push_back_thread (p : thread_pool) : thread_pool :=
  {| iThreads := iThreads p ++ [new_thread];
     iMaxThreads := iMaxThreads p;
     pool_iStopped := pool_iStopped p;
     iIdle := iIdle p |}.

(** The [while] loop of [thread_pool::reserve] *)
Fixpoint reserve_loop (fuel : nat) (p : thread_pool) : result thread_pool :=
  match fuel with
  | 0 => OutOfFuel
  | S fuel' =>
      if length (iThreads p) <? iMaxThreads p
      then reserve_loop fuel' (push_back_thread p)
      else Ok p
  end.

(** [thread_pool::reserve] *)
Definition reserve (fuel : nat) (aMaxThreads : nat) (p : thread_pool) : result thread_pool :=
  reserve_loop fuel
    {| iThreads := iThreads p;
       iMaxThreads := aMaxThreads;
       pool_iStopped := pool_iStopped p;
       iIdle := iIdle p |}.

(** The [for] loop of [thread_pool::start]: the position of the first
    worker that is not active, counting from [j]. *)
Fixpoint start_scan (ts : list thread_pool_thread) (j : nat) : option nat :=
  match ts with
  | [] => None
  | t :: ts' => if negb (active t) then Some j else start_scan ts' (S j)
  end.

(** [thread_pool::start(task_pointer aTask, int32_t aPriority)] *)
Definition start (fuel : nat) (p : thread_pool) (aTask : task_pointer) (aPriority : Z)
    : result thread_pool :=
  if stopped p then Ok p
  else
    match iThreads p with
    | [] => Throw no_threads
    | _ :: _ =>
        match start_scan (iThreads p) 0 with
        | Some j => add fuel p j aTask aPriority
        | None => add fuel p 0 aTask aPriority
        end
    end.

(** [reserve] called with each of [ns] in turn, with fuel enough for
    every loop *)
Fixpoint reserve_all (ns : list nat) (p : thread_pool) : result thread_pool :=
  match ns with
  | [] => Ok p
  | n :: ns' => bind (reserve (S n) n p) (reserve_all ns')
  end.

(** The order [add] keeps a queue in: priorities do not increase from
    the front to the back. *)
Definition queue_sorted (q : task_queue) : Prop :=
  StronglySorted (λ a b : task_queue_entry, (b.2 ≤ a.2)%Z) q.

Definition pool_sorted (p : thread_pool) : Prop :=
  Forall (λ t, queue_sorted (iWaitingTasks t)) (iThreads p).

(** The pools that come about: a new pool, and what [reserve], [start]
    and the turns of the workers make of it.  A turn of worker [i] ends
    with [release] and [next_task]. *)
Inductive reachable : thread_pool → Prop :=
| reachable_new : reachable new_pool
| reachable_reserve (p p' : thread_pool) (n : nat) :
    reachable p → reserve (S n) n p = Ok p' → reachable p'
| reachable_start (p p' : thread_pool) (fuel : nat) (aTask : task_pointer) (aPriority : Z) :
    reachable p → start fuel p aTask aPriority = Ok p' → reachable p'
| reachable_turn (p p1 p2 : thread_pool) (fuel i : nat) :
    reachable p → release p i = Ok p1 → next_task fuel p1 i = Ok p2 → reachable p2.

(** *** The worker's loop *)

Section Exec.

(** The task objects: [T] is the state of an [i_task], with its
    [cancelled()] and [run()]; the interface header is not among the
    sources.  [run] gives the task object as the call leaves it and, when
    the call is left by an exception, that exception. *)
Context {T : Type} (cancelled : T → bool) (run : T → T * option nat).

(** The pool, the task objects by address, the addresses on which the
    workers have called [run], and the addresses of the tasks the workers
    found cancelled and did not run, oldest first. *)
Record exec_state := {
  pool : thread_pool;
  tasks : gmap nat T;
  run_calls : list nat;
  skipped : list nat
}.

(** What one turn of the [while] loop of [exec] came to: the wait on the
    condition variable does not return, [exec] returns, the turn is
    completed, or [exec] is left by the exception that [run] threw. *)
Inductive exec_outcome := Blocked | Returned | Continued | Raised (e : nat).

(** [std::scoped_lock lk2(iPoolMutex); release(); next_task();], the end
    of a turn *)
Definition exec_release (fuel : nat) (i : nat) (s : exec_state)
    : result (exec_state * exec_outcome) :=
  bind (release (pool s) i) (λ p1,
  bind (next_task fuel p1 i) (λ p2,
    Ok ({| pool := p2; tasks := tasks s; run_calls := run_calls s; skipped := skipped s |},
        Continued))).

(** One turn of the [while] loop of [thread_pool_thread::exec] of worker
    [i].  The call of [run] is not guarded: an exception leaves [exec]
    before [release()] and [next_task()]. *)
Definition exec_iteration (fuel : nat) (i : nat) (s : exec_state)
    : result (exec_state * exec_outcome) :=
  let t := thread_at (pool s) i in
  if negb (bool_decide (iActiveTask t ≠ None) || iStopped t) then Ok (s, Blocked)
  else if iStopped t then Ok (s, Returned)
  else
    match iActiveTask t with
    | None => Throw bad_task_pointer
    | Some a =>
        match tasks s !! a with
        | None => Throw bad_task_pointer
        | Some task =>
            if negb (cancelled task)
            then
              let s1 := {| pool := pool s;
                           tasks := <[a := (run task).1]> (tasks s);
                           run_calls := run_calls s ++ [a];
                           skipped := skipped s |} in
              match (run task).2 with
              | Some e => Ok (s1, Raised e)
              | None => exec_release fuel i s1
              end
            else
              exec_release fuel i
                {| pool := pool s; tasks := tasks s; run_calls := run_calls s;
                   skipped := skipped s ++ [a] |}
        end
    end.

End Exec.

Arguments exec_state : clear implicits.

(** Modelled from the spec: the task class behind [i_task] is not among
    the sources.  A task has a cancellation flag, a completion signal and
    a unit of work.  [cancel] sets the flag and is idempotent,
    [cancelled] reads it, and [run] executes the unit of work and fails
    only if the task itself raises.  [runs] counts the calls of [run],
    [raises] is what the unit of work raises, if anything, and [returned]
    says that a call of [run] has returned. *)
Record task := {
  iCancelled : bool;
  runs : nat;
  raises : option nat;
  returned : bool
}.

Definition task_cancel (t : task) : task :=
  {| iCancelled := true; runs := runs t; raises := raises t; returned := returned t |}.

Definition task_cancelled (t : task) : bool := iCancelled t.

Definition task_run (t : task) : task * option nat :=
  ({| iCancelled := iCancelled t; runs := S (runs t); raises := raises t;
      returned := returned t || bool_decide (raises t = None) |},
   raises t).

(** Modelled from the spec: [future()] is a one-shot completion handle,
    signalled after [run] returns or after the task is skipped due to
    cancellation. *)
Definition future_signalled (s : exec_state task) (a : nat) : bool :=
  match tasks s !! a with
  | Some t => returned t || bool_decide (a ∈ skipped s)
  | None => false
  end.

(** What every operation on the pool keeps: the order of the queues and
    the number of workers *)
Definition keeps (p p' : thread_pool) : Prop :=
  (pool_sorted p → pool_sorted p') ∧ length (iThreads p') = length (iThreads p).

(** One worker whose active task, at address 0, has been cancelled
    before it was run; nothing else is queued. *)
Definition cancelled_state : exec_state task :=
  {| pool := {| iThreads := [ {| iWaitingTasks := []; iActiveTask := Some 0;
                                  iStopped := false |} ];
                iMaxThreads := 1; pool_iStopped := false; iIdle := false |};
     tasks := {[ 0 := task_cancel {| iCancelled := false; runs := 0; raises := None;
                                      returned := false |} ]};
     run_calls := []; skipped := [] |}.

(** One worker that is not active, with three tasks queued *)
Definition pool2 : thread_pool :=
  {| iThreads := [ {| iWaitingTasks := [(Some 1, 5%Z); (Some 2, 3%Z); (Some 3, 3%Z)];
                      iActiveTask := None; iStopped := false |} ];
     iMaxThreads := 1; pool_iStopped := false; iIdle := false |}.

(** One worker, busy with the task at address 0 *)
Definition busy_pool : thread_pool :=
  {| iThreads := [ {| iWaitingTasks := []; iActiveTask := Some 0; iStopped := false |} ];
     iMaxThreads := 1; pool_iStopped := false; iIdle := false |}.

(** Two workers: the first is busy, the second is not. *)
Definition pool3 : thread_pool :=
  {| iThreads := [ {| iWaitingTasks := []; iActiveTask := Some 0; iStopped := false |};
                   new_thread ];
     iMaxThreads := 2; pool_iStopped := false; iIdle := false |}.

(** *** Counting the workers, [try_start] and [stop] *)

(** The loop of [thread_pool::active_threads], with [result] so far *)
Fixpoint count_active (ts : list thread_pool_thread) (result : nat) : nat :=
  match ts with
  | [] => result
  | t :: ts' => count_active ts' (if active t then S result else result)
  end.

(** [thread_pool::active_threads] *)
Definition active_threads (p : thread_pool) : nat := count_active (iThreads p) 0.

(** Arithmetic on [std::size_t], taken as 64 bits wide *)
Definition size_t (z : Z) : Z := (z mod 2 ^ 64)%Z.

(** [thread_pool::available_threads]: [max_threads() - active_threads()],
    a difference of two [std::size_t] *)
Definition available_threads (p : thread_pool) : Z :=
  size_t (Z.of_nat (max_threads p) - Z.of_nat (active_threads p)).

(** [thread_pool::try_start(task_pointer aTask, int32_t aPriority)] *)
Definition try_start (fuel : nat) (p : thread_pool) (aTask : task_pointer) (aPriority : Z)
    : result (thread_pool * bool) :=
  if stopped p then Ok (p, false)
  else if (available_threads p =? 0)%Z then Ok (p, false)
  else bind (start fuel p aTask aPriority) (λ p', Ok (p', true)).

(** [thread_pool::idle] and [thread_pool::busy] *)
Definition pool_idle (p : thread_pool) : bool := iIdle p.
Definition busy (p : thread_pool) : bool := negb (pool_idle p).

(** [thread_pool_thread::stop]: the flag is set; the notification and the
    wait for the thread to end leave the fields alone. *)
Definition thread_stop (t : thread_pool_thread) : thread_pool_thread :=
  if iStopped t then t
  else {| iWaitingTasks := iWaitingTasks t; iActiveTask := iActiveTask t; iStopped := true |}.

(** [thread_pool::stop] *)
Definition stop (p : thread_pool) : thread_pool :=
  if stopped p then p
  else {| iThreads := thread_stop <$> iThreads p;
          iMaxThreads := iMaxThreads p;
          pool_iStopped := true;
          iIdle := iIdle p |}.

(** *** What the pool holds *)

(** The task objects a worker holds: its active task and the tasks in its
    queue; null pointers are no tasks. *)
Definition tasks_of (t : thread_pool_thread) : list nat :=
  option_list (iActiveTask t) ++ omap fst (iWaitingTasks t).

Definition all_tasks (p : thread_pool) : list nat := iThreads p ≫= tasks_of.

(** No null pointer is queued, and a worker that is not active has
    nothing queued. *)
Definition tidy_thread (t : thread_pool_thread) : Prop :=
  Forall (λ e : task_queue_entry, e.1 ≠ None) (iWaitingTasks t) ∧
  (iActiveTask t = None → iWaitingTasks t = []).

Definition tidy (p : thread_pool) : Prop := Forall tidy_thread (iThreads p).

(** The two halves of [tidy], each for the whole pool *)
Definition no_null_queued (p : thread_pool) : Prop :=
  Forall (λ t, Forall (λ e : task_queue_entry, e.1 ≠ None) (iWaitingTasks t)) (iThreads p).

Definition free_unqueued (p : thread_pool) : Prop :=
  Forall (λ t, iActiveTask t = None → iWaitingTasks t = []) (iThreads p).

(** No task waits while a worker has nothing to do. *)
Definition busy_first (p : thread_pool) : Prop :=
  (∃ t, t ∈ iThreads p ∧ iActiveTask t = None) →
  Forall (λ t, iWaitingTasks t = []) (iThreads p).

(** The worker [thread_pool::steal_work] takes from on behalf of worker
    [i]: the first one other than [i], counting from [j], that has a task
    waiting; with the entry at the front of its queue and the rest. *)
Fixpoint find_victim (ts : list thread_pool_thread) (i j : nat)
    : option (nat * task_queue_entry * task_queue) :=
  match ts with
  | [] => None
  | t :: ts' =>
      if j =? i then find_victim ts' i (S j)
      else match iWaitingTasks t with
           | e :: rest => Some (j, e, rest)
           | [] => find_victim ts' i (S j)
           end
  end.

(** [r2] is what [r1] is, unless [r1] ran out of fuel. *)
Definition fuel_le {A} (r1 r2 : result A) : Prop := r1 = OutOfFuel ∨ r1 = r2.

(** What worker [i] has after it took the entry [e] from the front of
    the queue of worker [j], of which [rest] is left *)
Definition stolen (p : thread_pool) (i j : nat) (e : task_queue_entry) (rest : task_queue)
    : thread_pool :=
  update_idle (with_thread (with_thread p j (set_queue rest)) i (set_active e.1)).

(** What the turn of worker [i] comes to, in one step: the worker gives
    up its active task and goes on with the front of its queue, or with
    the front of the queue of [find_victim], or with nothing. *)
Definition after_turn (p : thread_pool) (i : nat) : thread_pool :=
  update_idle
    match iWaitingTasks (thread_at p i) with
    | front :: rest => with_thread p i (λ t, set_queue rest (set_active front.1 t))
    | [] =>
        match find_victim (iThreads p) i 0 with
        | Some (j, e, rest) =>
            with_thread (with_thread p j (set_queue rest)) i (set_active e.1)
        | None => with_thread p i (set_active None)
        end
    end.

(** Two busy workers; the second has two tasks waiting. *)
Definition pool4 : thread_pool :=
  {| iThreads := [ {| iWaitingTasks := []; iActiveTask := Some 0; iStopped := false |};
                   {| iWaitingTasks := [(Some 2, 5%Z); (Some 3, 1%Z)]; iActiveTask := Some 1;
                      iStopped := false |} ];
     iMaxThreads := 2; pool_iStopped := false; iIdle := false |}.

(** Two busy workers, the first with a null pointer at the front of its
    queue: what [reserve(2)] and the starts of the tasks 0 and 1, of a
    null pointer at priority 5 and of the task 2 make of a new pool *)
Definition pool_null : thread_pool :=
  {| iThreads := [ {| iWaitingTasks := [(None, 5%Z); (Some 2, 0%Z)]; iActiveTask := Some 0;
                      iStopped := false |};
                   {| iWaitingTasks := []; iActiveTask := Some 1; iStopped := false |} ];
     iMaxThreads := 2; pool_iStopped := false; iIdle := false |}.


(** A [run] that counts its calls and returns; and one that throws at
    the call that would count past [n] *)
Definition counting_run (t : nat) : nat * option nat := (S t, None).


End Pool.

(** ** Events *)

Module Event.

(** [cookie] (jar.hpp, not among the sources): an integer identifier. *)
Abbreviation cookie := Z.

(** [event_handler_not_found] and [event_queue_destroyed] (i_event.hpp);
    [user_exception] is whatever a callable or a filter throws. *)
Inductive exn :=
| event_handler_not_found
| event_queue_destroyed
| user_exception (n : nat).

(** How a call ends: it returns, it throws, it runs into undefined
    behaviour ([back()] or [pop_back()] of an empty vector, [erase(end())]),
    or the fuel of the interpreter is used up. *)
Inductive status (A : Type) :=
| Ret (a : A)
| Exn (e : exn)
| Undefined
| Stuck.
Arguments Ret {A} a.
Arguments Exn {A} e.
Arguments Undefined {A}.
Arguments Stuck {A}.

Definition uint64 (z : Z) : Z := z mod 2 ^ 64.
Definition uint32 (z : Z) : Z := z mod 2 ^ 32.

(** [enum class event_trigger_type] *)
Inductive event_trigger_type :=
| Default
| Synchronous
| SynchronousDontQueue
| Asynchronous
| AsynchronousDontQueue.

#[global] Instance event_trigger_type_eq_dec : EqDecision event_trigger_type.
Proof. solve_decision. Defined.

(** [struct event::handler].  [queue] is the address of the handler's
    [async_event_queue]; the [destroyed_flag] on that queue is read from
    the world, see [queueDestroyed].  [clientId] 0 is [nullptr].
    [callable] is the identity of the callable. *)
Record handler := {
  queue : nat;
  referenceCount : Z;
  clientId : nat;
  callable : nat;
  handleInSameThreadAsEmitter : bool;
  handlerIsStateless : bool;
  triggerId : Z
}.

(** [struct event::context] *)
Record context := {
  accepted : bool;
  context_handlersChanged : bool
}.

(** [struct event::instance_data] *)
Record instance_data := {
  ignoreErrors : bool;
  triggerType : event_trigger_type;
  handlers : list (cookie * handler);
  contexts : list context;
  triggering : bool;
  instance_triggerId : Z;
  handlersChanged : bool;
  filterCount : Z
}.

(** [struct async_event_queue::event_list_entry]: the transaction and the
    identity of the callable of the callback. *)
Record event_list_entry := {
  transaction : Z;
  callback : nat
}.

(** [class async_event_queue]: the fields [enqueue] works on. *)
Record async_event_queue := {
  iEvents : list event_list_entry;
  iTerminated : bool;
  iNextTransaction : Z
}.

(** What the sources at hand use but do not define:
    - [emitterQueue]: the address [async_event_queue::instance()] has on
      the triggering thread;
    - [scoped_flag_value]: the value the constructor of [scoped_flag]
      (neolib/core/scoped.hpp) leaves in the flag, given the value it
      found; its destructor puts the value found back;
    - [queue_enqueue]: [async_event_queue::enqueue], which is only
      declared;
    - [unqueue_event]: the free function of that name, only declared;
    - [indeterminate_stateless]: the value found in the member
      [handlerIsStateless] of the handler made for the given cookie; the
      constructor of [handler] does not initialise that member. *)
Record platform := {
  emitterQueue : nat;
  scoped_flag_value : bool → bool;
  queue_enqueue : async_event_queue → nat → bool → option Z → async_event_queue * Z;
  unqueue_event : gmap nat async_event_queue → gmap nat async_event_queue;
  indeterminate_stateless : cookie → bool
}.

(** One event and what is around it: its instance data ([None] while
    [iInstanceDataPtr] is null), [iNextCookie], whether its lifetime has
    ended, the queues by address, and the queues that are destroyed.
    Two lists record what happened, oldest first: [dispatched] gets the
    trigger id and the cookie whenever a trigger loop hands a handler to
    [enqueue]; [invoked] gets the callable whenever [enqueue] calls one
    inline. *)
Record world := {
  iInstanceData : option instance_data;
  iNextCookie : Z;
  destroyed : bool;
  queues : gmap nat async_event_queue;
  queuesDestroyed : gset nat;
  dispatched : list (Z * cookie);
  invoked : list nat
}.

Definition new_instance : instance_data :=
  {| ignoreErrors := false; triggerType := Default; handlers := []; contexts := [];
     triggering := false; instance_triggerId := 0; handlersChanged := false;
     filterCount := 0 |}.

Definition new_queue : async_event_queue :=
  {| iEvents := []; iTerminated := false; iNextTransaction := 0 |}.

(** [event::event()] *)
Definition new_event : world :=
  {| iInstanceData := None; iNextCookie := 0; destroyed := false; queues := ∅;
     queuesDestroyed := ∅; dispatched := []; invoked := [] |}.

(** [event::has_instance] and [event::instance] *)
Definition has_instance (w : world) : bool := bool_decide (iInstanceData w ≠ None).
Definition instance (w : world) : instance_data := default new_instance (iInstanceData w).

Definition set_instance (d : instance_data) (w : world) : world :=
  {| iInstanceData := Some d; iNextCookie := iNextCookie w; destroyed := destroyed w;
     queues := queues w; queuesDestroyed := queuesDestroyed w;
     dispatched := dispatched w; invoked := invoked w |}.

Definition update (f : instance_data → instance_data) (w : world) : world :=
  set_instance (f (instance w)) w.

Definition set_handlers (hs : list (cookie * handler)) (d : instance_data) : instance_data :=
  {| ignoreErrors := ignoreErrors d; triggerType := triggerType d; handlers := hs;
     contexts := contexts d; triggering := triggering d;
     instance_triggerId := instance_triggerId d; handlersChanged := handlersChanged d;
     filterCount := filterCount d |}.

Definition set_contexts (cs : list context) (d : instance_data) : instance_data :=
  {| ignoreErrors := ignoreErrors d; triggerType := triggerType d; handlers := handlers d;
     contexts := cs; triggering := triggering d;
     instance_triggerId := instance_triggerId d; handlersChanged := handlersChanged d;
     filterCount := filterCount d |}.

Definition set_triggering (b : bool) (d : instance_data) : instance_data :=
  {| ignoreErrors := ignoreErrors d; triggerType := triggerType d; handlers := handlers d;
     contexts := contexts d; triggering := b;
     instance_triggerId := instance_triggerId d; handlersChanged := handlersChanged d;
     filterCount := filterCount d |}.

Definition set_instance_triggerId (t : Z) (d : instance_data) : instance_data :=
  {| ignoreErrors := ignoreErrors d; triggerType := triggerType d; handlers := handlers d;
     contexts := contexts d; triggering := triggering d;
     instance_triggerId := t; handlersChanged := handlersChanged d;
     filterCount := filterCount d |}.

Definition set_handlersChanged (b : bool) (d : instance_data) : instance_data :=
  {| ignoreErrors := ignoreErrors d; triggerType := triggerType d; handlers := handlers d;
     contexts := contexts d; triggering := triggering d;
     instance_triggerId := instance_triggerId d; handlersChanged := b;
     filterCount := filterCount d |}.

Definition set_ignoreErrors (b : bool) (d : instance_data) : instance_data :=
  {| ignoreErrors := b; triggerType := triggerType d; handlers := handlers d;
     contexts := contexts d; triggering := triggering d;
     instance_triggerId := instance_triggerId d; handlersChanged := handlersChanged d;
     filterCount := filterCount d |}.

Definition set_triggerType (t : event_trigger_type) (d : instance_data) : instance_data :=
  {| ignoreErrors := ignoreErrors d; triggerType := t; handlers := handlers d;
     contexts := contexts d; triggering := triggering d;
     instance_triggerId := instance_triggerId d; handlersChanged := handlersChanged d;
     filterCount := filterCount d |}.

Definition set_filterCount (n : Z) (d : instance_data) : instance_data :=
  {| ignoreErrors := ignoreErrors d; triggerType := triggerType d; handlers := handlers d;
     contexts := contexts d; triggering := triggering d;
     instance_triggerId := instance_triggerId d; handlersChanged := handlersChanged d;
     filterCount := n |}.

Definition set_triggerId (t : Z) (h : handler) : handler :=
  {| queue := queue h; referenceCount := referenceCount h; clientId := clientId h;
     callable := callable h;
     handleInSameThreadAsEmitter := handleInSameThreadAsEmitter h;
     handlerIsStateless := handlerIsStateless h; triggerId := t |}.

Definition set_accepted (b : bool) (c : context) : context :=
  {| accepted := b; context_handlersChanged := context_handlersChanged c |}.

Definition set_queues (qs : gmap nat async_event_queue) (w : world) : world :=
  {| iInstanceData := iInstanceData w; iNextCookie := iNextCookie w;
     destroyed := destroyed w; queues := qs; queuesDestroyed := queuesDestroyed w;
     dispatched := dispatched w; invoked := invoked w |}.

Definition log_dispatch (t : Z) (c : cookie) (w : world) : world :=
  {| iInstanceData := iInstanceData w; iNextCookie := iNextCookie w;
     destroyed := destroyed w; queues := queues w; queuesDestroyed := queuesDestroyed w;
     dispatched := dispatched w ++ [(t, c)]; invoked := invoked w |}.

Definition log_invoke (aCallable : nat) (w : world) : world :=
  {| iInstanceData := iInstanceData w; iNextCookie := iNextCookie w;
     destroyed := destroyed w; queues := queues w; queuesDestroyed := queuesDestroyed w;
     dispatched := dispatched w; invoked := invoked w ++ [aCallable] |}.

(** [event::~event()]: [clear()] drops the instance data. *)
Definition destroy (P : platform) (w : world) : world :=
  {| iInstanceData := None; iNextCookie := iNextCookie w; destroyed := true;
     queues := unqueue_event P (queues w); queuesDestroyed := queuesDestroyed w;
     dispatched := dispatched w; invoked := invoked w |}.

(** The [destroyed_flag] a handler keeps on its queue *)
Definition queueDestroyed (w : world) (h : handler) : bool :=
  bool_decide (queue h ∈ queuesDestroyed w).

(** [event::push_context] *)
Definition push_context (w : world) : world :=
  update (λ d, set_contexts
                 (contexts d ++ [{| accepted := false; context_handlersChanged := false |}])
                 d) w.

(** [event::pop_context]; [pop_back] of a non-empty vector. *)
Definition pop_context (w : world) : world :=
  update (λ d, set_contexts (removelast (contexts d)) d) w.

(** [event::filtered] *)
Definition filtered (w : world) : bool := 0 <? filterCount (instance w).

(** [event::filter_added] *)
Definition filter_added (w : world) : world :=
  update (λ d, set_filterCount (uint32 (filterCount d + 1)) d) w.

(** [event::ignore_errors] *)
Definition ignore_errors (w : world) : world := update (set_ignoreErrors true) w.

(** [event::trigger_type] and [event::set_trigger_type] *)
Definition trigger_type (w : world) : event_trigger_type := triggerType (instance w).
Definition set_trigger_type (t : event_trigger_type) (w : world) : world :=
  update (set_triggerType t) w.

(** [event::accept] and [event::ignore]: [contexts.back().accepted = ...] *)
Definition mark_back (b : bool) (w : world) : world * status unit :=
  match last (contexts (instance w)) with
  | None => (w, Undefined)
  | Some c =>
      (update (λ d, set_contexts (removelast (contexts d) ++ [set_accepted b c]) d) w,
       Ret tt)
  end.
Definition accept : world → world * status unit := mark_back true.
Definition ignore : world → world * status unit := mark_back false.

(** [event::invalidate_handler_list] *)
Definition invalidate_handler_list (w : world) : world :=
  update (λ d, set_contexts
                 (map (λ c, {| accepted := accepted c; context_handlersChanged := true |})
                      (contexts d))
                 (set_handlersChanged true d)) w.

(** [event::next_cookie] *)
Definition next_cookie (w : world) : world * cookie :=
  ({| iInstanceData := iInstanceData w; iNextCookie := iNextCookie w + 1;
      destroyed := destroyed w; queues := queues w; queuesDestroyed := queuesDestroyed w;
      dispatched := dispatched w; invoked := invoked w |},
   iNextCookie w + 1).

(** [event::find_handler]: the position of the handler with the cookie *)
Fixpoint find_handler (aHandleId : cookie) (hs : list (cookie * handler)) : option nat :=
  match hs with
  | [] => None
  | h :: hs' =>
      if h.1 =? aHandleId then Some 0%nat
      else S <$> find_handler aHandleId hs'
  end.

(** [instance()] called for a look at the handlers: when there is no
    instance data yet, it is made. *)
Definition touch (w : world) : world := update (λ d, d) w.

(** *** The reference count of a handler *)

Definition set_referenceCount (n : Z) (h : handler) : handler :=
  {| queue := queue h; referenceCount := n; clientId := clientId h;
     callable := callable h;
     handleInSameThreadAsEmitter := handleInSameThreadAsEmitter h;
     handlerIsStateless := handlerIsStateless h; triggerId := triggerId h |}.

(** [event::get_handler]: the position and the handler, where
    [find_handler] is not [end()] *)
Definition get_handler (aHandleId : cookie) (w : world) : option (nat * handler) :=
  i ← find_handler aHandleId (handlers (instance w));
  x ← handlers (instance w) !! i;
  Some (i, x.2).

(** [event::add_ref(cookie)] *)
Definition add_ref (aCookie : cookie) (w : world) : world * status unit :=
  match get_handler aCookie w with
  | None => (touch w, Exn event_handler_not_found)
  | Some (i, h) =>
      (update (λ d, set_handlers
                      (<[i := (aCookie, set_referenceCount (uint32 (referenceCount h + 1)) h)]>
                         (handlers d)) d) w,
       Ret tt)
  end.

(** [event::release(cookie)]: the count is taken down, and at zero the
    handler is erased; [find_handler] finds it where [get_handler] did. *)
Definition release (aCookie : cookie) (w : world) : world * status unit :=
  match get_handler aCookie w with
  | None => (touch w, Exn event_handler_not_found)
  | Some (i, h) =>
      let n := uint32 (referenceCount h - 1) in
      if n =? 0
      then (update (λ d, set_handlers (delete i (handlers d)) d) w, Ret tt)
      else (update (λ d, set_handlers
                           (<[i := (aCookie, set_referenceCount n h)]> (handlers d)) d) w,
            Ret tt)
  end.

(** [event::use_count(cookie)]; the count is returned as a [long],
    which holds it as long as it is below [2 ^ 31]. *)
Definition use_count (aCookie : cookie) (w : world) : status Z :=
  match get_handler aCookie w with
  | None => Exn event_handler_not_found
  | Some (_, h) => Ret (referenceCount h)
  end.

(** A handler as [subscribe] constructs it for the cookie [id], on the
    queue of the calling thread: the constructor sets the reference
    count to 0 and leaves [handlerIsStateless] as it finds it. *)
Definition new_handler (P : platform) (id : cookie) (aClientId aCallable : nat) : handler :=
  {| queue := emitterQueue P; referenceCount := 0; clientId := aClientId;
     callable := aCallable; handleInSameThreadAsEmitter := false;
     handlerIsStateless := indeterminate_stateless P id; triggerId := 0 |}.

(** Modelled from the spec: [cookie_ref_ptr] (neolib/core/jar.hpp), the
    member [iRef] of the [event_handle] that [subscribe] returns, is not
    among the sources.  The reference count of a handler is the number
    of live handles for its cookie: the cookie reference made for a
    handle adds one ([add_ref(cookie)]), and giving it back takes one
    off ([release(cookie)]), which removes the handler at zero.  Where
    [subscribe] makes the reference a handler with the cookie has just
    been added, so [add_ref] does not throw there. *)
Definition cookie_ref (aCookie : cookie) (w : world) : world := (add_ref aCookie w).1.

(** The handler for the cookie [id] as [subscribe] leaves it *)
Definition subscribed (P : platform) (id : cookie) (aClientId aCallable : nat) : handler :=
  {| queue := emitterQueue P; referenceCount := 1; clientId := aClientId;
     callable := aCallable; handleInSameThreadAsEmitter := false;
     handlerIsStateless := indeterminate_stateless P id; triggerId := 0 |}.

(** [event::subscribe]; the result is the cookie of the handle returned,
    [event_handle{ control(), id }], which is alive and holds the cookie
    reference.  What the handle does to its control block is in
    [Handle.event_handle_new]. *)
Definition subscribe (P : platform) (aCallable aClientId : nat) (w : world)
    : world * cookie :=
  let '(w1, id) := next_cookie (invalidate_handler_list w) in
  (cookie_ref id
     (update (λ d, set_handlers
                     (handlers d ++ [(id, new_handler P id aClientId aCallable)]) d) w1),
   id).

(** [event::unsubscribe(event_handle)]: [erase(find_handler(id))] *)
Definition unsubscribe (aHandle : cookie) (w : world) : world * status unit :=
  let w1 := invalidate_handler_list w in
  match find_handler aHandle (handlers (instance w1)) with
  | None => (w1, Undefined)
  | Some i => (update (λ d, set_handlers (delete i (handlers d)) d) w1, Ret tt)
  end.

(** [event::unsubscribe] by client identity *)
Definition unsubscribe_client (aClientId : nat) (w : world) : world :=
  update (λ d, set_handlers
                 (filter (λ h, clientId h.2 ≠ aClientId) (handlers d)) d)
    (invalidate_handler_list w).

(** [event::handle_in_same_thread_as_emitter] *)
Definition handle_in_same_thread_as_emitter (aHandleId : cookie) (w : world)
    : world * status unit :=
  match find_handler aHandleId (handlers (instance w)) with
  | None => (touch w, Exn event_handler_not_found)
  | Some i =>
      (update (λ d, set_handlers
                      (alter (λ h, (h.1,
                                {| queue := queue h.2; referenceCount := referenceCount h.2;
                                   clientId := clientId h.2; callable := callable h.2;
                                   handleInSameThreadAsEmitter := true;
                                   handlerIsStateless := handlerIsStateless h.2;
                                   triggerId := triggerId h.2 |})) i (handlers d)) d) w,
       Ret tt)
  end.

(** [event::unqueue] *)
Definition unqueue (P : platform) (w : world) : world :=
  set_queues (unqueue_event P (queues w)) w.

(** [aQueue.enqueue(ecb, aHandler.handlerIsStateless, aAsyncTransaction)]
    on the queue at address [q] *)
Definition enqueue_on (P : platform) (q : nat) (h : handler)
    (aAsyncTransaction : option Z) (w : world) : world * status (option Z) :=
  let '(q', t) := queue_enqueue P (default new_queue (queues w !! q))
                    (callable h) (handlerIsStateless h) aAsyncTransaction in
  (set_queues (<[q := q']> (queues w)) w, Ret (Some t)).

(** The test at the head of [event::enqueue]: the callable is called
    inline. *)
Definition calls_inline (P : platform) (w : world) (aHandler : handler) (aAsync : bool)
    : bool :=
  negb aAsync
  && (handleInSameThreadAsEmitter aHandler
      || (negb (queueDestroyed w aHandler)
          && bool_decide (queue aHandler = emitterQueue P))).

(** [event::enqueue]; [call] invokes a callable. *)
Definition enqueue (P : platform) (call : nat → world → world * status unit)
    (w : world) (aHandler : handler) (aAsync : bool) (aAsyncTransaction : option Z)
    : world * status (option Z) :=
  if calls_inline P w aHandler aAsync
  then
    match call (callable aHandler) (log_invoke (callable aHandler) w) with
    | (w', Ret _) => (w', Ret None)
    | (w', Exn e) => (w', Exn e)
    | (w', Undefined) => (w', Undefined)
    | (w', Stuck) => (w', Stuck)
    end
  else if handleInSameThreadAsEmitter aHandler
  then enqueue_on P (emitterQueue P) aHandler aAsyncTransaction w
  else if negb (queueDestroyed w aHandler)
  then enqueue_on P (queue aHandler) aHandler aAsyncTransaction w
  else if negb (ignoreErrors (instance w))
  then (w, Exn event_queue_destroyed)
  else (w, Ret None).

(** What the loops of [sync_trigger] and [async_trigger] do to the handler
    at hand before they pass it to [enqueue]: a trigger id below the
    current one is raised to it; and the world [enqueue] is called in,
    with the handler written back at its position. *)
Definition mark (aTriggerId : Z) (h : handler) : handler :=
  if triggerId h <? aTriggerId then set_triggerId aTriggerId h else h.

Definition marked (w : world) (aTriggerId : Z) (handlerIndex : nat) (id : cookie)
    (h : handler) : world :=
  log_dispatch aTriggerId id
    (update (λ d, set_handlers (<[handlerIndex := (id, h)]> (handlers d)) d) w).

(** *** Triggering *)

Section Trigger.

Context (P : platform).
(** [call] invokes a callable; [filter] is
    [async_event_queue::instance().filter_registry().filter_event( *this)]. *)
Context (call : nat → world → world * status unit).
Context (filter : world → world * status unit).

(** The [for] loop of [sync_trigger], from [handlerIndex] on, for at most
    [fuel] turns. *)
Fixpoint sync_trigger_loop (fuel : nat) (w : world) (aTriggerId : Z)
    (handlerIndex : nat) (aTransaction : option Z) : world * status bool :=
  match fuel with
  | 0%nat => (w, Stuck)
  | S fuel' =>
      match handlers (instance w) !! handlerIndex with
      | None => (pop_context w, Ret true)
      | Some (id, h) =>
          let handlerIndex' := S handlerIndex in
          if triggerId h =? aTriggerId
          then sync_trigger_loop fuel' w aTriggerId handlerIndex' aTransaction
          else
            let h1 := mark aTriggerId h in
            let w1 := marked w aTriggerId handlerIndex id h1 in
            match enqueue P call w1 h1 false aTransaction with
            | (w2, Exn e) => (pop_context w2, Exn e)
            | (w2, Undefined) => (w2, Undefined)
            | (w2, Stuck) => (w2, Stuck)
            | (w2, Ret transaction') =>
                if destroyed w2 then (w2, Ret true)
                else
                  match last (contexts (instance w2)) with
                  | None => (w2, Undefined)
                  | Some c =>
                      if accepted c then (pop_context w2, Ret false)
                      else if handlersChanged (instance w2)
                      then sync_trigger_loop fuel' (update (set_handlersChanged false) w2)
                             aTriggerId 0%nat transaction'
                      else sync_trigger_loop fuel' w2 aTriggerId handlerIndex' transaction'
                  end
            end
      end
  end.

(** [scoped_flag sf{ instance().triggering };] and the block that
    follows it, up to [auto triggerId = ++instance().triggerId;].  The
    result is the world and the new trigger id. *)
Definition begin_triggering (w : world) : world * Z :=
  let w1 := update (λ d, set_triggering (scoped_flag_value P (triggering d)) d) w in
  let w2 :=
    if negb (triggering (instance w1))
    then update (λ d, set_handlers
                        (map (λ h, (h.1, set_triggerId 0 h.2)) (handlers d))
                        (set_instance_triggerId 0 (set_triggering true d))) w1
    else w1 in
  let t := uint64 (instance_triggerId (instance w2) + 1) in
  (update (set_instance_triggerId t) w2, t).

(** The destructor of the [scoped_flag]: [saved] goes back into the
    flag.  Once the event is destroyed there is no flag left. *)
Definition end_triggering (saved : bool) (w : world) : world :=
  if destroyed w then w else update (set_triggering saved) w.

(** [sync_trigger] from [if (instance().handlers.empty()) return true;]
    (the second test of that kind) on *)
Definition sync_trigger_dispatch (fuel : nat) (w : world) : world * status bool :=
  match handlers (instance w) with
  | [] => (w, Ret true)
  | _ :: _ =>
      let saved := triggering (instance w) in
      let '(w1, t) := begin_triggering w in
      let '(w2, r) := sync_trigger_loop fuel w1 t 0%nat None in
      (end_triggering saved w2, r)
  end.

(** [event::sync_trigger] *)
Definition sync_trigger (fuel : nat) (w : world) : world * status bool :=
  if negb (has_instance w) then (w, Ret true)
  else
    let w0 := if bool_decide (trigger_type w = SynchronousDontQueue)
              then unqueue P w else w in
    if bool_decide (handlers (instance w0) = []) && negb (filtered w0)
    then (w0, Ret true)
    else
      let w1 := push_context w0 in
      if filtered w1 then
        match filter w1 with
        | (w2, Exn e) => (w2, Exn e)
        | (w2, Undefined) => (w2, Undefined)
        | (w2, Stuck) => (w2, Stuck)
        | (w2, Ret _) =>
            if destroyed w2 then (w2, Ret true)
            else
              match last (contexts (instance w2)) with
              | None => (w2, Undefined)
              | Some c =>
                  if accepted c then (pop_context w2, Ret false)
                  else sync_trigger_dispatch fuel w2
              end
        end
      else sync_trigger_dispatch fuel w1.

(** The [for] loop of [async_trigger] *)
Fixpoint async_trigger_loop (fuel : nat) (w : world) (aTriggerId : Z)
    (handlerIndex : nat) (aTransaction : option Z) : world * status unit :=
  match fuel with
  | 0%nat => (w, Stuck)
  | S fuel' =>
      match handlers (instance w) !! handlerIndex with
      | None => (w, Ret tt)
      | Some (id, h) =>
          let handlerIndex' := S handlerIndex in
          if triggerId h =? aTriggerId
          then async_trigger_loop fuel' w aTriggerId handlerIndex' aTransaction
          else
            let h1 := mark aTriggerId h in
            let w1 := marked w aTriggerId handlerIndex id h1 in
            match enqueue P call w1 h1 true aTransaction with
            | (w2, Exn e) => (w2, Exn e)
            | (w2, Undefined) => (w2, Undefined)
            | (w2, Stuck) => (w2, Stuck)
            | (w2, Ret transaction') =>
                if destroyed w2 then (w2, Ret tt)
                else if handlersChanged (instance w2)
                then async_trigger_loop fuel' (update (set_handlersChanged false) w2)
                       aTriggerId 0%nat transaction'
                else async_trigger_loop fuel' w2 aTriggerId handlerIndex' transaction'
            end
      end
  end.

(** [event::async_trigger] *)
Definition async_trigger (fuel : nat) (w : world) : world * status unit :=
  if negb (has_instance w) then (w, Ret tt)
  else
    let w0 := if bool_decide (trigger_type w = AsynchronousDontQueue)
              then unqueue P w else w in
    match handlers (instance w0) with
    | [] => (w0, Ret tt)
    | _ :: _ =>
        let saved := triggering (instance w0) in
        let '(w1, t) := begin_triggering w0 in
        let '(w2, r) := async_trigger_loop fuel w1 t 0%nat None in
        (end_triggering saved w2, r)
    end.

(** [event::trigger] *)
Definition trigger (fuel : nat) (w : world) : world * status bool :=
  if negb (has_instance w) then (w, Ret true)
  else
    match trigger_type w with
    | Asynchronous | AsynchronousDontQueue =>
        match async_trigger fuel w with
        | (w', Ret _) => (w', Ret true)
        | (w', Exn e) => (w', Exn e)
        | (w', Undefined) => (w', Undefined)
        | (w', Stuck) => (w', Stuck)
        end
    | Default | Synchronous | SynchronousDontQueue => sync_trigger fuel w
    end.

End Trigger.

(** *** Callables and filters as programs

    What a callable or a filter does to the event it is called for: a
    list of calls of the event's interface.  A callable does not touch an
    event that is destroyed, and it keeps the handles of its
    subscriptions. *)
Inductive action :=
| Accept
| Ignore
| Subscribe (aCallable aClientId : nat)
| Unsubscribe (aHandle : cookie)
| UnsubscribeClient (aClientId : nat)
| IgnoreErrors
| SyncTrigger
| AsyncTrigger
| DestroyEvent
| Raise (n : nat).

Section Programs.

Context (P : platform).
Context (strigger : world → world * status bool).
Context (atrigger : world → world * status unit).

Definition continue_with (r : world * status unit)
    (k : world → world * status unit) : world * status unit :=
  match r with
  | (w, Ret _) => k w
  | (w, Exn e) => (w, Exn e)
  | (w, Undefined) => (w, Undefined)
  | (w, Stuck) => (w, Stuck)
  end.

Definition forget {A} (r : world * status A) : world * status unit :=
  match r with
  | (w, Ret _) => (w, Ret tt)
  | (w, Exn e) => (w, Exn e)
  | (w, Undefined) => (w, Undefined)
  | (w, Stuck) => (w, Stuck)
  end.

Definition run_action (a : action) (w : world) : world * status unit :=
  match a with
  | Accept => accept w
  | Ignore => ignore w
  | Subscribe aCallable aClientId => ((subscribe P aCallable aClientId w).1, Ret tt)
  | Unsubscribe aHandle => unsubscribe aHandle w
  | UnsubscribeClient aClientId => (unsubscribe_client aClientId w, Ret tt)
  | IgnoreErrors => (ignore_errors w, Ret tt)
  | SyncTrigger => forget (strigger w)
  | AsyncTrigger => atrigger w
  | DestroyEvent => (destroy P w, Ret tt)
  | Raise n => (w, Exn (user_exception n))
  end.

(** The calls of a program, in order; what follows the destruction of the
    event is not run. *)
Fixpoint run_script (s : list action) (w : world) : world * status unit :=
  match s with
  | [] => (w, Ret tt)
  | a :: s' =>
      continue_with (run_action a w)
        (λ w', if destroyed w' then (w', Ret tt) else run_script s' w')
  end.

End Programs.

(** The callable with identity [c] runs [behaviour c]; the installed
    filters together run [filters].  [fuel] bounds the depth of triggers
    inside callables and the turns of every loop. *)
Fixpoint run (P : platform) (behaviour : nat → list action) (filters : list action)
    (fuel : nat) (s : list action) (w : world) : world * status unit :=
  match fuel with
  | 0%nat => (w, Stuck)
  | S fuel' =>
      let call := λ c, run P behaviour filters fuel' (behaviour c) in
      let filter := run P behaviour filters fuel' filters in
      run_script P (sync_trigger P call filter fuel') (async_trigger P call fuel') s w
  end.

(** [sync_trigger] and [async_trigger] of an event whose callables and
    filters are the given programs *)
Definition event_sync_trigger (P : platform) (behaviour : nat → list action)
    (filters : list action) (fuel : nat) (w : world) : world * status bool :=
  sync_trigger P (λ c, run P behaviour filters fuel (behaviour c))
    (run P behaviour filters fuel filters) fuel w.

Definition event_async_trigger (P : platform) (behaviour : nat → list action)
    (filters : list action) (fuel : nat) (w : world) : world * status unit :=
  async_trigger P (λ c, run P behaviour filters fuel (behaviour c)) fuel w.

(** A program that does not trigger the event it is called for *)
Definition quiet (s : list action) : Prop :=
  Forall (λ a, a ≠ SyncTrigger ∧ a ≠ AsyncTrigger) s.

(** Modelled from the spec: [async_event_queue::enqueue] is only declared
    in the sources.  It appends an entry; a stateless callback whose
    callable is that of the last entry replaces that entry; the
    transaction handed in is used again when the last entry carries it,
    otherwise a fresh one is allocated. *)
Definition spec_enqueue (q : async_event_queue) (aCallback : nat) (aStateless : bool)
    (aTransaction : option Z) : async_event_queue * Z :=
  if iTerminated q then (q, default (iNextTransaction q) aTransaction) else
  let reuse :=
    match aTransaction, last (iEvents q) with
    | Some t, Some e => if transaction e =? t then Some t else None
    | _, _ => None
    end in
  let t := default (uint64 (iNextTransaction q + 1)) reuse in
  let next := match reuse with Some _ => iNextTransaction q | None => t end in
  let kept :=
    match last (iEvents q) with
    | Some e => if aStateless && (callback e =? aCallback)%nat
                then removelast (iEvents q) else iEvents q
    | None => iEvents q
    end in
  ({| iEvents := kept ++ [{| transaction := t; callback := aCallback |}];
      iTerminated := iTerminated q; iNextTransaction := next |}, t).

(** Modelled from the spec: [unqueue_event] drops every pending entry of
    the event; the world holds one event, so the queues become empty. *)
Definition spec_unqueue_event (qs : gmap nat async_event_queue)
    : gmap nat async_event_queue :=
  (λ q, {| iEvents := []; iTerminated := iTerminated q;
           iNextTransaction := iNextTransaction q |}) <$> qs.

(** A platform on which the constructor of [scoped_flag] sets the flag
    (when [sets] holds) or leaves it as found, and on which
    [handlerIsStateless] of the handler for the cookie [id] is found to
    be [stateless id]. *)
Definition spec_platform_with (stateless : cookie → bool) (aEmitterQueue : nat)
    (sets : bool) : platform :=
  {| emitterQueue := aEmitterQueue;
     scoped_flag_value := λ b, if sets then true else b;
     queue_enqueue := spec_enqueue;
     unqueue_event := spec_unqueue_event;
     indeterminate_stateless := stateless |}.

(** That platform where the member is found unset *)
Definition spec_platform (aEmitterQueue : nat) (sets : bool) : platform :=
  spec_platform_with (λ _, false) aEmitterQueue sets.

(** *** Invariants of the handler list and of the log *)

(** No cookie of a handler is beyond [iNextCookie]. *)
Definition cookies_bounded (w : world) : Prop :=
  Forall (λ x : cookie * handler, x.1 ≤ iNextCookie w) (handlers (instance w)).

(** What a callable that does not trigger the event can do to the world:
    cookies only grow, the log and the trigger id of a live event stay,
    a destroyed event stays destroyed, and, where no cookie was beyond
    [iNextCookie], every handler afterwards was there before or is one
    of the [new] ones, which carry fresh cookies and the trigger id 0. *)
Definition quiet_step (w w' : world) : Prop :=
  iNextCookie w ≤ iNextCookie w' ∧
  dispatched w' = dispatched w ∧
  (destroyed w = true → destroyed w' = true) ∧
  (destroyed w' = false →
   instance_triggerId (instance w') = instance_triggerId (instance w)) ∧
  (cookies_bounded w →
  ∃ new : list (cookie * handler),
    handlers (instance w') `sublist_of` handlers (instance w) ++ new ∧
    NoDup new.*1 ∧
    Forall (λ x, iNextCookie w < x.1 ≤ iNextCookie w' ∧ triggerId x.2 = 0) new).

(** The cookies of the handlers differ, none is beyond [iNextCookie], and
    no trigger id is above [bound]. *)
Definition handlers_ok (bound : Z) (w : world) : Prop :=
  NoDup (handlers (instance w)).*1 ∧
  Forall (λ x : cookie * handler, x.1 ≤ iNextCookie w ∧ triggerId x.2 ≤ bound)
    (handlers (instance w)).

(** Since the log was [base], the trigger with id [T] has handed each
    cookie to [enqueue] at most once, and the handlers it has dispatched
    that are still subscribed carry the trigger id [T]. *)
Definition log_ok (base : list (Z * cookie)) (T : Z) (w : world) : Prop :=
  ∃ l : list (Z * cookie),
    dispatched w = base ++ l ∧
    NoDup l.*2 ∧
    Forall (λ e, e.1 = T ∧ e.2 ≤ iNextCookie w ∧
                 ∀ h, (e.2, h) ∈ handlers (instance w) → triggerId h = T) l.

(** What holds between two turns of the loop of the trigger with id
    [T] *)
Definition dispatching (base : list (Z * cookie)) (T : Z) (w : world) : Prop :=
  handlers_ok T w ∧ log_ok base T w.

(** What holds of an event while no trigger is running on it *)
Definition idle_ok (w : world) : Prop :=
  handlers_ok (instance_triggerId (instance w)) w ∧
  0 ≤ instance_triggerId (instance w) < 2 ^ 64 - 1.

(** What one trigger adds to the log: entries of one trigger id, no two
    for the same cookie *)
Definition once_each (w w' : world) : Prop :=
  ∃ (T : Z) (l : list (Z * cookie)),
    dispatched w' = dispatched w ++ l ∧ NoDup l.*2 ∧ Forall (λ e, e.1 = T) l.

(** *** The depth of the context stack *)

(** The call came back to its caller, by return or by exception. *)
Definition came_back {A} (r : status A) : Prop :=
  match r with
  | Ret _ | Exn _ => True
  | Undefined | Stuck => False
  end.

(** [w'] comes after [w]: a destroyed event stays destroyed; and if no
    filter is installed in [w] and the event is alive in [w'] after a
    call that came back, none is installed in [w'] and the context stack
    of [w'] is [drop] shorter than that of [w]. *)
Definition depth_step {A} (drop : nat) (w : world) (res : world * status A) : Prop :=
  (destroyed w = true → destroyed res.1 = true) ∧
  (filterCount (instance w) = 0 → destroyed res.1 = false → came_back res.2 →
   filterCount (instance res.1) = 0 ∧
   (length (contexts (instance res.1)) + drop = length (contexts (instance w)))%nat).

(** A function on worlds that leaves the depth of the context stack as
    it is *)
Definition balanced {A} (f : world → world * status A) : Prop :=
  ∀ w, depth_step 0 w (f w).

(** *** Events and callables used as examples *)

(** The first callable does nothing, the second accepts, the third
    would throw. *)
Definition accepting (c : nat) : list action :=
  match c with
  | 2%nat => [Accept]
  | 3%nat => [Raise 0]
  | _ => []
  end.

(** A new event with three subscriptions made on the triggering thread *)
Definition three_handlers (P : platform) : world :=
  (subscribe P 3 0 (subscribe P 2 0 (subscribe P 1 0 new_event).1).1).1.

(** A new event on which one filter has been installed *)
Definition filtered_event : world := filter_added new_event.

(** The callable 1 does nothing.  The callable 2 unsubscribes itself
    (its client identity is 7), triggers the event again, and subscribes
    the callable 3, which does nothing. *)
Definition reentrant (c : nat) : list action :=
  match c with
  | 2%nat => [UnsubscribeClient 7; SyncTrigger; Subscribe 3 0]
  | _ => []
  end.

(** A new event to which the callables 1 and 2 are subscribed, in that
    order, on the triggering thread; their cookies are 1 and 2. *)
Definition two_handlers (P : platform) : world :=
  (subscribe P 2 7 (subscribe P 1 0 new_event).1).1.

(** A handler subscribed from the thread whose queue is at address 5,
    and a world in which that queue is destroyed *)
Definition remote_handler : handler :=
  {| queue := 5; referenceCount := 1; clientId := 0; callable := 1;
     handleInSameThreadAsEmitter := false; handlerIsStateless := false; triggerId := 0 |}.

Definition remote_world : world :=
  {| iInstanceData := Some (set_handlers [(1, remote_handler)] new_instance);
     iNextCookie := 1; destroyed := false; queues := ∅; queuesDestroyed := {[ 5%nat ]};
     dispatched := []; invoked := [] |}.

(** *** What a trigger needs and what it leaves alone *)

(** What [enqueue] needs of a handler so as not to throw
    [event_queue_destroyed] *)
Definition deliverable (w : world) (h : handler) : Prop :=
  handleInSameThreadAsEmitter h = true ∨ queueDestroyed w h = false ∨
  ignoreErrors (instance w) = true.

(** The instance data but for the handlers and [handlersChanged], and
    the world but for the instance data, the queues and the two logs *)
Definition instance_rest (d d' : instance_data) : Prop :=
  ignoreErrors d' = ignoreErrors d ∧ triggerType d' = triggerType d ∧
  contexts d' = contexts d ∧ triggering d' = triggering d ∧
  instance_triggerId d' = instance_triggerId d ∧ filterCount d' = filterCount d.

Definition world_rest (w w' : world) : Prop :=
  iNextCookie w' = iNextCookie w ∧ destroyed w' = destroyed w ∧
  queuesDestroyed w' = queuesDestroyed w.

(** A handler whose callable [sync_trigger] calls inline, and which
    returns at once without touching the event *)
Definition inert_inline (P : platform) (call : nat → world → world * status unit)
    (w : world) (h : handler) : Prop :=
  calls_inline P w h false = true ∧ ∀ w', call (callable h) w' = (w', Ret tt).

(** Callables that do nothing; and callables of which the third throws *)
Definition inert_call (c : nat) (w : world) : world * status unit := (w, Ret tt).

Definition third_throws (c : nat) (w : world) : world * status unit :=
  if (c =? 3)%nat then (w, Exn (user_exception 0)) else (w, Ret tt).

Definition second_accepts (c : nat) (w : world) : world * status unit :=
  if (c =? 2)%nat then accept w else (w, Ret tt).

End Event.

(** ** The recursion limiter *)

Module Limiter.

(** [recursion_limiter<Tag>::too_deep]; [other_exception] is whatever the
    code under a limiter throws. *)
Inductive exn := too_deep | other_exception (n : nat).

Inductive result (A : Type) :=
| Ok (a : A)
| Throw (e : exn).
Arguments Ok {A} a.
Arguments Throw {A} e.

(** Arithmetic on [std::size_t], taken as 64 bits wide *)
Definition size_t (z : Z) : Z := z mod 2 ^ 64.

(** [class recursion_limiter<Tag>] *)
Record recursion_limiter := {
  iMaxDepth : Z
}.

(** [recursion_limiter::max_depth] *)
Definition max_depth (l : recursion_limiter) : Z := iMaxDepth l.

(** The constructors, [recursion_limiter()] with [aMaxDepth] being
    [Tag::RecursionLimit] and [recursion_limiter(std::size_t aMaxDepth)]:
    [++depth()], then the test.  [tDepth] is the thread-local counter
    behind [depth()].  When the constructor throws there is no object,
    and so no destructor is run for it. *)
Definition construct (aMaxDepth : Z) (tDepth : Z) : Z * result recursion_limiter :=
  let l := {| iMaxDepth := aMaxDepth |} in
  let tDepth' := size_t (tDepth + 1) in
  if tDepth' >? max_depth l then (tDepth', Throw too_deep) else (tDepth', Ok l).

(** [~recursion_limiter()]: [--depth()] *)
Definition destroy (tDepth : Z) : Z := size_t (tDepth - 1).

(** A block that begins with [_limit_recursion_to_(Tag, aMaxDepth)] (or
    with [_limit_recursion_(Tag)]) and goes on with [body]: the limiter is
    a local object, so its destructor runs when the block is left, by
    return or by exception. *)
Definition limited {A} (aMaxDepth : Z) (body : Z → Z * result A) (tDepth : Z)
    : Z * result A :=
  match construct aMaxDepth tDepth with
  | (d, Throw e) => (d, Throw e)
  | (d, Ok _) => let '(d', r) := body d in (destroy d', r)
  end.

(** [n] + 1 such blocks for one tag, one inside the other: what a
    function that begins with the limiter and calls itself [n] times
    comes to *)
Fixpoint recurse (aMaxDepth : Z) (n : nat) (tDepth : Z) : Z * result unit :=
  limited aMaxDepth
    (match n with
     | 0%nat => λ d, (d, Ok tt)
     | S n' => recurse aMaxDepth n'
     end) tDepth.

(** [k] calls of that function, one after the other, each caught by
    its caller; the counter after the last *)
Fixpoint calls (aMaxDepth : Z) (n : nat) (k : nat) (tDepth : Z) : Z :=
  match k with
  | 0%nat => tDepth
  | S k' => calls aMaxDepth n k' (recurse aMaxDepth n tDepth).1
  end.

End Limiter.

(** * What holds of the definitions *)

(** ** Simple variants *)

Module VariantFacts.

Import Variant.

Lemma double_ne_negb (a b : spec_float) : double_ne a b = negb (double_eq a b).
Proof.
  unfold double_ne, double_eq.
  destruct (SFcompare a b) as [[ | | ] | ]; reflexivity.
Qed.

Lemma xorb_negb_eqb (a b : bool) : xorb a b = negb (Bool.eqb a b).
Proof. destruct a, b; reflexivity. Qed.

Section Laws.

Context {i_string i_enum i_custom_type : Type}.
Context {string_ops : Comparable i_string}.
Context {enum_ops : Comparable i_enum}.
Context {custom_ops : Comparable i_custom_type}.

Abbreviation variant := (i_simple_variant i_string i_enum i_custom_type).

(** Two variants of one type carry payloads of one kind, so [operator==]
    returns whenever the types agree. *)
Lemma operator_eq_returns (lhs rhs : variant) :
  type lhs = type rhs → ∃ b, operator_eq lhs rhs = Ok b.
Proof.
  intros Ht. unfold operator_eq.
  rewrite bool_decide_eq_false_2 by (intros Hne; apply Hne, Ht).
  destruct lhs, rhs; simpl in Ht; try discriminate Ht; simpl; eauto.
Qed.

(** X26.  For two variants of one type that is [Empty], [Boolean],
    [Integer] or [Real], [operator!=] returns exactly the negation of
    what [operator==] returns, for [Real] also when an operand is a NaN.
    For two [String] and for two [CustomType] variants each of the two
    operators returns what the same operator of the payload type
    returns, whatever that is. *)
Theorem operator_ne_on_equal_types (lhs rhs : variant) :
  type lhs = type rhs →
  (type lhs ∈ [Empty; Boolean; Integer; Real] →
   ∃ b, operator_eq lhs rhs = Ok b ∧ operator_ne lhs rhs = Ok (negb b)) ∧
  (∀ a b, lhs = VString a → rhs = VString b →
          operator_eq lhs rhs = Ok (op_eq a b) ∧ operator_ne lhs rhs = Ok (op_ne a b)) ∧
  (∀ a b, lhs = VCustomType a → rhs = VCustomType b →
          operator_eq lhs rhs = Ok (op_eq a b) ∧ operator_ne lhs rhs = Ok (op_ne a b)).
Proof.
  intros Ht. split; [ | split].
  - intros Hin. unfold operator_ne, operator_eq.
    rewrite !bool_decide_eq_false_2 by (intros Hne; apply Hne, Ht).
    destruct lhs, rhs; simpl in Ht; try discriminate Ht;
      cbn [type compare_with bind value_as_boolean value_as_integer value_as_real];
      try solve [exfalso; cbn [type] in Hin;
                 repeat (apply elem_of_cons in Hin as [Hin | Hin]; [discriminate Hin | ]);
                 inversion Hin].
    + exists true. split; reflexivity.
    + eexists. split; [reflexivity | ]. f_equal. apply xorb_negb_eqb.
    + eexists. split; reflexivity.
    + eexists. split; [reflexivity | ]. f_equal. apply double_ne_negb.
  - intros a b -> ->. split; reflexivity.
  - intros a b -> ->. split; reflexivity.
Qed.

End Laws.

Lemma operator_ne_on_equal_types_witness :
  let lhs : i_simple_variant nat nat nat := VReal S754_nan in
  let rhs : i_simple_variant nat nat nat := VReal S754_nan in
  ∃ b, operator_eq (string_ops := nat_ops) (enum_ops := nat_ops) (custom_ops := nat_ops)
         lhs rhs = Ok b ∧
       operator_ne (string_ops := nat_ops) (custom_ops := nat_ops) lhs rhs = Ok (negb b).
Proof.
  intros lhs rhs.
  destruct (operator_ne_on_equal_types
              (string_ops := nat_ops) (enum_ops := nat_ops) (custom_ops := nat_ops)
              lhs rhs eq_refl) as [H _].
  apply H. right. right. right. left.
Defined.

(** [operator==] covers [Enum] where [operator!=] does not. *)
Example enum_eq_returns_ne_throws :
  operator_eq (string_ops := nat_ops) (enum_ops := nat_ops) (custom_ops := nat_ops)
    (VEnum 1%nat) (VEnum 1%nat) = Ok true ∧
  operator_ne (i_enum := nat) (string_ops := nat_ops) (custom_ops := nat_ops)
    (VEnum 1%nat) (VEnum 1%nat) = Throw unknown_type.
Proof. split; reflexivity. Qed.

(** *** [operator<] *)

Lemma SFcompare_Lt_irrefl (a : spec_float) : SFcompare a a ≠ Some Lt.
Proof.
  destruct a as [s | s | | s m e]; cbn; try discriminate.
  - destruct s; discriminate.
  - destruct s; rewrite Z.compare_refl, Pos.compare_cont_refl; discriminate.
Qed.

Lemma SFcompare_Lt_trans (a b c : spec_float) :
  SFcompare a b = Some Lt → SFcompare b c = Some Lt → SFcompare a c = Some Lt.
Proof.
  destruct a as [sa | sa | | sa ma ea], b as [sb | sb | | sb mb eb],
           c as [sc | sc | | sc mc ec]; cbn;
    try discriminate; try (destruct sa, sb, sc; (discriminate || reflexivity));
    try (destruct sa, sb; (discriminate || reflexivity));
    try (destruct sa, sc; (discriminate || reflexivity));
    try (destruct sb, sc; (discriminate || reflexivity)).
  destruct sa, sb, sc; try discriminate; try reflexivity;
    repeat match goal with
           | |- context [PosDef.Pos.compare_cont Eq ?x ?y] =>
               change (PosDef.Pos.compare_cont Eq x y) with (Pos.compare x y)
           end;
    destruct (Z.compare_spec ea eb), (Z.compare_spec eb ec), (Z.compare_spec ea ec);
    try discriminate; try lia; try reflexivity; subst;
    destruct (Pos.compare_spec ma mb), (Pos.compare_spec mb mc), (Pos.compare_spec ma mc);
    cbn; try discriminate; try lia; try reflexivity.
Qed.

Lemma double_lt_irrefl a : double_lt a a = false.
Proof.
  unfold double_lt. pose proof (SFcompare_Lt_irrefl a).
  destruct (SFcompare a a) as [[ | | ] | ]; congruence.
Qed.

Lemma double_lt_trans a b c : double_lt a b = true → double_lt b c = true → double_lt a c = true.
Proof.
  unfold double_lt. intros H1 H2.
  rewrite (SFcompare_Lt_trans a b c); [reflexivity | | ].
  - destruct (SFcompare a b) as [[ | | ] | ]; congruence.
  - destruct (SFcompare b c) as [[ | | ] | ]; congruence.
Qed.

Section OrderLaws.

Context {i_string i_enum i_custom_type : Type}.
Context {string_order : Ordered i_string}.
Context {custom_order : Ordered i_custom_type}.

Abbreviation variant := (i_simple_variant i_string i_enum i_custom_type).

Context (string_irrefl : ∀ a : i_string, op_lt a a = false).
Context (string_trans : ∀ a b c : i_string, op_lt a b = true → op_lt b c = true → op_lt a c = true).
Context (custom_irrefl : ∀ a : i_custom_type, op_lt a a = false).
Context (custom_trans : ∀ a b c : i_custom_type,
                          op_lt a b = true → op_lt b c = true → op_lt a c = true).

Lemma operator_lt_irrefl (a : variant) : operator_lt a a ≠ Ok true.
Proof.
  unfold operator_lt. rewrite bool_decide_eq_false_2 by (intros H; apply H; reflexivity).
  destruct a; cbn; try discriminate; intros [= H].
  - destruct b; discriminate.
  - lia.
  - rewrite double_lt_irrefl in H. discriminate.
  - rewrite string_irrefl in H. discriminate.
  - rewrite custom_irrefl in H. discriminate.
Qed.

Lemma operator_lt_trans (a b c : variant) :
  operator_lt a b = Ok true → operator_lt b c = Ok true → operator_lt a c = Ok true.
Proof.
  unfold operator_lt.
  destruct a, b, c; cbn; try discriminate; try reflexivity; intros [= H1] [= H2]; f_equal.
  - destruct b, b0, b1; (discriminate || reflexivity).
  - lia.
  - eapply double_lt_trans; eassumption.
  - eapply string_trans; eassumption.
  - eapply custom_trans; eassumption.
Qed.

Lemma operator_lt_total_on_types (a b : variant) :
  operator_lt a b = Throw unknown_type ↔ type a = Enum ∧ type b = Enum.
Proof.
  unfold operator_lt. destruct a, b; cbn; split; try discriminate; try (intros [? ?]; discriminate);
    try reflexivity; auto.
Qed.

Lemma operator_lt_returns_back (a b : variant) :
  operator_lt a b = Ok true → ∃ r, operator_lt b a = Ok r.
Proof.
  unfold operator_lt. destruct a, b; cbn; try discriminate; eauto.
Qed.

(** X13.  Where it returns [true], [operator<] is a strict order on
    variants, provided the [<] of [i_string] and of [i_custom_type] are
    strict orders: no variant is below itself; when [a < b] the
    comparison [b < a] returns [false]; and from [a < b] and [b < c]
    follows [a < c], also across types and for [double] payloads, where
    [<] is that of IEEE 754. *)
Theorem operator_lt_strict_order (a b c : variant) :
  operator_lt a a ≠ Ok true ∧
  (operator_lt a b = Ok true → operator_lt b a = Ok false) ∧
  (operator_lt a b = Ok true → operator_lt b c = Ok true → operator_lt a c = Ok true).
Proof.
  split; [apply operator_lt_irrefl | ]. split; [ | apply operator_lt_trans].
  intros Hab. destruct (operator_lt_returns_back a b Hab) as [[ | ] Hba]; [ | exact Hba].
  exfalso. apply (operator_lt_irrefl a). exact (operator_lt_trans a b a Hab Hba).
Qed.

End OrderLaws.

Lemma operator_lt_strict_order_witness :
  let a : i_simple_variant nat nat nat := VInteger 3 in
  let b : i_simple_variant nat nat nat := VString 1%nat in
  let c : i_simple_variant nat nat nat := VString 2%nat in
  operator_lt (string_order := nat_order) (custom_order := nat_order) a b = Ok true ∧
  operator_lt (string_order := nat_order) (custom_order := nat_order) b c = Ok true ∧
  operator_lt (string_order := nat_order) (custom_order := nat_order) a c = Ok true ∧
  operator_lt (string_order := nat_order) (custom_order := nat_order) b a = Ok false.
Proof.
  intros a b c.
  assert (∀ x : nat, op_lt (Ordered := nat_order) x x = false) as Hirr
    by (intros x; apply Nat.ltb_irrefl).
  assert (∀ x y z : nat, op_lt (Ordered := nat_order) x y = true →
                         op_lt (Ordered := nat_order) y z = true →
                         op_lt (Ordered := nat_order) x z = true) as Htr.
  { intros x y z. cbn. intros H1 H2. apply Nat.ltb_lt.
    apply Nat.ltb_lt in H1, H2. lia. }
  destruct (operator_lt_strict_order (string_order := nat_order) (custom_order := nat_order)
              Hirr Htr Hirr Htr a b c) as (_ & Hasym & Htrans).
  split; [reflexivity | ]. split; [reflexivity | ].
  split; [apply Htrans; reflexivity | apply Hasym; reflexivity].
Defined.

Section Throws.

Context {i_string i_enum i_custom_type : Type}.
Context {string_ops : Comparable i_string}.
Context {enum_ops : Comparable i_enum}.
Context {custom_ops : Comparable i_custom_type}.
Context {string_order : Ordered i_string}.
Context {custom_order : Ordered i_custom_type}.

(** X14.  [operator==] returns for every pair of variants.  [operator!=]
    and [operator<] throw for two [Enum] variants, for which they have no
    case, and for no other pair; what they throw is [unknown_type].
    Variants of different types are unequal and are ordered by the
    enumerators of their types. *)
Theorem comparisons_throw_for_two_enums_only
    (lhs rhs : i_simple_variant i_string i_enum i_custom_type) :
  (∃ b, operator_eq lhs rhs = Ok b) ∧
  (∀ e, operator_ne lhs rhs = Throw e ↔
        e = unknown_type ∧ type lhs = Enum ∧ type rhs = Enum) ∧
  (∀ e, operator_lt lhs rhs = Throw e ↔
        e = unknown_type ∧ type lhs = Enum ∧ type rhs = Enum) ∧
  (type lhs ≠ type rhs →
   operator_eq lhs rhs = Ok false ∧ operator_ne lhs rhs = Ok true ∧
   operator_lt lhs rhs = Ok (type_value (type lhs) <? type_value (type rhs))).
Proof.
  split; [ | split; [ | split]].
  - unfold operator_eq. destruct lhs, rhs; cbn; eauto.
  - intros e. unfold operator_ne.
    destruct lhs, rhs; cbn; split; try discriminate;
      try (intros (_ & ? & ?); discriminate); try (intros [= <-]; auto);
      intros (-> & _ & _); reflexivity.
  - intros e. unfold operator_lt.
    destruct lhs, rhs; cbn; split; try discriminate;
      try (intros (_ & ? & ?); discriminate); try (intros [= <-]; auto);
      intros (-> & _ & _); reflexivity.
  - intros Hne. unfold operator_eq, operator_ne, operator_lt.
    rewrite !bool_decide_eq_true_2 by exact Hne. auto.
Qed.

End Throws.

End VariantFacts.

(** ** Event handles *)

Module HandleFacts.

Import Handle.

Lemma move_primary (aOther src new : event_handle) (s s' : store) :
  event_handle_move aOther s = Ok (s', src, new) →
  primary src = false ∧ primary new = false ∧
  iControl src = iControl aOther ∧ iControl new = iControl aOther.
Proof.
  unfold event_handle_move, bind.
  destruct (add_ref_if_controlled _ s); [ | discriminate].
  intros [= _ <- <-]. repeat split.
Qed.

Lemma destroy_non_primary (h : event_handle) (s : store) (p : nat) (c : event_control) :
  primary h = false → iControl h = Some p → controls s !! p = Some c → valid c = true →
  ∃ s', event_handle_destroy h s = Ok (s', false) ∧ resets s' = resets s.
Proof.
  intros Hp Hc Hl Hv. unfold event_handle_destroy.
  rewrite Hc, Hl, Hv, Hp. simpl.
  unfold control_release. rewrite Hl. simpl. eauto.
Qed.

(** C10.  After [event_handle(event_handle&&)] neither the moved-from
    handle nor the new one is primary, whatever the source was; and the
    destructor of either, run while their control block is valid, does not
    take the branch with [iRef.reset()]: it only releases the control
    block, and no cookie reference is given back. *)
Theorem move_leaves_no_primary (aOther src new : event_handle) (s s' : store) :
  event_handle_move aOther s = Ok (s', src, new) →
  primary src = false ∧ primary new = false ∧
  ∀ (h : event_handle) (s2 : store) (p : nat) (c : event_control),
    h = src ∨ h = new →
    iControl h = Some p → controls s2 !! p = Some c → valid c = true →
    ∃ s3, event_handle_destroy h s2 = Ok (s3, false) ∧ resets s3 = resets s2.
Proof.
  intros Hm. destruct (move_primary _ _ _ _ _ Hm) as (Hs & Hn & _ & _).
  repeat split; try assumption.
  intros h s2 p c [-> | ->] Hc Hl Hv; eapply destroy_non_primary; eauto.
Qed.

Example primary0_is_new :
  ∃ s, event_handle_new 0 1 store0 = Ok (s, primary0) ∧ primary primary0 = true.
Proof. eexists. split; reflexivity. Qed.

Lemma move_leaves_no_primary_witness :
  ∃ s' src new,
    event_handle_move primary0 store0 = Ok (s', src, new) ∧
    primary src = false ∧ primary new = false ∧
    ∀ (h : event_handle) (s2 : store) (p : nat) (c : event_control),
      h = src ∨ h = new →
      iControl h = Some p → controls s2 !! p = Some c → valid c = true →
      ∃ s3, event_handle_destroy h s2 = Ok (s3, false) ∧ resets s3 = resets s2.
Proof.
  eexists _, _, _. split; [reflexivity | ].
  exact (move_leaves_no_primary primary0 _ _ store0 _ eq_refl).
Defined.

(** The destructor of the primary handle itself does take that branch. *)
Example destroy_primary_resets :
  ∃ s', event_handle_destroy primary0 store0 = Ok (s', true) ∧
        resets s' = [iRef primary0].
Proof. eexists. split; reflexivity. Qed.

(** *** Reference counting *)

Lemma refs_app p hs1 hs2 : refs p (hs1 ++ hs2) = (refs p hs1 + refs p hs2)%nat.
Proof. unfold refs. rewrite filter_app, length_app. reflexivity. Qed.

Lemma refs_cons p h hs :
  refs p (h :: hs) = ((if decide (iControl h = Some p) then 1 else 0) + refs p hs)%nat.
Proof. unfold refs. rewrite filter_cons. destruct (decide _); reflexivity. Qed.

Lemma refs_nil p : refs p [] = 0%nat.
Proof. reflexivity. Qed.

Lemma refs_split p hs i h :
  hs !! i = Some h →
  refs p hs = (refs p (take i hs) + (if decide (iControl h = Some p) then 1 else 0)
               + refs p (drop (S i) hs))%nat.
Proof.
  intros Hi. rewrite <- (take_drop_middle hs i h Hi) at 1.
  rewrite refs_app, refs_cons. lia.
Qed.

Lemma refs_insert p hs i h h' :
  hs !! i = Some h →
  (refs p (<[i := h']> hs) + (if decide (iControl h = Some p) then 1 else 0)
   = refs p hs + (if decide (iControl h' = Some p) then 1 else 0))%nat.
Proof.
  intros Hi. rewrite (refs_split p hs i h Hi).
  assert (i < length hs)%nat as Hlt by (eapply lookup_lt_Some; exact Hi).
  rewrite (refs_split p (<[i := h']> hs) i h') by (apply list_lookup_insert_eq; exact Hlt).
  rewrite take_insert_ge, drop_insert_lt by lia. lia.
Qed.

Lemma refs_delete p hs i h :
  hs !! i = Some h →
  (refs p (delete i hs) + (if decide (iControl h = Some p) then 1 else 0) = refs p hs)%nat.
Proof.
  intros Hi. rewrite (refs_split p hs i h Hi).
  rewrite delete_take_drop, refs_app. lia.
Qed.

Lemma refs_le p hs : (refs p hs ≤ length hs)%nat.
Proof. unfold refs. apply length_filter. Qed.

Lemma uint32_small z : 0 ≤ z < 2 ^ 32 → uint32 z = z.
Proof. intros H. unfold uint32. apply Z.mod_small, H. Qed.

(** One more reference to the block at [p] *)
Lemma add_ref_counted s hs hs' p c :
  counted s hs → controls s !! p = Some c →
  Z.of_nat (length hs) + 2 < 2 ^ 32 →
  (∀ q, refs q hs' = (refs q hs + (if decide (q = p) then 1 else 0))%nat) →
  ∃ s', control_add_ref p s = Ok s' ∧ counted s' hs' ∧ resets s' = resets s ∧
        ∀ q c', controls s !! q = Some c' →
                ∃ c'', controls s' !! q = Some c'' ∧ valid c'' = valid c'.
Proof.
  intros Hc Hp Hb Hrefs. unfold control_add_ref. rewrite Hp.
  eexists. split; [reflexivity | ].
  pose proof (Hc p) as Hcp. rewrite Hp in Hcp. destruct Hcp as [Hn Hpos].
  pose proof (refs_le p hs) as Hle.
  assert (uint32 (iRefCount c + 1) = iRefCount c + 1) as Hu.
  { apply uint32_small. destruct (valid c); lia. }
  split; [ | split; [reflexivity | ]].
  - intros q. cbn [controls]. destruct (decide (q = p)) as [-> | Hne].
    + rewrite lookup_insert_eq. rewrite Hu, (Hrefs p). rewrite decide_True by reflexivity.
      unfold valid in *. cbn [iEvent iRefCount]. split; lia.
    + rewrite lookup_insert_ne by auto. specialize (Hc q). rewrite (Hrefs q).
      rewrite decide_False by exact Hne. rewrite Nat.add_0_r. exact Hc.
  - intros q c' Hq. cbn [controls]. destruct (decide (q = p)) as [-> | Hne].
    + rewrite lookup_insert_eq. eexists. split; [reflexivity | ].
      rewrite Hp in Hq. injection Hq as <-. reflexivity.
    + rewrite lookup_insert_ne by auto. eauto.
Qed.

(** One reference to the block at [p] less *)
Lemma release_counted s hs hs' p c :
  counted s hs → controls s !! p = Some c →
  Z.of_nat (length hs) + 2 < 2 ^ 32 →
  (∀ q, (refs q hs' + (if decide (q = p) then 1 else 0))%nat = refs q hs) →
  ∃ s', control_release p s = Ok s' ∧ counted s' hs' ∧ resets s' = resets s.
Proof.
  intros Hc Hp Hb Hrefs. unfold control_release. rewrite Hp.
  eexists. split; [reflexivity | ]. split; [ | reflexivity].
  pose proof (Hc p) as Hcp. rewrite Hp in Hcp. destruct Hcp as [Hn Hpos].
  pose proof (refs_le p hs) as Hle.
  pose proof (Hrefs p) as Hrp. rewrite decide_True in Hrp by reflexivity.
  assert (uint32 (iRefCount c - 1) = iRefCount c - 1) as Hu.
  { apply uint32_small. destruct (valid c); lia. }
  rewrite Hu. intros q. cbn [controls].
  destruct (Z.eqb_spec (iRefCount c - 1) 0) as [Hz | Hnz].
  - destruct (decide (q = p)) as [-> | Hne].
    + rewrite lookup_delete_eq. destruct (valid c); lia.
    + rewrite lookup_delete_ne by auto. specialize (Hc q). specialize (Hrefs q).
      rewrite decide_False in Hrefs by exact Hne. rewrite Nat.add_0_r in Hrefs.
      rewrite Hrefs. exact Hc.
  - destruct (decide (q = p)) as [-> | Hne].
    + rewrite lookup_insert_eq. unfold valid in *. cbn [iEvent iRefCount]. split; lia.
    + rewrite lookup_insert_ne by auto. specialize (Hc q). specialize (Hrefs q).
      rewrite decide_False in Hrefs by exact Hne. rewrite Nat.add_0_r in Hrefs.
      rewrite Hrefs. exact Hc.
Qed.

Lemma counted_ext s hs hs' :
  counted s hs → (∀ q, refs q hs' = refs q hs) → counted s hs'.
Proof. intros Hc He q. rewrite He. apply Hc. Qed.

Lemma counted_resets s hs r :
  counted s hs → counted {| controls := controls s; resets := r |} hs.
Proof. intros Hc q. apply Hc. Qed.

Lemma counted_lookup s hs i h p :
  counted s hs → hs !! i = Some h → iControl h = Some p →
  ∃ c, controls s !! p = Some c.
Proof.
  intros Hc Hi Hp. specialize (Hc p).
  destruct (controls s !! p) as [c | ]; [eauto | ].
  exfalso. rewrite (refs_split p hs i h Hi) in Hc.
  rewrite decide_True in Hc by exact Hp. lia.
Qed.

Lemma decide_control p q :
  (if decide (Some p = Some q :> option nat) then 1 else 0)%nat
  = (if decide (q = p) then 1 else 0)%nat.
Proof. destruct (decide (q = p)) as [-> | H]; [rewrite decide_True | rewrite decide_False]; congruence. Qed.

(** A new handle that refers to what the handle [h] of the list refers
    to: the tail of the copy constructor and of the move constructor *)
Lemma add_ref_if_controlled_counted s hs i h h' hs' :
  counted s hs → hs !! i = Some h → iControl h' = iControl h →
  Z.of_nat (length hs) + 2 < 2 ^ 32 →
  (∀ q, refs q hs' = (refs q hs + (if decide (iControl h = Some q) then 1 else 0))%nat) →
  ∃ s', add_ref_if_controlled h' s = Ok s' ∧ counted s' hs' ∧
        ∀ q c', controls s !! q = Some c' →
                ∃ c'', controls s' !! q = Some c'' ∧ valid c'' = valid c'.
Proof.
  intros Hc Hi Hh Hb Hrefs. unfold add_ref_if_controlled. rewrite Hh.
  destruct (iControl h) as [p | ] eqn:Hp.
  - destruct (counted_lookup s hs i h p Hc Hi Hp) as [c Hcp].
    destruct (add_ref_counted s hs hs' p c Hc Hcp Hb) as (s' & H1 & H2 & _ & H3).
    + intros q. rewrite Hrefs, decide_control. reflexivity.
    + eauto.
  - exists s. split; [reflexivity | ]. split; [ | eauto].
    apply (counted_ext s hs); [exact Hc | ]. intros q. rewrite Hrefs, decide_False by discriminate. lia.
Qed.

(** X15.  The reference counts are kept: when every control block
    counts the handles that refer to it and one more while its event is
    alive, then making a handle, copying one, moving from one, destroying
    one, assigning one to another and destroying the event all go
    through, none reaches a control block that has been freed, and the
    counts are right again afterwards.  So a control block is there as
    long as its event or a handle refers to it, and is freed when the
    last of them lets go. *)
Theorem handles_keep_count (o : op) (s : store) (hs : list event_handle) :
  counted s hs → Z.of_nat (length hs) + 3 < 2 ^ 32 → allowed o s →
  ∃ s' hs', step o (s, hs) = Ok (s', hs') ∧ counted s' hs'.
Proof.
  intros Hc Hb Ha. destruct o as [p aId | i | i | i | i j | p]; cbn [step fst snd].
  - (* New *)
    destruct Ha as (c & Hp & Hv). unfold event_handle_new. rewrite Hp.
    unfold valid in Hv. apply bool_decide_eq_true in Hv.
    destruct (iEvent c) as [e | ] eqn:He; [ | congruence].
    cbn [add_ref_if_controlled iControl].
    destruct (add_ref_counted s hs
                (hs ++ [{| iControl := Some p;
                           iRef := {| consumer := Some e; ref_cookie := aId |};
                           iPrimary := true |}]) p c Hc Hp) as (s' & H1 & H2 & _).
    + lia.
    + intros q. rewrite refs_app, refs_cons, refs_nil. cbn [iControl].
      rewrite decide_control. lia.
    + rewrite H1. cbn [bind fst snd]. eauto.
  - (* Copy *)
    destruct (hs !! i) as [h | ] eqn:Hi; [ | eauto].
    unfold event_handle_copy.
    set (h' := {| iControl := iControl h; iRef := iRef h; iPrimary := false |}).
    destruct (add_ref_if_controlled_counted s hs i h h' (hs ++ [h']) Hc Hi eq_refl)
      as (s' & H1 & H2 & _).
    + lia.
    + intros q. rewrite refs_app, refs_cons, refs_nil. cbn [iControl h']. lia.
    + rewrite H1. cbn [bind fst snd]. eauto.
  - (* Move *)
    destruct (hs !! i) as [h | ] eqn:Hi; [ | eauto].
    unfold event_handle_move.
    set (h' := {| iControl := iControl h; iRef := iRef h; iPrimary := false |}).
    destruct (add_ref_if_controlled_counted s hs i h h' (<[i := h']> hs ++ [h']) Hc Hi eq_refl)
      as (s' & H1 & H2 & _).
    + lia.
    + intros q. rewrite refs_app, refs_cons, refs_nil. cbn [iControl h'].
      pose proof (refs_insert q hs i h h' Hi) as Hins. cbn [iControl h'] in Hins. lia.
    + rewrite H1. cbn [bind fst snd]. eauto.
  - (* Destroy *)
    destruct (hs !! i) as [h | ] eqn:Hi; [ | eauto].
    unfold event_handle_destroy.
    destruct (iControl h) as [p | ] eqn:Hp.
    + destruct (counted_lookup s hs i h p Hc Hi Hp) as [c Hcp]. rewrite Hcp.
      assert (∀ q, (refs q (delete i hs) + (if decide (q = p) then 1 else 0))%nat = refs q hs)
        as Hrefs.
      { intros q. rewrite <- (refs_delete q hs i h Hi), Hp, decide_control. reflexivity. }
      destruct (negb (valid c) || primary h).
      * cbn [ref_reset].
        destruct (release_counted {| controls := controls s; resets := resets s ++ [iRef h] |}
                    hs (delete i hs) p c) as (s' & H1 & H2 & _);
          [apply counted_resets, Hc | exact Hcp | lia | exact Hrefs | ].
        rewrite H1. cbn [bind fst snd]. eauto.
      * destruct (release_counted s hs (delete i hs) p c Hc Hcp) as (s' & H1 & H2 & _);
          [lia | exact Hrefs | ].
        rewrite H1. cbn [bind fst snd]. eauto.
    + cbn [bind fst snd]. eexists _, _. split; [reflexivity | ].
      apply (counted_ext s hs); [exact Hc | ]. intros q.
      pose proof (refs_delete q hs i h Hi) as Hd. rewrite Hp, decide_False in Hd by discriminate. lia.
  - (* Assign *)
    destruct (hs !! i) as [this | ] eqn:Hi; [ | eauto].
    destruct (hs !! j) as [aRhs | ] eqn:Hj; [ | eauto].
    unfold event_handle_assign. destruct (bool_decide (i = j)) eqn:Hij.
    + cbn [bind fst snd]. eexists _, _. split; [reflexivity | ].
      rewrite list_insert_id by exact Hi. exact Hc.
    + set (this1 := {| iControl := iControl aRhs; iRef := iRef this;
                       iPrimary := iPrimary this |}).
      set (this' := {| iControl := iControl this1; iRef := iRef aRhs;
                       iPrimary := iPrimary this1 |}).
      destruct (add_ref_if_controlled_counted s hs j aRhs this1 (hs ++ [this1]) Hc Hj eq_refl)
        as (s1 & H1 & H2 & H3).
      * lia.
      * intros q. rewrite refs_app, refs_cons, refs_nil. cbn [iControl this1]. lia.
      * rewrite H1. cbn [bind].
        pose proof (λ q, refs_insert q hs i this this' Hi) as Hins. cbn [iControl this' this1] in Hins.
        destruct (iControl this) as [po | ] eqn:Hpo.
        -- destruct (counted_lookup s hs i this po Hc Hi Hpo) as [c Hcp].
           destruct (H3 po c Hcp) as (c1 & Hc1 & _).
           destruct (release_counted s1 (hs ++ [this1]) (<[i := this']> hs) po c1 H2 Hc1)
             as (s2 & H4 & H5 & _).
           ++ rewrite length_app. cbn [length]. lia.
           ++ intros q. rewrite refs_app, refs_cons, refs_nil. cbn [iControl this1].
              specialize (Hins q). rewrite decide_control in Hins. lia.
           ++ rewrite H4. cbn [bind fst snd]. eauto.
        -- cbn [bind fst snd]. eexists _, _. split; [reflexivity | ].
           apply (counted_ext s1 (hs ++ [this1])); [exact H2 | ].
           intros q. rewrite refs_app, refs_cons, refs_nil. cbn [iControl this1].
           specialize (Hins q). rewrite (decide_False (P := None = Some q)) in Hins by discriminate. lia.
  - (* EventGone *)
    destruct Ha as (c & Hp & Hv). unfold event_gone, control_reset. rewrite Hp. cbn [bind].
    unfold control_release. cbn [controls]. rewrite lookup_insert_eq. cbn [iRefCount iEvent resets].
    eexists _, _. split; [reflexivity | ].
    pose proof (Hc p) as Hcp. rewrite Hp, Hv in Hcp. destruct Hcp as [Hn Hpos].
    pose proof (refs_le p hs) as Hle.
    rewrite uint32_small by lia.
    intros q. cbn [controls].
    destruct (Z.eqb_spec (iRefCount c - 1) 0) as [Hz | Hnz].
    + destruct (decide (q = p)) as [-> | Hne].
      * rewrite lookup_delete_eq. lia.
      * rewrite lookup_delete_ne, lookup_insert_ne by auto. apply Hc.
    + rewrite insert_insert_eq. destruct (decide (q = p)) as [-> | Hne].
      * rewrite lookup_insert_eq. unfold valid. cbn [iEvent iRefCount].
        rewrite bool_decide_eq_false_2 by (intros H; apply H; reflexivity). lia.
      * rewrite lookup_insert_ne by auto. apply Hc.
Qed.

Lemma counted_store0 : counted store0 [].
Proof.
  intros p. unfold store0. cbn [controls].
  destruct (decide (p = 0%nat)) as [-> | Hne].
  - rewrite lookup_singleton_eq. cbn. split; reflexivity.
  - rewrite lookup_singleton_ne by auto. reflexivity.
Defined.

Lemma handles_keep_count_witness :
  ∃ s' hs', step (New 0 1) (store0, []) = Ok (s', hs') ∧ counted s' hs'.
Proof.
  apply (handles_keep_count (New 0 1) store0 [] counted_store0).
  - cbn. lia.
  - eexists. split; reflexivity.
Defined.

End HandleFacts.

(** ** The thread pool *)

Module PoolFacts.

Import Pool.

Local Open Scope nat_scope.

(** *** Queues in priority order *)

Lemma sorted_lookup (q : task_queue) (i j : nat) (a b : task_queue_entry) :
  queue_sorted q → i ≤ j → q !! i = Some a → q !! j = Some b → (b.2 ≤ a.2)%Z.
Proof.
  intros Hs Hij Ha Hb.
  destruct (decide (i = j)) as [-> | Hne].
  - rewrite Ha in Hb. injection Hb as ->. lia.
  - unfold queue_sorted in Hs. rewrite <- (take_drop (S i) q) in Hs.
    eapply (StronglySorted_app_1_elem_of _ _ _ a b) in Hs; [exact Hs | | ].
    + apply list_elem_of_lookup. exists i. rewrite lookup_take_lt by lia. exact Ha.
    + apply list_elem_of_lookup. exists (j - S i). rewrite lookup_drop.
      replace (S i + (j - S i)) with j by lia. exact Hb.
Qed.

Lemma upper_bound_loop_spec (fuel : nat) (q : task_queue) (v : task_queue_entry)
    (first count : nat) :
  queue_sorted q → count ≤ fuel → first + count ≤ length q →
  (∀ i a, i < first → q !! i = Some a → comp v a = false) →
  (∀ i a, first + count ≤ i → q !! i = Some a → comp v a = true) →
  let k := upper_bound_loop fuel q v first count in
  k ≤ length q ∧
  (∀ i a, i < k → q !! i = Some a → comp v a = false) ∧
  (∀ i a, k ≤ i → q !! i = Some a → comp v a = true).
Proof.
  intros Hs. revert first count.
  induction fuel as [ | fuel IH]; intros first count Hf Hlen Hlo Hhi; cbn [upper_bound_loop].
  - assert (count = 0) as -> by lia. rewrite Nat.add_0_r in Hhi. split; [lia | eauto].
  - destruct (Nat.eqb_spec count 0) as [-> | Hc].
    + rewrite Nat.add_0_r in Hhi. split; [lia | eauto].
    + assert (count / 2 < count) as Hstep by (apply Nat.div_lt; lia).
      destruct (lookup_lt_is_Some_2 q (first + count / 2)) as [e He]; [lia | ].
      rewrite He.
      destruct (comp v e) eqn:Hcmp; cbn [negb].
      * apply IH; try lia.
        -- exact Hlo.
        -- intros i a Hi Ha. unfold comp in *.
           pose proof (sorted_lookup q _ _ _ _ Hs Hi He Ha). lia.
      * apply IH; try lia.
        -- intros i a Hi Ha. unfold comp in *.
           assert (i ≤ first + count / 2) as Hi' by lia.
           pose proof (sorted_lookup q _ _ _ _ Hs Hi' Ha He). lia.
        -- intros i a Hi Ha. apply (Hhi i a); [lia | exact Ha].
Qed.


Lemma add_position (q : task_queue) (aPriority : Z) :
  queue_sorted q →
  let k := upper_bound q (None, aPriority) in
  k ≤ length q ∧
  Forall (λ e : task_queue_entry, (aPriority ≤ e.2)%Z) (take k q) ∧
  Forall (λ e : task_queue_entry, (e.2 < aPriority)%Z) (drop k q).
Proof.
  intros Hs k.
  destruct (upper_bound_loop_spec (length q) q (None, aPriority) 0 (length q))
    as (Hk & Hlo & Hhi); try assumption; try lia.
  - intros i a Hi Ha. apply lookup_lt_Some in Ha. lia.
  - fold (upper_bound q (None, aPriority)) in Hk, Hlo, Hhi. fold k in Hk, Hlo, Hhi.
    split; [exact Hk | split].
    + apply Forall_lookup. intros i a Ha.
      apply lookup_take_Some in Ha as [Ha Hi].
      specialize (Hlo i a Hi Ha). unfold comp in Hlo. simpl in Hlo. lia.
    + apply Forall_lookup. intros i a Ha. rewrite lookup_drop in Ha.
      specialize (Hhi (k + i) a ltac:(lia) Ha). unfold comp in Hhi. simpl in Hhi. lia.
Qed.

Lemma sorted_take (q : task_queue) (k : nat) : queue_sorted q → queue_sorted (take k q).
Proof.
  unfold queue_sorted. intros Hs. rewrite <- (take_drop k q) in Hs.
  eapply StronglySorted_app_1_l. exact Hs.
Qed.

Lemma sorted_drop (q : task_queue) (k : nat) : queue_sorted q → queue_sorted (drop k q).
Proof.
  unfold queue_sorted. intros Hs. rewrite <- (take_drop k q) in Hs.
  eapply StronglySorted_app_1_r. exact Hs.
Qed.

Lemma emplace_sorted (q : task_queue) (aTask : task_pointer) (aPriority : Z) :
  queue_sorted q →
  queue_sorted (emplace (upper_bound q (None, aPriority)) (aTask, aPriority) q).
Proof.
  intros Hs. destruct (add_position q aPriority Hs) as (_ & Hb & Ha).
  unfold emplace, queue_sorted. apply StronglySorted_app_2.
  - intros x1 x2 H1 H2. apply elem_of_cons in H2 as [-> | H2].
    + rewrite Forall_forall in Hb. simpl. apply Hb, H1.
    + rewrite Forall_forall in Hb, Ha. specialize (Hb _ H1). specialize (Ha _ H2). lia.
  - apply sorted_take, Hs.
  - apply StronglySorted_cons. split.
    + eapply Forall_impl; [exact Ha | ]. simpl. intros; lia.
    + apply sorted_drop, Hs.
Qed.

Lemma sorted_tail (e : task_queue_entry) (q : task_queue) :
  queue_sorted (e :: q) → queue_sorted q.
Proof. unfold queue_sorted. rewrite StronglySorted_cons. tauto. Qed.

Lemma sorted_front_max (e b : task_queue_entry) (q : task_queue) :
  queue_sorted (e :: q) → b ∈ e :: q → (b.2 ≤ e.2)%Z.
Proof.
  unfold queue_sorted. rewrite StronglySorted_cons, Forall_forall. intros [Hf _] Hb.
  apply elem_of_cons in Hb as [-> | Hb]; [lia | exact (Hf _ Hb)].
Qed.

(** *** Workers of a pool *)
Lemma thread_at_with_thread_eq (p : thread_pool) (i : nat) f :
  i < length (iThreads p) → thread_at (with_thread p i f) i = f (thread_at p i).
Proof.
  intros Hi. unfold thread_at, with_thread. simpl.
  rewrite list_lookup_alter_eq.
  destruct (lookup_lt_is_Some_2 _ _ Hi) as [t Ht]. rewrite Ht. reflexivity.
Qed.

Lemma thread_at_with_thread_ne (p : thread_pool) (i j : nat) f :
  i ≠ j → thread_at (with_thread p i f) j = thread_at p j.
Proof.
  intros Hne. unfold thread_at, with_thread. simpl.
  rewrite list_lookup_alter_ne by exact Hne. reflexivity.
Qed.

Lemma length_with_thread (p : thread_pool) (i : nat) f :
  length (iThreads (with_thread p i f)) = length (iThreads p).
Proof. apply length_alter. Qed.

Lemma thread_at_sorted (p : thread_pool) (i : nat) :
  pool_sorted p → queue_sorted (iWaitingTasks (thread_at p i)).
Proof.
  intros Hs. unfold thread_at. destruct (iThreads p !! i) as [t | ] eqn:Ht; simpl.
  - exact (Forall_lookup_1 _ _ _ _ Hs Ht).
  - constructor.
Qed.

Lemma with_thread_sorted (p : thread_pool) (i : nat) f :
  pool_sorted p →
  queue_sorted (iWaitingTasks (f (thread_at p i))) →
  pool_sorted (with_thread p i f).
Proof.
  unfold pool_sorted, with_thread, thread_at. simpl. intros Hs Hf.
  apply Forall_lookup. intros j t Ht.
  destruct (decide (i = j)) as [<- | Hne].
  - rewrite list_lookup_alter_eq in Ht.
    destruct (iThreads p !! i) as [t0 | ]; simpl in *; [ | discriminate].
    injection Ht as <-. exact Hf.
  - rewrite list_lookup_alter_ne in Ht by exact Hne.
    exact (Forall_lookup_1 _ _ _ _ Hs Ht).
Qed.


Lemma keeps_refl p : keeps p p.
Proof. split; [tauto | reflexivity]. Qed.

Lemma keeps_trans p1 p2 p3 : keeps p1 p2 → keeps p2 p3 → keeps p1 p3.
Proof. intros [H1 L1] [H2 L2]. split; [tauto | congruence]. Qed.

Lemma keeps_update_idle p : keeps p (update_idle p).
Proof. split; [tauto | reflexivity]. Qed.

Lemma keeps_with_thread p i f :
  (pool_sorted p → queue_sorted (iWaitingTasks (f (thread_at p i)))) →
  keeps p (with_thread p i f).
Proof.
  intros Hf. split; [ | apply length_with_thread].
  intros Hs. apply with_thread_sorted; auto.
Qed.

Section Bodies.

Context (next : thread_pool → nat → result thread_pool).
Context (next_keeps : ∀ p i p', next p i = Ok p' → keeps p p').

Lemma add_body_keeps p i aTask aPriority p' :
  add_body next p i aTask aPriority = Ok p' → keeps p p'.
Proof.
  unfold add_body. intros H.
  assert (keeps p (with_thread p i
            (λ t, set_queue (emplace (upper_bound (iWaitingTasks (thread_at p i))
                                        (None, aPriority)) (aTask, aPriority)
                               (iWaitingTasks t)) t))) as Hk.
  { apply keeps_with_thread. intros Hs. simpl.
    apply emplace_sorted, thread_at_sorted, Hs. }
  destruct (negb _).
  - eapply keeps_trans; [exact Hk | eapply next_keeps; exact H].
  - injection H as <-. exact Hk.
Qed.

Lemma thread_steal_work_body_keeps p victim idle_ p' b :
  thread_steal_work_body (add_body next) p victim idle_ = Ok (p', b) → keeps p p'.
Proof.
  unfold thread_steal_work_body.
  destruct (iWaitingTasks (thread_at p victim)) as [ | newTask rest] eqn:Hq.
  - intros [= <- <-]. apply keeps_refl.
  - unfold bind. destruct (add_body _ _ _ _ _) as [p1 | | ] eqn:Ha; try discriminate.
    intros [= <- <-]. eapply keeps_trans; [ | eapply add_body_keeps; exact Ha].
    apply keeps_with_thread. intros Hs. simpl.
    pose proof (thread_at_sorted p victim Hs) as Hv. rewrite Hq in Hv.
    exact (sorted_tail _ _ Hv).
Qed.

Lemma steal_scan_keeps idle_ js p p' :
  steal_scan (thread_steal_work_body (add_body next)) idle_ js p = Ok p' → keeps p p'.
Proof.
  revert p. induction js as [ | j js IH]; intros p; simpl.
  - intros [= <-]. apply keeps_refl.
  - destruct (j =? idle_); [apply IH | ].
    destruct (thread_steal_work_body _ p j idle_) as [[p1 [ | ]] | | ] eqn:Ht;
      try discriminate.
    + intros [= <-]. eapply thread_steal_work_body_keeps; exact Ht.
    + intros H. eapply keeps_trans; [eapply thread_steal_work_body_keeps; exact Ht | ].
      apply IH, H.
Qed.

Lemma pool_steal_work_body_keeps p idle_ p' :
  pool_steal_work_body (thread_steal_work_body (add_body next)) p idle_ = Ok p' →
  keeps p p'.
Proof.
  unfold pool_steal_work_body. destruct (iThreads p); [discriminate | ].
  apply steal_scan_keeps.
Qed.

End Bodies.

Lemma next_task_body_keeps steal p i p' :
  (∀ p i p', steal p i = Ok p' → keeps p p') →
  next_task_body steal p i = Ok p' → keeps p p'.
Proof.
  intros Hsteal. unfold next_task_body.
  destruct (active (thread_at p i)); [discriminate | ].
  unfold bind.
  destruct (match iWaitingTasks (thread_at p i) with [] => steal p i | _ :: _ => Ok p end)
    as [p1 | | ] eqn:H1; try discriminate.
  assert (keeps p p1) as Hk1.
  { destruct (iWaitingTasks (thread_at p i)); [eapply Hsteal; exact H1 | ].
    injection H1 as <-. apply keeps_refl. }
  destruct (iWaitingTasks (thread_at p1 i)) as [ | front rest] eqn:Hq; intros [= <-].
  - eapply keeps_trans; [exact Hk1 | apply keeps_update_idle].
  - eapply keeps_trans; [exact Hk1 | ].
    eapply keeps_trans; [ | apply keeps_update_idle].
    apply keeps_with_thread. intros Hs. simpl.
    pose proof (thread_at_sorted p1 i Hs) as Hv. rewrite Hq in Hv.
    exact (sorted_tail _ _ Hv).
Qed.

Lemma next_task_keeps fuel p i p' : next_task fuel p i = Ok p' → keeps p p'.
Proof.
  revert p i p'. induction fuel as [ | fuel IH]; intros p i p'; simpl; [discriminate | ].
  apply next_task_body_keeps. intros q j q'.
  apply pool_steal_work_body_keeps. exact IH.
Qed.

Lemma add_keeps fuel p i aTask aPriority p' :
  add fuel p i aTask aPriority = Ok p' → keeps p p'.
Proof. apply add_body_keeps. intros q j q'. apply next_task_keeps. Qed.

Lemma pool_steal_work_keeps fuel p i p' :
  pool_steal_work fuel p i = Ok p' → keeps p p'.
Proof. apply pool_steal_work_body_keeps. intros q j q'. apply next_task_keeps. Qed.

Lemma release_keeps p i p' : release p i = Ok p' → keeps p p'.
Proof.
  unfold release. destruct (iActiveTask (thread_at p i)); [ | discriminate].
  intros [= <-]. apply keeps_with_thread. intros Hs. simpl.
  apply thread_at_sorted, Hs.
Qed.

Lemma start_keeps fuel p aTask aPriority p' :
  start fuel p aTask aPriority = Ok p' → keeps p p'.
Proof.
  unfold start. destruct (stopped p); [intros [= <-]; apply keeps_refl | ].
  destruct (iThreads p); [discriminate | ].
  destruct (start_scan _ _); apply add_keeps.
Qed.


Lemma next_task_body_promotes steal p i front rest :
  active (thread_at p i) = false →
  iWaitingTasks (thread_at p i) = front :: rest →
  next_task_body steal p i
  = Ok (thread_gone_busy (with_thread p i (λ t, set_queue rest (set_active front.1 t)))).
Proof.
  intros Ha Hq. unfold next_task_body. rewrite Ha, Hq. simpl. rewrite Hq. reflexivity.
Qed.

Lemma next_task_promotes fuel p i front rest :
  active (thread_at p i) = false →
  iWaitingTasks (thread_at p i) = front :: rest →
  next_task (S fuel) p i
  = Ok (thread_gone_busy (with_thread p i (λ t, set_queue rest (set_active front.1 t)))).
Proof. intros Ha Hq. simpl. apply next_task_body_promotes; assumption. Qed.

Lemma emplace_not_nil k e q : emplace k e q ≠ [].
Proof. unfold emplace. destruct (take k q); discriminate. Qed.

Lemma elem_of_emplace k e q : e ∈ emplace k e q.
Proof. unfold emplace. apply elem_of_app. right. apply elem_of_cons. left. reflexivity. Qed.

(** What [add] comes to on a worker that is active, and on one that is not *)
Lemma add_active fuel p i aTask aPriority :
  active (thread_at p i) = true → i < length (iThreads p) →
  add fuel p i aTask aPriority
  = Ok (with_thread p i
          (λ t, set_queue (emplace (upper_bound (iWaitingTasks (thread_at p i))
                                      (None, aPriority)) (aTask, aPriority)
                             (iWaitingTasks t)) t)).
Proof.
  intros Ha Hi. unfold add, add_body.
  rewrite thread_at_with_thread_eq by exact Hi.
  unfold active in *. simpl. rewrite Ha. reflexivity.
Qed.

Lemma thread_at_update_idle p i : thread_at (update_idle p) i = thread_at p i.
Proof. reflexivity. Qed.

Lemma add_inactive fuel p i aTask aPriority front rest :
  active (thread_at p i) = false → i < length (iThreads p) →
  emplace (upper_bound (iWaitingTasks (thread_at p i)) (None, aPriority))
    (aTask, aPriority) (iWaitingTasks (thread_at p i)) = front :: rest →
  ∃ p', add (S fuel) p i aTask aPriority = Ok p' ∧
        iWaitingTasks (thread_at p' i) = rest ∧
        iActiveTask (thread_at p' i) = front.1 ∧
        ∀ j, j ≠ i → thread_at p' j = thread_at p j.
Proof.
  intros Ha Hi Hq'.
  unfold add, add_body.
  rewrite thread_at_with_thread_eq by exact Hi.
  replace (active (set_queue _ (thread_at p i))) with false by (symmetry; exact Ha).
  cbn [negb].
  rewrite (next_task_promotes fuel _ i front rest).
  - eexists. split; [reflexivity | ].
    unfold thread_gone_busy. rewrite !thread_at_update_idle.
    rewrite thread_at_with_thread_eq by (rewrite length_with_thread; exact Hi).
    repeat split.
    intros j Hj. rewrite thread_at_update_idle, !thread_at_with_thread_ne by auto.
    reflexivity.
  - rewrite thread_at_with_thread_eq by exact Hi. exact Ha.
  - rewrite thread_at_with_thread_eq by exact Hi. exact Hq'.
Qed.

Lemma add_total fuel p i aTask aPriority :
  i < length (iThreads p) → ∃ p', add (S fuel) p i aTask aPriority = Ok p'.
Proof.
  intros Hi. destruct (active (thread_at p i)) eqn:Ha.
  - rewrite add_active by assumption. eauto.
  - destruct (emplace (upper_bound (iWaitingTasks (thread_at p i)) (None, aPriority))
                (aTask, aPriority) (iWaitingTasks (thread_at p i)))
      as [ | front rest] eqn:Hq; [exfalso; eapply emplace_not_nil; exact Hq | ].
    destruct (add_inactive fuel p i aTask aPriority front rest Ha Hi Hq) as (p' & H & _).
    eauto.
Qed.

(** The task handed to [add] ends up in the queue of the worker or as
    its active task. *)
Lemma add_enqueues fuel p i aTask aPriority :
  i < length (iThreads p) →
  ∃ p', add (S fuel) p i aTask aPriority = Ok p' ∧
        ((aTask, aPriority) ∈ iWaitingTasks (thread_at p' i) ∨
         iActiveTask (thread_at p' i) = aTask).
Proof.
  intros Hi. destruct (active (thread_at p i)) eqn:Ha.
  - rewrite add_active by assumption. eexists. split; [reflexivity | ].
    left. rewrite thread_at_with_thread_eq by exact Hi. simpl. apply elem_of_emplace.
  - destruct (emplace (upper_bound (iWaitingTasks (thread_at p i)) (None, aPriority))
                (aTask, aPriority) (iWaitingTasks (thread_at p i)))
      as [ | front rest] eqn:Hq; [exfalso; eapply emplace_not_nil; exact Hq | ].
    destruct (add_inactive fuel p i aTask aPriority front rest Ha Hi Hq)
      as (p' & H & Hr & Hf & _).
    exists p'. split; [exact H | ].
    pose proof (elem_of_emplace (upper_bound (iWaitingTasks (thread_at p i)) (None, aPriority))
                  (aTask, aPriority) (iWaitingTasks (thread_at p i))) as Hin.
    rewrite Hq in Hin. apply elem_of_cons in Hin as [<- | Hin].
    + right. exact Hf.
    + left. rewrite Hr. exact Hin.
Qed.

Lemma thread_steal_work_total fuel p victim i :
  i < length (iThreads p) →
  ∃ p' b, thread_steal_work (S fuel) p victim i = Ok (p', b).
Proof.
  intros Hi. unfold thread_steal_work, thread_steal_work_body.
  destruct (iWaitingTasks (thread_at p victim)) as [ | newTask rest]; [eauto | ].
  destruct (add_total fuel (with_thread p victim (set_queue rest)) i newTask.1 newTask.2)
    as [p' Hp']; [rewrite length_with_thread; exact Hi | ].
  rewrite Hp'. simpl. eauto.
Qed.

Lemma steal_scan_total fuel i js p :
  i < length (iThreads p) →
  ∃ p', steal_scan (thread_steal_work (S fuel)) i js p = Ok p'.
Proof.
  revert p. induction js as [ | j js IH]; intros p Hi; simpl; [eauto | ].
  destruct (j =? i); [apply IH, Hi | ].
  destruct (thread_steal_work_total fuel p j i Hi) as (p1 & b & H1).
  rewrite H1. destruct b; [eauto | ].
  apply IH.
  apply (thread_steal_work_body_keeps (next_task (S fuel))) in H1 as [_ Hl];
    [lia | intros q k q'; apply next_task_keeps].
Qed.

Lemma pool_steal_work_total fuel i p :
  i < length (iThreads p) → ∃ p', pool_steal_work (S fuel) p i = Ok p'.
Proof.
  intros Hi. unfold pool_steal_work, pool_steal_work_body.
  destruct (iThreads p) eqn:Ht; [simpl in Hi; lia | ].
  rewrite <- Ht in Hi |- *. apply steal_scan_total, Hi.
Qed.

Lemma next_task_total fuel p i :
  i < length (iThreads p) → active (thread_at p i) = false →
  ∃ p', next_task (S (S fuel)) p i = Ok p'.
Proof.
  intros Hi Ha.
  change (next_task (S (S fuel)) p i)
    with (next_task_body (pool_steal_work (S fuel)) p i).
  unfold next_task_body. rewrite Ha.
  destruct (iWaitingTasks (thread_at p i)) as [ | front rest] eqn:Hq.
  - destruct (pool_steal_work_total fuel i p Hi) as [p1 H1]. rewrite H1. simpl.
    destruct (iWaitingTasks (thread_at p1 i)); eauto.
  - simpl. rewrite Hq. eauto.
Qed.


(** C4.  [add] puts the new entry behind every queued entry of the same
    or a higher priority and in front of every entry of a lower one, so
    the queue stays in non-increasing order of priority and entries of
    equal priority keep their order of arrival; a worker that is not
    active then takes the front of the queue at once.  And [next_task]
    always promotes the front: with [A] and [B] both queued and [A] of
    the higher priority, the entry promoted has at least the priority of
    [A], and [B] is still queued afterwards. *)
Theorem priority_order (fuel : nat) (p : thread_pool) (i : nat)
    (aTask : task_pointer) (aPriority : Z) :
  i < length (iThreads p) →
  pool_sorted p →
  let q := iWaitingTasks (thread_at p i) in
  let where_ := upper_bound q (None, aPriority) in
  let q' := emplace where_ (aTask, aPriority) q in
  (Forall (λ e : task_queue_entry, (aPriority ≤ e.2)%Z) (take where_ q) ∧
   Forall (λ e : task_queue_entry, (e.2 < aPriority)%Z) (drop where_ q) ∧
   queue_sorted q' ∧
   ∃ p', add (S fuel) p i aTask aPriority = Ok p' ∧ pool_sorted p' ∧
         if active (thread_at p i)
         then iWaitingTasks (thread_at p' i) = q' ∧
              iActiveTask (thread_at p' i) = iActiveTask (thread_at p i)
         else ∃ front rest, q' = front :: rest ∧
                iActiveTask (thread_at p' i) = front.1 ∧
                iWaitingTasks (thread_at p' i) = rest) ∧
  (∀ (front A B : task_queue_entry) (rest : task_queue),
     active (thread_at p i) = false →
     q = front :: rest → A ∈ q → B ∈ q → (B.2 < A.2)%Z →
     ∃ p', next_task (S fuel) p i = Ok p' ∧
           iActiveTask (thread_at p' i) = front.1 ∧
           iWaitingTasks (thread_at p' i) = rest ∧
           (A.2 ≤ front.2)%Z ∧ (B.2 < front.2)%Z ∧ B ∈ rest).
Proof.
  intros Hi Hs q where_ q'.
  pose proof (thread_at_sorted p i Hs) as Hq. fold q in Hq.
  destruct (add_position q aPriority Hq) as (_ & Hbefore & Hafter).
  split; [split; [exact Hbefore | split; [exact Hafter | split]] | ].
  - apply emplace_sorted, Hq.
  - destruct (active (thread_at p i)) eqn:Ha.
    + rewrite add_active by assumption. eexists. split; [reflexivity | ].
      split.
      * apply with_thread_sorted; [exact Hs | ]. simpl. apply emplace_sorted, Hq.
      * rewrite thread_at_with_thread_eq by exact Hi. split; reflexivity.
    + destruct q' as [ | front rest] eqn:Hq';
        [exfalso; eapply emplace_not_nil; exact Hq' | ].
      destruct (add_inactive fuel p i aTask aPriority front rest Ha Hi Hq')
        as (p' & H & Hr & Hf & _).
      exists p'. split; [exact H | ]. split.
      * apply add_keeps in H as [H _]. apply H, Hs.
      * exists front, rest. repeat split; assumption.
  - intros front A B rest Ha Hfr HA HB Hlt.
    rewrite (next_task_promotes fuel p i front rest Ha Hfr).
    eexists. split; [reflexivity | ].
    unfold thread_gone_busy. rewrite thread_at_update_idle.
    rewrite thread_at_with_thread_eq by exact Hi. simpl.
    rewrite Hfr in Hq, HA, HB.
    pose proof (sorted_front_max front A rest Hq HA) as HAf.
    repeat split; try lia.
    apply elem_of_cons in HB as [-> | HB]; [lia | exact HB].
Qed.


(** *** [start] *)
Lemma start_scan_found (ts : list thread_pool_thread) (base j : nat) (t : thread_pool_thread) :
  ts !! j = Some t → active t = false →
  (∀ k tk, k < j → ts !! k = Some tk → active tk = true) →
  start_scan ts base = Some (base + j).
Proof.
  revert base j. induction ts as [ | t0 ts IH]; intros base j Hj Ha Hbefore; [discriminate | ].
  destruct j as [ | j]; simpl in *.
  - injection Hj as ->. rewrite Ha. simpl. f_equal. lia.
  - rewrite (Hbefore 0 t0) by (reflexivity || lia). simpl.
    rewrite (IH (S base) j Hj Ha); [f_equal; lia | ].
    intros k tk Hk Htk. apply (Hbefore (S k) tk); [lia | exact Htk].
Qed.

Lemma start_scan_none (ts : list thread_pool_thread) (base : nat) :
  (∀ k tk, ts !! k = Some tk → active tk = true) → start_scan ts base = None.
Proof.
  revert base. induction ts as [ | t0 ts IH]; intros base Hall; [reflexivity | ].
  simpl. rewrite (Hall 0 t0) by reflexivity. simpl. apply IH.
  intros k tk Htk. exact (Hall (S k) tk Htk).
Qed.

(** C5.  [start] returns at once when the pool is stopped; otherwise it
    throws [no_threads] when there is no worker; otherwise it calls [add]
    on the first worker, in the order of creation, that is not active, or
    on worker 0 when all are active; and [add] leaves the task in the
    queue of that worker or makes it its active task. *)
Theorem start_dispatch (fuel : nat) (p : thread_pool) (aTask : task_pointer) (aPriority : Z) :
  (stopped p = true → start fuel p aTask aPriority = Ok p) ∧
  (stopped p = false → iThreads p = [] →
   start fuel p aTask aPriority = Throw no_threads) ∧
  (stopped p = false →
   ∀ j t, iThreads p !! j = Some t → active t = false →
          (∀ k tk, k < j → iThreads p !! k = Some tk → active tk = true) →
          start fuel p aTask aPriority = add fuel p j aTask aPriority) ∧
  (stopped p = false → iThreads p ≠ [] →
   (∀ k tk, iThreads p !! k = Some tk → active tk = true) →
   start fuel p aTask aPriority = add fuel p 0 aTask aPriority) ∧
  (∀ j, j < length (iThreads p) →
        ∃ p', add (S fuel) p j aTask aPriority = Ok p' ∧
              ((aTask, aPriority) ∈ iWaitingTasks (thread_at p' j) ∨
               iActiveTask (thread_at p' j) = aTask)).
Proof.
  unfold start. repeat split.
  - intros ->. reflexivity.
  - intros -> ->. reflexivity.
  - intros -> j t Hj Ha Hbefore.
    destruct (iThreads p) as [ | t0 ts] eqn:Hts; [discriminate | ].
    rewrite (start_scan_found (t0 :: ts) 0 j t Hj Ha Hbefore). reflexivity.
  - intros -> Hne Hall.
    destruct (iThreads p) as [ | t0 ts] eqn:Hts; [congruence | ].
    rewrite (start_scan_none (t0 :: ts) 0 Hall). reflexivity.
  - intros j Hj. apply add_enqueues, Hj.
Qed.

(** *** [reserve] *)
Lemma reserve_loop_spec (fuel : nat) (p : thread_pool) :
  iMaxThreads p - length (iThreads p) < fuel →
  reserve_loop fuel p
  = Ok {| iThreads := iThreads p ++ replicate (iMaxThreads p - length (iThreads p)) new_thread;
          iMaxThreads := iMaxThreads p;
          pool_iStopped := pool_iStopped p;
          iIdle := iIdle p |}.
Proof.
  revert p. induction fuel as [ | fuel IH]; intros p Hf; [lia | ]. simpl.
  destruct (Nat.ltb_spec (length (iThreads p)) (iMaxThreads p)) as [Hlt | Hge].
  - rewrite IH by (simpl; rewrite length_app; simpl; lia). simpl.
    rewrite length_app. simpl. f_equal.
    replace (iMaxThreads p - length (iThreads p))
      with (S (iMaxThreads p - (length (iThreads p) + 1))) by lia.
    simpl. rewrite <- app_assoc. reflexivity.
  - replace (iMaxThreads p - length (iThreads p)) with 0 by lia.
    simpl. rewrite app_nil_r. destruct p; reflexivity.
Qed.

Lemma reserve_spec (n : nat) (p : thread_pool) :
  reserve (S n) n p
  = Ok {| iThreads := iThreads p ++ replicate (n - length (iThreads p)) new_thread;
          iMaxThreads := n;
          pool_iStopped := pool_iStopped p;
          iIdle := iIdle p |}.
Proof. unfold reserve. rewrite reserve_loop_spec by (simpl; lia). reflexivity. Qed.

Lemma reserve_sorted (n : nat) (p p' : thread_pool) :
  reserve (S n) n p = Ok p' → pool_sorted p → pool_sorted p'.
Proof.
  rewrite reserve_spec. intros [= <-] Hs. unfold pool_sorted in *. cbn [iThreads].
  apply Forall_app. split; [exact Hs | ].
  apply Forall_replicate. constructor.
Qed.

(** X1.  The queue of every worker of every pool that comes about, by
    [reserve], [start] and the turns of the workers from a new pool, is
    in non-increasing order of priority. *)
Lemma reachable_sorted (p : thread_pool) : reachable p → pool_sorted p.
Proof.
  induction 1 as [ | p p' n _ IH Hr | p p' fuel t pr _ IH Hs | p p1 p2 fuel i _ IH Hr Hn].
  - constructor.
  - exact (reserve_sorted n p p' Hr IH).
  - apply start_keeps in Hs as [Hs _]. exact (Hs IH).
  - apply release_keeps in Hr as [Hr _]. apply next_task_keeps in Hn as [Hn _]. auto.
Qed.

(** C8, amended.  Whatever the sequence of [reserve] calls, the workers
    there were are all kept, so their number never shrinks, and there are
    at least as many workers as the largest value asked for; and
    [max_threads()] is the value of the last call, whether that is more or
    less than before. *)
Theorem reserve_all_grows_workers (ns : list nat) (p : thread_pool) :
  ∃ p', reserve_all ns p = Ok p' ∧
        iThreads p `prefix_of` iThreads p' ∧
        length (iThreads p) ≤ length (iThreads p') ∧
        Forall (λ n, n ≤ length (iThreads p')) ns ∧
        max_threads p' = default (max_threads p) (last ns).
Proof.
  revert p. induction ns as [ | n ns IH]; intros p; simpl.
  - exists p. repeat split; auto.
  - rewrite reserve_spec. simpl.
    destruct (IH {| iThreads := iThreads p ++ replicate (n - length (iThreads p)) new_thread;
                    iMaxThreads := n; pool_iStopped := pool_iStopped p; iIdle := iIdle p |})
      as (p' & H & Hpre & Hlen & Hall & Hmax).
    cbn [iThreads max_threads iMaxThreads] in *.
    rewrite length_app, length_replicate in Hlen.
    exists p'. split; [exact H | ]. repeat split.
    + etrans; [ | exact Hpre]. apply prefix_app_r. reflexivity.
    + lia.
    + constructor; [lia | exact Hall].
    + rewrite Hmax, last_cons. destruct (last ns); reflexivity.
Qed.

(** C8, as stated, fails: after [reserve(4)] on a new pool, [reserve(2)]
    brings [max_threads()] from 4 down to 2. *)
Lemma reserve_lowers_max_threads :
  ¬ (∀ (ns : list nat) (n : nat) (p1 p2 : thread_pool),
       reserve_all ns new_pool = Ok p1 → reserve (S n) n p1 = Ok p2 →
       max_threads p1 ≤ max_threads p2).
Proof.
  intros H.
  pose proof (H [4] 2 _ _ eq_refl eq_refl) as Hle.
  vm_compute in Hle. lia.
Qed.

Example reserve_4_then_2 :
  ∃ p1 p2, reserve 5 4 new_pool = Ok p1 ∧ reserve 3 2 p1 = Ok p2 ∧
           max_threads p1 = 4 ∧ max_threads p2 = 2 ∧
           length (iThreads p1) = 4 ∧ length (iThreads p2) = 4.
Proof. eexists _, _. repeat split. Qed.


Lemma pool2_sorted : pool_sorted pool2.
Proof. repeat constructor; simpl; lia. Defined.

Lemma priority_order_witness :
  let q := iWaitingTasks (thread_at pool2 0) in
  let where_ := upper_bound q (None, 3%Z) in
  let q' := emplace where_ (Some 4, 3%Z) q in
  (Forall (λ e : task_queue_entry, (3 ≤ e.2)%Z) (take where_ q) ∧
   Forall (λ e : task_queue_entry, (e.2 < 3)%Z) (drop where_ q) ∧
   queue_sorted q' ∧
   ∃ p', add 1 pool2 0 (Some 4) 3%Z = Ok p' ∧ pool_sorted p' ∧
         if active (thread_at pool2 0)
         then iWaitingTasks (thread_at p' 0) = q' ∧
              iActiveTask (thread_at p' 0) = iActiveTask (thread_at pool2 0)
         else ∃ front rest, q' = front :: rest ∧
                iActiveTask (thread_at p' 0) = front.1 ∧
                iWaitingTasks (thread_at p' 0) = rest) ∧
  (∀ (front A B : task_queue_entry) (rest : task_queue),
     active (thread_at pool2 0) = false →
     q = front :: rest → A ∈ q → B ∈ q → (B.2 < A.2)%Z →
     ∃ p', next_task 1 pool2 0 = Ok p' ∧
           iActiveTask (thread_at p' 0) = front.1 ∧
           iWaitingTasks (thread_at p' 0) = rest ∧
           (A.2 ≤ front.2)%Z ∧ (B.2 < front.2)%Z ∧ B ∈ rest).
Proof.
  apply (priority_order 0 pool2 0 (Some 4) 3%Z).
  - simpl. lia.
  - exact pool2_sorted.
Defined.

(** The new entry of priority 3 goes behind the two queued entries of
    priority 3, and the worker takes the entry of priority 5. *)
Example add_is_stable :
  add 1 pool2 0 (Some 4) 3%Z
  = Ok {| iThreads := [ {| iWaitingTasks := [(Some 2, 3%Z); (Some 3, 3%Z); (Some 4, 3%Z)];
                           iActiveTask := Some 1; iStopped := false |} ];
          iMaxThreads := 1; pool_iStopped := false; iIdle := false |}.
Proof. reflexivity. Qed.

(** Tasks 1, 2 and 3 started with priorities 1, 5 and 3 while the only
    worker is busy are queued in the order 2, 3, 1. *)
Example start_orders_by_priority :
  bind (start 1 busy_pool (Some 1) 1%Z) (λ p1,
  bind (start 1 p1 (Some 2) 5%Z) (λ p2,
        start 1 p2 (Some 3) 3%Z))
  = Ok {| iThreads := [ {| iWaitingTasks := [(Some 2, 5%Z); (Some 3, 3%Z); (Some 1, 1%Z)];
                           iActiveTask := Some 0; iStopped := false |} ];
          iMaxThreads := 1; pool_iStopped := false; iIdle := false |}.
Proof. reflexivity. Qed.

Lemma start_dispatch_witness :
  stopped pool3 = false ∧
  iThreads pool3 !! 1 = Some new_thread ∧
  active new_thread = false ∧
  start 1 pool3 (Some 9) 0%Z = add 1 pool3 1 (Some 9) 0%Z.
Proof.
  destruct (start_dispatch 1 pool3 (Some 9) 0%Z) as (_ & _ & H & _).
  split; [reflexivity | split; [reflexivity | split; [reflexivity | ]]].
  apply (H eq_refl 1 new_thread eq_refl eq_refl).
  intros k tk Hk Htk. destruct k as [ | k]; [ | lia].
  injection Htk as <-. reflexivity.
Defined.

Example start_picks_first_inactive :
  start 1 pool3 (Some 9) 0%Z
  = Ok {| iThreads := [ {| iWaitingTasks := []; iActiveTask := Some 0; iStopped := false |};
                        {| iWaitingTasks := []; iActiveTask := Some 9; iStopped := false |} ];
          iMaxThreads := 2; pool_iStopped := false; iIdle := false |}.
Proof. reflexivity. Qed.

(** *** More fuel changes no result *)

Lemma fuel_le_refl {A} (r : result A) : fuel_le r r.
Proof. right. reflexivity. Qed.

Lemma fuel_le_bind {A B} (r1 r2 : result A) (k1 k2 : A → result B) :
  fuel_le r1 r2 → (∀ a, fuel_le (k1 a) (k2 a)) → fuel_le (bind r1 k1) (bind r2 k2).
Proof.
  intros [-> | ->] Hk; [left; reflexivity | ].
  destruct r2; simpl; [apply Hk | right; reflexivity | left; reflexivity].
Qed.

Lemma fuel_le_Ok {A} (r1 r2 : result A) (a : A) : fuel_le r1 r2 → r1 = Ok a → r2 = Ok a.
Proof. intros [-> | ->]; [discriminate | auto]. Qed.

Section Mono.

Context (next1 next2 : thread_pool → nat → result thread_pool).
Context (Hnext : ∀ p i, fuel_le (next1 p i) (next2 p i)).

Lemma add_body_mono p i aTask aPriority :
  fuel_le (add_body next1 p i aTask aPriority) (add_body next2 p i aTask aPriority).
Proof. unfold add_body. destruct (negb _); [apply Hnext | apply fuel_le_refl]. Qed.

Lemma thread_steal_work_body_mono p victim i :
  fuel_le (thread_steal_work_body (add_body next1) p victim i)
          (thread_steal_work_body (add_body next2) p victim i).
Proof.
  unfold thread_steal_work_body. destruct (iWaitingTasks _); [apply fuel_le_refl | ].
  apply fuel_le_bind; [apply add_body_mono | intros; apply fuel_le_refl].
Qed.

Lemma steal_scan_mono i js p :
  fuel_le (steal_scan (thread_steal_work_body (add_body next1)) i js p)
          (steal_scan (thread_steal_work_body (add_body next2)) i js p).
Proof.
  revert p. induction js as [ | j js IH]; intros p; simpl; [apply fuel_le_refl | ].
  destruct (j =? i); [apply IH | ].
  destruct (thread_steal_work_body_mono p j i) as [-> | ->]; [left; reflexivity | ].
  destruct (thread_steal_work_body (add_body next2) p j i) as [[p' [ | ]] | | ];
    try apply fuel_le_refl. apply IH.
Qed.

Lemma pool_steal_work_body_mono p i :
  fuel_le (pool_steal_work_body (thread_steal_work_body (add_body next1)) p i)
          (pool_steal_work_body (thread_steal_work_body (add_body next2)) p i).
Proof.
  unfold pool_steal_work_body. destruct (iThreads p); [apply fuel_le_refl | ].
  apply steal_scan_mono.
Qed.

End Mono.

Lemma next_task_body_mono steal1 steal2 p i :
  (∀ p i, fuel_le (steal1 p i) (steal2 p i)) →
  fuel_le (next_task_body steal1 p i) (next_task_body steal2 p i).
Proof.
  intros Hs. unfold next_task_body. destruct (active _); [apply fuel_le_refl | ].
  apply fuel_le_bind; [ | intros; apply fuel_le_refl].
  destruct (iWaitingTasks _); [apply Hs | apply fuel_le_refl].
Qed.

Lemma next_task_mono fuel p i : fuel_le (next_task fuel p i) (next_task (S fuel) p i).
Proof.
  revert p i. induction fuel as [ | fuel IH]; intros p i; [left; reflexivity | ].
  change (fuel_le
            (next_task_body (pool_steal_work_body (thread_steal_work_body
                                                     (add_body (next_task fuel)))) p i)
            (next_task_body (pool_steal_work_body (thread_steal_work_body
                                                     (add_body (next_task (S fuel))))) p i)).
  apply next_task_body_mono. intros q j. apply pool_steal_work_body_mono. exact IH.
Qed.

Lemma fuel_le_trans {A} (r1 r2 r3 : result A) : fuel_le r1 r2 → fuel_le r2 r3 → fuel_le r1 r3.
Proof. intros [-> | ->] H; [left; reflexivity | exact H]. Qed.

Lemma next_task_le fuel k p i : fuel_le (next_task fuel p i) (next_task (k + fuel) p i).
Proof.
  induction k as [ | k IH]; [apply fuel_le_refl | ].
  eapply fuel_le_trans; [exact IH | apply next_task_mono].
Qed.

Lemma next_task_more fuel k p i p' :
  next_task fuel p i = Ok p' → next_task (k + fuel) p i = Ok p'.
Proof. apply fuel_le_Ok, next_task_le. Qed.

Lemma add_more fuel k p i aTask aPriority p' :
  add fuel p i aTask aPriority = Ok p' → add (k + fuel) p i aTask aPriority = Ok p'.
Proof.
  apply fuel_le_Ok. unfold add. apply add_body_mono. intros q j. apply next_task_le.
Qed.

(** *** What [next_task] comes to *)

Lemma with_thread_ext p i f g :
  f (thread_at p i) = g (thread_at p i) → with_thread p i f = with_thread p i g.
Proof.
  intros H. unfold with_thread. f_equal. apply list_eq. intros j.
  destruct (decide (i = j)) as [<- | Hne].
  - rewrite !list_lookup_alter_eq. unfold thread_at in H.
    destruct (iThreads p !! i); simpl in *; [f_equal; exact H | reflexivity].
  - rewrite !list_lookup_alter_ne by exact Hne. reflexivity.
Qed.

Lemma with_thread_compose p i f g :
  with_thread (with_thread p i f) i g = with_thread p i (g ∘ f).
Proof.
  unfold with_thread. simpl. f_equal. apply list_eq. intros j.
  destruct (decide (i = j)) as [<- | Hne].
  - rewrite !list_lookup_alter_eq. destruct (iThreads p !! i); reflexivity.
  - rewrite !list_lookup_alter_ne by exact Hne. reflexivity.
Qed.

Lemma thread_at_with_thread p i j f :
  thread_at (with_thread p i f) j
  = if decide (i = j ∧ i < length (iThreads p)) then f (thread_at p i) else thread_at p j.
Proof.
  destruct (decide _) as [[<- Hi] | Hn].
  - apply thread_at_with_thread_eq, Hi.
  - destruct (decide (i = j)) as [<- | Hne]; [ | apply thread_at_with_thread_ne, Hne].
    unfold thread_at, with_thread. simpl. rewrite list_lookup_alter_eq.
    rewrite (lookup_ge_None_2 (iThreads p) i) by lia. reflexivity.
Qed.

Lemma upper_bound_nil v : upper_bound [] v = 0.
Proof. reflexivity. Qed.

(** [add] on a worker that has nothing to do: the task becomes its
    active task at once. *)
Lemma add_idle_exact fuel p i aTask aPriority :
  i < length (iThreads p) →
  iActiveTask (thread_at p i) = None → iWaitingTasks (thread_at p i) = [] →
  add (S fuel) p i aTask aPriority = Ok (update_idle (with_thread p i (set_active aTask))).
Proof.
  intros Hi Ha Hq. unfold add, add_body. rewrite Hq, upper_bound_nil.
  rewrite thread_at_with_thread_eq by exact Hi.
  unfold active at 1. cbn [set_queue iActiveTask]. rewrite Ha.
  rewrite bool_decide_eq_false_2 by (intros H; apply H; reflexivity). cbn [negb].
  rewrite (next_task_promotes fuel _ i (aTask, aPriority) []).
  - unfold thread_gone_busy. rewrite with_thread_compose. f_equal. f_equal.
    apply with_thread_ext. unfold compose, set_queue, set_active. cbn.
    rewrite Hq. reflexivity.
  - rewrite thread_at_with_thread_eq by exact Hi. unfold active. cbn. rewrite Ha.
    apply bool_decide_eq_false_2. intros H; apply H; reflexivity.
  - rewrite thread_at_with_thread_eq by exact Hi. cbn. rewrite Hq. reflexivity.
Qed.

Lemma steal_scan_find fuel i n b p :
  b + n = length (iThreads p) → i < length (iThreads p) →
  iActiveTask (thread_at p i) = None → iWaitingTasks (thread_at p i) = [] →
  steal_scan (thread_steal_work (S fuel)) i (seq b n) p
  = Ok match find_victim (drop b (iThreads p)) i b with
       | None => p
       | Some (j, e, rest) => stolen p i j e rest
       end.
Proof.
  revert b. induction n as [ | n IH]; intros b Hb Hi Ha Hq.
  - rewrite drop_ge by lia. reflexivity.
  - destruct (lookup_lt_is_Some_2 (iThreads p) b) as [t Ht]; [lia | ].
    rewrite (drop_S _ t b Ht). cbn [seq steal_scan find_victim].
    destruct (Nat.eqb_spec b i) as [-> | Hne]; [apply IH; assumption || lia | ].
    assert (thread_at p b = t) as Htb by (unfold thread_at; rewrite Ht; reflexivity).
    unfold thread_steal_work, thread_steal_work_body. rewrite Htb.
    destruct (iWaitingTasks t) as [ | e rest]; [apply IH; assumption || lia | ].
    rewrite add_idle_exact.
    + reflexivity.
    + rewrite length_with_thread. exact Hi.
    + rewrite thread_at_with_thread_ne by exact Hne. exact Ha.
    + rewrite thread_at_with_thread_ne by exact Hne. exact Hq.
Qed.

Lemma find_victim_Some ts i b j e rest :
  find_victim ts i b = Some (j, e, rest) →
  j ≠ i ∧ b ≤ j ∧
  (∃ t, ts !! (j - b) = Some t ∧ iWaitingTasks t = e :: rest) ∧
  ∀ k t, k < j - b → b + k ≠ i → ts !! k = Some t → iWaitingTasks t = [].
Proof.
  revert b. induction ts as [ | t0 ts IH]; intros b; cbn [find_victim]; [discriminate | ].
  assert (find_victim ts i (S b) = Some (j, e, rest) →
          iWaitingTasks t0 = [] ∨ b = i →
            j ≠ i ∧ b ≤ j ∧
            (∃ t, (t0 :: ts) !! (j - b) = Some t ∧ iWaitingTasks t = e :: rest) ∧
            ∀ k t, k < j - b → b + k ≠ i → (t0 :: ts) !! k = Some t → iWaitingTasks t = [])
    as Hrec.
  { intros H H0. destruct (IH _ H) as (Hne & Hle & (t & Ht & Hq) & Hbefore).
    split; [exact Hne | ]. split; [lia | ]. split.
    - exists t. replace (j - b) with (S (j - S b)) by lia. split; assumption.
    - intros k t' Hk Hki Ht'. destruct k as [ | k].
      + injection Ht' as <-. destruct H0 as [H0 | H0]; [exact H0 | lia].
      + apply (Hbefore k t'); [lia | lia | exact Ht']. }
  destruct (Nat.eqb_spec b i) as [-> | Hne]; [intros H; apply Hrec; auto | ].
  destruct (iWaitingTasks t0) as [ | e0 rest0] eqn:Hq0; [intros H; apply Hrec; auto | ].
  intros [= -> -> ->]. split; [exact Hne | ]. split; [lia | ]. split.
  - exists t0. rewrite Nat.sub_diag. split; [reflexivity | exact Hq0].
  - intros k t Hk. lia.
Qed.

Lemma find_victim_None ts i b :
  find_victim ts i b = None →
  ∀ k t, b + k ≠ i → ts !! k = Some t → iWaitingTasks t = [].
Proof.
  revert b. induction ts as [ | t0 ts IH]; intros b; cbn [find_victim];
    [intros _ k t _ Hk; discriminate | ].
  assert (find_victim ts i (S b) = None →
          iWaitingTasks t0 = [] ∨ b = i →
          ∀ k t, b + k ≠ i → (t0 :: ts) !! k = Some t → iWaitingTasks t = []) as Hrec.
  { intros H H0 k t Hki Ht. destruct k as [ | k].
    - injection Ht as <-. destruct H0 as [H0 | H0]; [exact H0 | lia].
    - apply (IH _ H k t); [lia | exact Ht]. }
  destruct (Nat.eqb_spec b i) as [-> | Hne]; [intros H; apply Hrec; auto | ].
  destruct (iWaitingTasks t0) as [ | e0 rest0] eqn:Hq0; [intros H; apply Hrec; auto | ].
  discriminate.
Qed.

(** A worker with nothing queued takes the front of the queue of the
    first other worker that has a task waiting, and has it as its active
    task at once; when no other worker has one, it stays as it is. *)
Lemma next_task_steals fuel p i :
  i < length (iThreads p) →
  iActiveTask (thread_at p i) = None → iWaitingTasks (thread_at p i) = [] →
  next_task (S (S fuel)) p i
  = Ok match find_victim (iThreads p) i 0 with
       | None => update_idle p
       | Some (j, e, rest) => stolen p i j e rest
       end.
Proof.
  intros Hi Ha Hq.
  change (next_task (S (S fuel)) p i)
    with (next_task_body (pool_steal_work (S fuel)) p i).
  unfold next_task_body, active. rewrite Ha, Hq.
  rewrite bool_decide_eq_false_2 by (intros H; apply H; reflexivity).
  unfold pool_steal_work, pool_steal_work_body.
  destruct (iThreads p) as [ | t0 ts] eqn:Hts; [simpl in Hi; lia | ].
  rewrite <- Hts in Hi |- *.
  rewrite (steal_scan_find fuel i (length (iThreads p)) 0 p) by (assumption || lia).
  rewrite drop_0. cbn [bind].
  destruct (find_victim (iThreads p) i 0) as [[[j e] rest] | ] eqn:Hv.
  - destruct (find_victim_Some _ _ _ _ _ _ Hv) as (Hne & _).
    unfold stolen. rewrite thread_at_update_idle.
    rewrite thread_at_with_thread_eq by (rewrite length_with_thread; exact Hi).
    rewrite thread_at_with_thread_ne by auto. cbn. rewrite Hq. reflexivity.
  - rewrite Hq. reflexivity.
Qed.

Lemma add_inactive_exact fuel p i aTask aPriority front rest :
  i < length (iThreads p) → iActiveTask (thread_at p i) = None →
  emplace (upper_bound (iWaitingTasks (thread_at p i)) (None, aPriority))
    (aTask, aPriority) (iWaitingTasks (thread_at p i)) = front :: rest →
  add (S fuel) p i aTask aPriority
  = Ok (update_idle (with_thread p i (λ t, set_queue rest (set_active front.1 t)))).
Proof.
  intros Hi Ha Hq. unfold add, add_body.
  rewrite thread_at_with_thread_eq by exact Hi.
  unfold active at 1. cbn [set_queue iActiveTask]. rewrite Ha.
  rewrite bool_decide_eq_false_2 by (intros H; apply H; reflexivity). cbn [negb].
  rewrite (next_task_promotes fuel _ i front rest).
  - unfold thread_gone_busy. rewrite with_thread_compose. reflexivity.
  - rewrite thread_at_with_thread_eq by exact Hi. unfold active. cbn. rewrite Ha.
    apply bool_decide_eq_false_2. intros H; apply H; reflexivity.
  - rewrite thread_at_with_thread_eq by exact Hi. cbn. exact Hq.
Qed.

Lemma start_scan_Some ts b j :
  start_scan ts b = Some j →
  b ≤ j ∧ (∃ t, ts !! (j - b) = Some t ∧ active t = false) ∧
  ∀ k t, k < j - b → ts !! k = Some t → active t = true.
Proof.
  revert b. induction ts as [ | t0 ts IH]; intros b; cbn [start_scan]; [discriminate | ].
  destruct (active t0) eqn:Ha; cbn [negb].
  - intros H. destruct (IH _ H) as (Hle & (t & Ht & Hat) & Hbefore).
    split; [lia | ]. split.
    + exists t. replace (j - b) with (S (j - S b)) by lia. split; assumption.
    + intros k t' Hk Ht'. destruct k as [ | k]; [injection Ht' as <-; exact Ha | ].
      apply (Hbefore k t'); [lia | exact Ht'].
  - intros [= <-]. split; [lia | ]. rewrite Nat.sub_diag. split; [eauto | ].
    intros k t Hk. lia.
Qed.

Lemma start_scan_None ts b :
  start_scan ts b = None → ∀ k t, ts !! k = Some t → active t = true.
Proof.
  revert b. induction ts as [ | t0 ts IH]; intros b; cbn [start_scan];
    [intros _ k t Hk; discriminate | ].
  destruct (active t0) eqn:Ha; cbn [negb]; [ | discriminate].
  intros H k t Ht. destruct k as [ | k]; [injection Ht as <-; exact Ha | ].
  exact (IH _ H k t Ht).
Qed.

Lemma active_false t : active t = false ↔ iActiveTask t = None.
Proof.
  unfold active. destruct (iActiveTask t).
  - rewrite bool_decide_eq_true_2 by discriminate. split; discriminate.
  - rewrite bool_decide_eq_false_2 by (intros H; apply H; reflexivity). tauto.
Qed.

Lemma active_true t : active t = true ↔ iActiveTask t ≠ None.
Proof. unfold active. apply bool_decide_eq_true. Qed.

Lemma thread_at_lookup p i t : iThreads p !! i = Some t → thread_at p i = t.
Proof. intros H. unfold thread_at. rewrite H. reflexivity. Qed.

Lemma lookup_thread_at p i : i < length (iThreads p) → iThreads p !! i = Some (thread_at p i).
Proof.
  intros Hi. destruct (lookup_lt_is_Some_2 _ _ Hi) as [t Ht].
  rewrite (thread_at_lookup p i t Ht). exact Ht.
Qed.

(** [start], case by case *)
Lemma start_exact fuel p aTask aPriority p' :
  start fuel p aTask aPriority = Ok p' →
  (stopped p = true ∧ p' = p) ∨
  (stopped p = false ∧
   ∃ j, j < length (iThreads p) ∧
     let q := iWaitingTasks (thread_at p j) in
     let q' := emplace (upper_bound q (None, aPriority)) (aTask, aPriority) q in
     (iActiveTask (thread_at p j) = None ∧
      (∀ k, k < j → iActiveTask (thread_at p k) ≠ None) ∧
      ∃ front rest, q' = front :: rest ∧
        p' = update_idle (with_thread p j (λ t, set_queue rest (set_active front.1 t)))) ∨
     (j = 0 ∧ (∀ k, k < length (iThreads p) → iActiveTask (thread_at p k) ≠ None) ∧
      p' = with_thread p j (set_queue q'))).
Proof.
  unfold start. destruct (stopped p) eqn:Hst; [intros [= <-]; left; split; reflexivity | ].
  intros H. right. split; [reflexivity | ].
  destruct (iThreads p) as [ | t0 ts] eqn:Hts; [discriminate | ]. rewrite <- Hts in *.
  destruct (start_scan (iThreads p) 0) as [j | ] eqn:Hscan.
  - destruct (start_scan_Some _ _ _ Hscan) as (_ & (t & Ht & Hat) & Hbefore).
    rewrite Nat.sub_0_r in Ht, Hbefore.
    assert (j < length (iThreads p)) as Hj by (eapply lookup_lt_Some; exact Ht).
    pose proof (thread_at_lookup p j t Ht) as Htj.
    exists j. split; [exact Hj | ]. left. rewrite Htj.
    apply active_false in Hat. split; [exact Hat | ]. split.
    + intros k Hk. apply active_true. apply (Hbefore k); [exact Hk | ].
      apply lookup_thread_at. lia.
    + destruct (emplace _ _ (iWaitingTasks t)) as [ | front rest] eqn:Hq;
        [exfalso; eapply emplace_not_nil; exact Hq | ].
      exists front, rest. split; [reflexivity | ].
      apply (add_more fuel 1) in H. cbn [Nat.add] in H.
      rewrite (add_inactive_exact fuel p j aTask aPriority front rest) in H;
        [congruence | exact Hj | rewrite Htj; exact Hat | rewrite Htj; exact Hq].
  - pose proof (start_scan_None _ _ Hscan) as Hall.
    assert (0 < length (iThreads p)) as H0 by (rewrite Hts; simpl; lia).
    exists 0. split; [exact H0 | ]. right. split; [reflexivity | ]. split.
    + intros k Hk. apply active_true. apply (Hall k). apply lookup_thread_at, Hk.
    + rewrite add_active in H.
      * injection H as <-. apply with_thread_ext. reflexivity.
      * apply (Hall 0). apply lookup_thread_at, H0.
      * exact H0.
Qed.

Lemma find_victim_alter ts i b f :
  find_victim (alter f (i - b) ts) i b = find_victim ts i b ∨ i < b.
Proof.
  destruct (decide (i < b)) as [Hlt | Hge]; [right; exact Hlt | left].
  revert b Hge. induction ts as [ | t0 ts IH]; intros b Hge; [reflexivity | ].
  destruct (decide (i = b)) as [-> | Hne].
  - rewrite Nat.sub_diag. cbn [alter list_alter find_victim]. rewrite Nat.eqb_refl.
    reflexivity.
  - replace (i - b) with (S (i - S b)) by lia. cbn [alter list_alter find_victim].
    destruct (Nat.eqb_spec b i) as [-> | _]; [lia | ].
    destruct (iWaitingTasks t0); [ | reflexivity].
    apply IH. lia.
Qed.

Lemma find_victim_with_thread p i f :
  find_victim (iThreads (with_thread p i f)) i 0 = find_victim (iThreads p) i 0.
Proof.
  destruct (find_victim_alter (iThreads p) i 0 f) as [H | H]; [ | lia].
  rewrite Nat.sub_0_r in H. exact H.
Qed.

Lemma with_thread_commute p i j f g :
  i ≠ j → with_thread (with_thread p i f) j g = with_thread (with_thread p j g) i f.
Proof.
  intros Hne. unfold with_thread. simpl. f_equal. apply list_alter_alter_ne. auto.
Qed.

Lemma turn_exact fuel p i p1 p2 :
  release p i = Ok p1 → next_task fuel p1 i = Ok p2 →
  i < length (iThreads p) ∧ iActiveTask (thread_at p i) ≠ None ∧ p2 = after_turn p i.
Proof.
  unfold release. intros Hr Hn.
  destruct (iActiveTask (thread_at p i)) as [a | ] eqn:Ha; [ | discriminate].
  injection Hr as <-.
  assert (i < length (iThreads p)) as Hi.
  { destruct (decide (i < length (iThreads p))) as [H | H]; [exact H | ].
    unfold thread_at in Ha. rewrite lookup_ge_None_2 in Ha by lia. discriminate. }
  split; [exact Hi | ]. split; [discriminate | ].
  apply (next_task_more fuel 2) in Hn. cbn [Nat.add] in Hn.
  unfold after_turn.
  destruct (iWaitingTasks (thread_at p i)) as [ | front rest] eqn:Hq.
  - rewrite next_task_steals in Hn.
    + rewrite find_victim_with_thread in Hn. injection Hn as <-.
      destruct (find_victim (iThreads p) i 0) as [[[j e] rest] | ] eqn:Hv; [ | reflexivity].
      destruct (find_victim_Some _ _ _ _ _ _ Hv) as (Hne & _).
      unfold stolen. f_equal.
      rewrite (with_thread_commute p i j) by auto.
      rewrite with_thread_compose. apply with_thread_ext. reflexivity.
    + rewrite length_with_thread. exact Hi.
    + rewrite thread_at_with_thread_eq by exact Hi. reflexivity.
    + rewrite thread_at_with_thread_eq by exact Hi. exact Hq.
  - rewrite (next_task_promotes _ _ i front rest) in Hn.
    + injection Hn as <-. unfold thread_gone_busy. f_equal.
      rewrite with_thread_compose. apply with_thread_ext. reflexivity.
    + rewrite thread_at_with_thread_eq by exact Hi. reflexivity.
    + rewrite thread_at_with_thread_eq by exact Hi. exact Hq.
Qed.

(** *** The tasks a pool holds *)

Lemma iThreads_split p i :
  i < length (iThreads p) →
  iThreads p = take i (iThreads p) ++ thread_at p i :: drop (S i) (iThreads p).
Proof. intros Hi. symmetry. apply take_drop_middle, lookup_thread_at, Hi. Qed.

Lemma iThreads_with_thread p i f :
  i < length (iThreads p) →
  iThreads (with_thread p i f)
  = take i (iThreads p) ++ f (thread_at p i) :: drop (S i) (iThreads p).
Proof.
  intros Hi. unfold with_thread. cbn [iThreads].
  rewrite (iThreads_split p i Hi) at 1.
  rewrite alter_app_r_alt by (rewrite length_take; lia).
  rewrite length_take, Nat.min_l, Nat.sub_diag by lia. reflexivity.
Qed.

Lemma all_tasks_with_thread p i f l1 l2 :
  i < length (iThreads p) →
  tasks_of (f (thread_at p i)) ++ l1 ≡ₚ tasks_of (thread_at p i) ++ l2 →
  all_tasks (with_thread p i f) ++ l1 ≡ₚ all_tasks p ++ l2.
Proof.
  intros Hi H. unfold all_tasks.
  rewrite (iThreads_with_thread p i f Hi). rewrite (iThreads_split p i Hi) at 3.
  rewrite !bind_app, !bind_cons.
  set (A := take i (iThreads p) ≫= tasks_of). set (B := drop (S i) (iThreads p) ≫= tasks_of).
  rewrite <- !app_assoc.
  apply Permutation_app_head.
  rewrite (Permutation_app_comm B l1), (Permutation_app_comm B l2).
  rewrite !app_assoc. apply Permutation_app_tail. exact H.
Qed.

Lemma omap_fst_cons (e : task_queue_entry) (q : task_queue) :
  omap fst (e :: q) = option_list e.1 ++ omap fst q.
Proof. destruct e as [[a | ] z]; reflexivity. Qed.

Lemma omap_fst_emplace k (e : task_queue_entry) (q : task_queue) :
  omap fst (emplace k e q) ≡ₚ option_list e.1 ++ omap fst q.
Proof.
  unfold emplace. rewrite omap_app, omap_fst_cons.
  rewrite <- (take_drop k q) at 3. rewrite omap_app.
  rewrite !app_assoc. apply Permutation_app_tail. apply Permutation_app_comm.
Qed.

(** *** Workers with nothing to do have nothing queued *)

Lemma tidy_new_thread : tidy_thread new_thread.
Proof. split; [constructor | reflexivity]. Qed.

Lemma tidy_thread_at p i : tidy p → tidy_thread (thread_at p i).
Proof.
  intros H. unfold thread_at. destruct (iThreads p !! i) as [t | ] eqn:Ht; simpl.
  - exact (Forall_lookup_1 _ _ _ _ H Ht).
  - exact tidy_new_thread.
Qed.

Lemma tidy_halves p : tidy p ↔ no_null_queued p ∧ free_unqueued p.
Proof.
  unfold tidy, no_null_queued, free_unqueued, tidy_thread. rewrite <- Forall_and. reflexivity.
Qed.

Lemma no_null_thread_at p i :
  no_null_queued p → Forall (λ e : task_queue_entry, e.1 ≠ None) (iWaitingTasks (thread_at p i)).
Proof.
  intros H. unfold thread_at. destruct (iThreads p !! i) as [t | ] eqn:Ht; simpl.
  - exact (Forall_lookup_1 _ _ _ _ H Ht).
  - constructor.
Qed.

Lemma free_unqueued_thread_at p i :
  free_unqueued p → iActiveTask (thread_at p i) = None → iWaitingTasks (thread_at p i) = [].
Proof.
  intros H. unfold thread_at. destruct (iThreads p !! i) as [t | ] eqn:Ht; simpl.
  - exact (Forall_lookup_1 _ _ _ _ H Ht).
  - reflexivity.
Qed.

Lemma tidy_with_thread p i f :
  tidy p → (tidy_thread (thread_at p i) → tidy_thread (f (thread_at p i))) →
  tidy (with_thread p i f).
Proof.
  intros H Hf. unfold tidy, with_thread. cbn [iThreads].
  apply Forall_alter; [exact H | ].
  intros x Hx. rewrite <- (thread_at_lookup p i x Hx). exact Hf.
Qed.

Lemma tidy_reserve n p p' : reserve (S n) n p = Ok p' → tidy p → tidy p'.
Proof.
  rewrite reserve_spec. intros [= <-] H. unfold tidy. cbn [iThreads].
  apply Forall_app. split; [exact H | ]. apply Forall_replicate, tidy_new_thread.
Qed.

Lemma tidy_start fuel p aTask aPriority p' :
  aTask ≠ None → start fuel p aTask aPriority = Ok p' → tidy p → tidy p'.
Proof.
  intros Hnn Hs Ht.
  destruct (start_exact _ _ _ _ _ Hs) as [[_ ->] | (_ & j & Hj & Hcase)]; [exact Ht | ].
  pose proof (tidy_thread_at p j Ht) as [Hnull Hempty].
  destruct Hcase as [(Ha & _ & front & rest & Hq & ->) | (-> & Hall & ->)].
  - rewrite (Hempty Ha) in Hq. injection Hq as <- <-.
    change (tidy (with_thread p j (λ t, set_queue [] (set_active (aTask, aPriority).1 t)))).
    apply tidy_with_thread; [assumption | ]. intros _. split; [constructor | reflexivity].
  - apply tidy_with_thread; [exact Ht | ]. intros _. split.
    + cbn. unfold emplace. apply Forall_app. split; [apply Forall_take, Hnull | ].
      constructor; [exact Hnn | apply Forall_drop, Hnull].
    + cbn. intros Ha. exfalso. exact (Hall 0 Hj Ha).
Qed.

Lemma tidy_after_turn p i :
  i < length (iThreads p) → tidy p → tidy (after_turn p i).
Proof.
  intros Hi Ht. unfold after_turn.
  match goal with |- tidy (update_idle ?x) => change (tidy x) end.
  pose proof (tidy_thread_at p i Ht) as [Hnull Hempty].
  destruct (iWaitingTasks (thread_at p i)) as [ | front rest] eqn:Hq.
  - destruct (find_victim (iThreads p) i 0) as [[[j e] rest] | ] eqn:Hv.
    + destruct (find_victim_Some _ _ _ _ _ _ Hv) as (Hne & _ & (t & Htj & Hqj) & _).
      rewrite Nat.sub_0_r in Htj. pose proof (thread_at_lookup p j t Htj) as Ej.
      pose proof (tidy_thread_at p j Ht) as [Hnullj Hemptyj]. rewrite Ej, Hqj in Hnullj, Hemptyj.
      apply Forall_cons in Hnullj as [He Hrest].
      apply tidy_with_thread; [apply tidy_with_thread; [exact Ht | ] | ].
      * intros _. rewrite Ej. split; [exact Hrest | ]. cbn. intros Ha.
        specialize (Hemptyj Ha). discriminate.
      * intros [Hn _]. split; [exact Hn | ]. cbn. intros Ha. contradiction.
    + apply tidy_with_thread; [exact Ht | ]. intros _. split; [cbn; rewrite Hq; constructor | ].
      intros _. exact Hq.
  - apply Forall_cons in Hnull as [Hf Hrest].
    apply tidy_with_thread; [exact Ht | ]. intros _. split; [exact Hrest | ].
    cbn. intros Ha. contradiction.
Qed.

(** *** No task is lost *)

Lemma all_tasks_update_idle p : all_tasks (update_idle p) = all_tasks p.
Proof. reflexivity. Qed.

(** X5.  [start] on a pool that is not stopped adds the task it is given
    and nothing else: the tasks the workers hold afterwards, active or
    queued, are those held before and the new one (a null pointer adds
    nothing).  No task is lost or taken twice by the stealing that [add]
    can set off. *)
Theorem start_adds_one_task fuel p aTask aPriority p' :
  stopped p = false → start fuel p aTask aPriority = Ok p' →
  all_tasks p' ≡ₚ option_list aTask ++ all_tasks p.
Proof.
  intros Hst Hs.
  destruct (start_exact _ _ _ _ _ Hs) as [[Hst' _] | (_ & j & Hj & Hcase)]; [congruence | ].
  pose proof (omap_fst_emplace (upper_bound (iWaitingTasks (thread_at p j)) (None, aPriority))
                (aTask, aPriority) (iWaitingTasks (thread_at p j))) as Hq'.
  cbn [fst] in Hq'.
  destruct Hcase as [(Ha & _ & front & rest & Hq & ->) | (-> & Hall & ->)].
  - rewrite all_tasks_update_idle.
    rewrite <- (app_nil_r (all_tasks (with_thread _ _ _))).
    rewrite (Permutation_app_comm (option_list aTask)).
    apply all_tasks_with_thread; [exact Hj | ].
    unfold tasks_of. cbn [set_queue set_active iActiveTask iWaitingTasks].
    rewrite Ha, app_nil_r. cbn [option_list app].
    rewrite <- omap_fst_cons, <- Hq, Hq'. apply Permutation_app_comm.
  - rewrite <- (app_nil_r (all_tasks (with_thread _ _ _))).
    rewrite (Permutation_app_comm (option_list aTask)).
    apply all_tasks_with_thread; [exact Hj | ].
    unfold tasks_of. cbn [set_queue iActiveTask iWaitingTasks].
    rewrite app_nil_r, Hq'. rewrite <- app_assoc. apply Permutation_app_head.
    apply Permutation_app_comm.
Qed.

Lemma after_turn_keeps_tasks p i a :
  i < length (iThreads p) → iActiveTask (thread_at p i) = Some a →
  a :: all_tasks (after_turn p i) ≡ₚ all_tasks p.
Proof.
  intros Hi Ha. unfold after_turn. rewrite all_tasks_update_idle.
  rewrite <- (app_nil_r (all_tasks p)).
  change (a :: ?l) with ([a] ++ l). rewrite (Permutation_app_comm [a]).
  destruct (iWaitingTasks (thread_at p i)) as [ | front rest] eqn:Hq.
  - destruct (find_victim (iThreads p) i 0) as [[[j e] rest] | ] eqn:Hv.
    + destruct (find_victim_Some _ _ _ _ _ _ Hv) as (Hne & _ & (t & Htj & Hqj) & _).
      rewrite Nat.sub_0_r in Htj. pose proof (thread_at_lookup p j t Htj) as Ej.
      assert (j < length (iThreads p)) as Hj by (eapply lookup_lt_Some; exact Htj).
      assert (all_tasks (with_thread p j (set_queue rest)) ++ option_list e.1
              ≡ₚ all_tasks p ++ []) as H1.
      { apply all_tasks_with_thread; [exact Hj | ]. rewrite Ej. unfold tasks_of.
        cbn [set_queue iActiveTask iWaitingTasks]. rewrite Hqj, omap_fst_cons, app_nil_r.
        rewrite <- !app_assoc. apply Permutation_app_head, Permutation_app_comm. }
      rewrite <- H1.
      apply all_tasks_with_thread; [rewrite length_with_thread; exact Hi | ].
      rewrite thread_at_with_thread_ne by exact Hne.
      unfold tasks_of. cbn [set_active iActiveTask iWaitingTasks].
      rewrite Ha, Hq. cbn [omap option_list]. rewrite !app_nil_r.
      apply Permutation_app_comm.
    + apply all_tasks_with_thread; [exact Hi | ].
      unfold tasks_of. cbn [set_active iActiveTask iWaitingTasks].
      rewrite Ha, Hq. reflexivity.
  - apply all_tasks_with_thread; [exact Hi | ].
    unfold tasks_of. cbn [set_queue set_active iActiveTask iWaitingTasks].
    rewrite Ha, Hq, omap_fst_cons, app_nil_r. cbn [option_list].
    apply Permutation_app_comm.
Qed.

(** *** No task waits while a worker has nothing to do *)

Lemma busy_first_all_active p :
  (∀ k, k < length (iThreads p) → iActiveTask (thread_at p k) ≠ None) → busy_first p.
Proof.
  intros H (t & Ht & Ha). exfalso.
  apply list_elem_of_lookup in Ht as [k Hk].
  apply (H k); [eapply lookup_lt_Some; exact Hk | ].
  rewrite (thread_at_lookup p k t Hk). exact Ha.
Qed.

Lemma busy_first_all_empty p :
  (∀ k, iWaitingTasks (thread_at p k) = []) → busy_first p.
Proof.
  intros H _. apply Forall_lookup. intros k t Hk.
  rewrite <- (thread_at_lookup p k t Hk). apply H.
Qed.

Lemma busy_first_empty p k j :
  busy_first p → k < length (iThreads p) → iActiveTask (thread_at p k) = None →
  iWaitingTasks (thread_at p j) = [].
Proof.
  intros H Hk Ha. unfold thread_at at 1.
  destruct (iThreads p !! j) as [t | ] eqn:Hj; [ | reflexivity]. simpl.
  assert (Forall (λ t, iWaitingTasks t = []) (iThreads p)) as Hall.
  { apply H. exists (thread_at p k). split; [ | exact Ha].
    eapply list_elem_of_lookup_2. apply lookup_thread_at, Hk. }
  exact (Forall_lookup_1 _ _ _ _ Hall Hj).
Qed.

Lemma busy_first_active p j k :
  busy_first p → iWaitingTasks (thread_at p j) ≠ [] →
  k < length (iThreads p) → iActiveTask (thread_at p k) ≠ None.
Proof. intros H Hj Hk Ha. apply Hj. eapply busy_first_empty; eassumption. Qed.

Lemma start_keeps_busy_first fuel p aTask aPriority p' :
  start fuel p aTask aPriority = Ok p' → busy_first p → busy_first p'.
Proof.
  intros Hs Hb.
  destruct (start_exact _ _ _ _ _ Hs) as [[_ ->] | (_ & j & Hj & Hcase)]; [exact Hb | ].
  destruct Hcase as [(Ha & _ & front & rest & Hq & ->) | (-> & Hall & ->)].
  - rewrite (busy_first_empty p j j Hb Hj Ha) in Hq. injection Hq as <- <-.
    apply busy_first_all_empty. intros k. rewrite thread_at_update_idle.
    rewrite thread_at_with_thread. destruct (decide _); [reflexivity | ].
    exact (busy_first_empty p j k Hb Hj Ha).
  - apply busy_first_all_active. intros k. rewrite length_with_thread. intros Hk.
    rewrite thread_at_with_thread. destruct (decide _) as [[<- _] | _]; [ | exact (Hall k Hk)].
    exact (Hall 0 Hk).
Qed.

Lemma after_turn_keeps_busy_first p i :
  i < length (iThreads p) → iActiveTask (thread_at p i) ≠ None →
  no_null_queued p → busy_first p → busy_first (after_turn p i).
Proof.
  intros Hi Ha Ht Hb. unfold after_turn.
  pose proof (no_null_thread_at p i Ht) as Hnull.
  destruct (iWaitingTasks (thread_at p i)) as [ | front rest] eqn:Hq.
  - destruct (find_victim (iThreads p) i 0) as [[[j e] rest] | ] eqn:Hv.
    + destruct (find_victim_Some _ _ _ _ _ _ Hv) as (Hne & _ & (t & Htj & Hqj) & _).
      rewrite Nat.sub_0_r in Htj. pose proof (thread_at_lookup p j t Htj) as Ej.
      pose proof (no_null_thread_at p j Ht) as Hnullj. rewrite Ej, Hqj in Hnullj.
      apply Forall_cons in Hnullj as [He _].
      assert (∀ k, k < length (iThreads p) → iActiveTask (thread_at p k) ≠ None) as Hall.
      { intros k. apply (busy_first_active p j k Hb). rewrite Ej, Hqj. discriminate. }
      apply busy_first_all_active. intros k. cbn [update_idle iThreads].
      rewrite !length_with_thread. intros Hk. rewrite thread_at_update_idle.
      rewrite !thread_at_with_thread.
      destruct (decide _) as [_ | _]; [exact He | ].
      destruct (decide _) as [_ | _]; [ | exact (Hall k Hk)].
      cbn. apply Hall. eapply lookup_lt_Some. exact Htj.
    + apply busy_first_all_empty. intros k. rewrite thread_at_update_idle.
      rewrite thread_at_with_thread. destruct (decide _) as [_ | Hn]; [exact Hq | ].
      unfold thread_at. destruct (iThreads p !! k) as [t | ] eqn:Hk; [ | reflexivity].
      apply (find_victim_None _ _ _ Hv k t); [ | exact Hk].
      cbn. intros <-. apply Hn. split; [reflexivity | exact Hi].
  - apply Forall_cons in Hnull as [Hf _].
    assert (∀ k, k < length (iThreads p) → iActiveTask (thread_at p k) ≠ None) as Hall.
    { intros k. apply (busy_first_active p i k Hb). rewrite Hq. discriminate. }
    apply busy_first_all_active. intros k. cbn [update_idle iThreads].
    rewrite length_with_thread. intros Hk. rewrite thread_at_update_idle.
    rewrite thread_at_with_thread. destruct (decide _) as [_ | _]; [exact Hf | ].
    exact (Hall k Hk).
Qed.

(** *** The idle flag *)

Lemma forallb_idle_active ts k t :
  ts !! k = Some t → iActiveTask t ≠ None → forallb idle ts = false.
Proof.
  intros Hk Ha. apply not_true_is_false. intros H.
  rewrite forallb_forall in H.
  assert (idle t = true) as Hi.
  { apply H. apply list_elem_of_In. eapply list_elem_of_lookup_2. exact Hk. }
  unfold idle in Hi. apply andb_true_iff in Hi as [Hi _].
  apply bool_decide_eq_true in Hi. contradiction.
Qed.

(** X7.  In every pool that comes about, [idle()] tells the truth: the
    flag [wait] goes by is set exactly when every worker is idle, that
    is, has no active task and nothing queued. *)
Theorem idle_flag_accurate (p : thread_pool) :
  reachable p → pool_idle p = forallb idle (iThreads p).
Proof.
  unfold pool_idle. induction 1 as [ | p p' n _ IH Hr | p p' fuel t pr _ IH Hs | p p1 p2 fuel i _ IH Hr Hn].
  - reflexivity.
  - rewrite reserve_spec in Hr. injection Hr as <-. cbn [iIdle iThreads].
    rewrite forallb_app, <- IH.
    replace (forallb idle (replicate _ new_thread)) with true; [rewrite andb_true_r; reflexivity | ].
    symmetry. apply forallb_forall. intros x Hx. apply list_elem_of_In in Hx.
    apply elem_of_replicate in Hx as [-> _]. reflexivity.
  - destruct (start_exact _ _ _ _ _ Hs) as [[_ ->] | (_ & j & Hj & Hcase)]; [exact IH | ].
    destruct Hcase as [(Ha & _ & front & rest & Hq & ->) | (-> & Hall & ->)]; [reflexivity | ].
    cbn [with_thread iIdle iThreads]. rewrite IH.
    rewrite (forallb_idle_active (iThreads p) 0 (thread_at p 0));
      [ | apply lookup_thread_at, Hj | apply Hall, Hj ].
    symmetry. apply (forallb_idle_active _ 0 (set_queue
        (emplace (upper_bound (iWaitingTasks (thread_at p 0)) (None, pr)) (t, pr)
           (iWaitingTasks (thread_at p 0))) (thread_at p 0))).
    + rewrite list_lookup_alter_eq, (lookup_thread_at p 0 Hj). reflexivity.
    + cbn. apply Hall, Hj.
  - destruct (turn_exact _ _ _ _ _ Hr Hn) as (_ & _ & ->). reflexivity.
Qed.

(** *** [try_start] and [stop] *)

Lemma count_active_le ts r : count_active ts r ≤ r + length ts.
Proof.
  revert r. induction ts as [ | t ts IH]; intros r; cbn [count_active length]; [lia | ].
  specialize (IH (if active t then S r else r)). destruct (active t); lia.
Qed.

Lemma count_active_all ts r :
  Forall (λ t, iActiveTask t ≠ None) ts → count_active ts r = r + length ts.
Proof.
  intros H. revert r. induction H as [ | t ts Ht _ IH]; intros r; cbn [count_active length];
    [lia | ].
  rewrite (proj2 (active_true t) Ht), IH. lia.
Qed.

Lemma count_active_lt ts r k t :
  ts !! k = Some t → iActiveTask t = None → count_active ts r < r + length ts.
Proof.
  revert r k. induction ts as [ | t0 ts IH]; intros r k Hk Ha; [discriminate | ].
  cbn [count_active length]. destruct k as [ | k].
  - injection Hk as ->. rewrite (proj2 (active_false t) Ha).
    pose proof (count_active_le ts r). lia.
  - specialize (IH (if active t0 then S r else r) k Hk Ha). destruct (active t0); lia.
Qed.

(** X8.  On a pool with as many workers as [max_threads()] says and no
    task waiting on a worker that has nothing to do, [try_start] never
    queues a task behind another: it refuses, leaving the pool as it is,
    when the pool is stopped or every worker is active; otherwise the
    task pointer, null or not, becomes at once the active task of the
    first worker that is not active. *)
Theorem try_start_starts_or_refuses fuel p aTask aPriority :
  max_threads p = length (iThreads p) →
  (Z.of_nat (length (iThreads p)) < 2 ^ 64)%Z →
  free_unqueued p →
  (stopped p = true → try_start fuel p aTask aPriority = Ok (p, false)) ∧
  (Forall (λ t, iActiveTask t ≠ None) (iThreads p) →
   try_start fuel p aTask aPriority = Ok (p, false)) ∧
  (stopped p = false →
   ∀ j, j < length (iThreads p) → iActiveTask (thread_at p j) = None →
        (∀ k, k < j → iActiveTask (thread_at p k) ≠ None) →
        try_start (S fuel) p aTask aPriority
        = Ok (update_idle (with_thread p j (set_active aTask)), true)).
Proof.
  intros Hmax Hlen Ht. unfold try_start. split; [intros ->; reflexivity | ]. split.
  - intros Hall. destruct (stopped p); [reflexivity | ].
    unfold available_threads, active_threads. rewrite Hmax, (count_active_all _ 0 Hall).
    rewrite Nat.add_0_l, Z.sub_diag. reflexivity.
  - intros Hst j Hj Ha Hbefore. rewrite Hst.
    pose proof (count_active_lt (iThreads p) 0 j _ (lookup_thread_at p j Hj) Ha) as Hlt.
    unfold available_threads, active_threads, size_t. rewrite Hmax.
    rewrite Z.mod_small by lia.
    destruct (Z.eqb_spec (Z.of_nat (length (iThreads p)) - Z.of_nat (count_active (iThreads p) 0)) 0)
      as [H0 | _]; [lia | ].
    unfold start. rewrite Hst.
    destruct (iThreads p) as [ | t0 ts] eqn:Hts; [simpl in Hj; lia | ]. rewrite <- Hts in *.
    rewrite (start_scan_found (iThreads p) 0 j (thread_at p j)).
    + cbn [Nat.add]. rewrite add_idle_exact; [reflexivity | exact Hj | exact Ha | ].
      apply (free_unqueued_thread_at p j Ht), Ha.
    + apply lookup_thread_at, Hj.
    + apply active_false, Ha.
    + intros k tk Hk Htk. apply active_true. rewrite <- (thread_at_lookup p k tk Htk).
      apply Hbefore, Hk.
Qed.

Lemma stopped_stop p : stopped (stop p) = true.
Proof. unfold stop. destruct (stopped p) eqn:H; [exact H | reflexivity]. Qed.

Lemma tasks_of_thread_stop t : tasks_of (thread_stop t) = tasks_of t.
Proof. unfold thread_stop. destruct (iStopped t); reflexivity. Qed.

Lemma all_tasks_stop p : all_tasks (stop p) = all_tasks p.
Proof.
  unfold stop. destruct (stopped p); [reflexivity | ]. unfold all_tasks. cbn [iThreads].
  induction (iThreads p) as [ | t ts IH]; [reflexivity | ].
  rewrite fmap_cons, !bind_cons, tasks_of_thread_stop, IH. reflexivity.
Qed.

(** *** The worker's loop *)

Section ExecFacts.

Context {T : Type} (cancelled : T → bool) (run : T → T * option nat).



End ExecFacts.

Section Touch.
Context {T : Type} (cancelled : T → bool) (run : T → T * option nat).

(** A turn of [exec] touches no task object but the active task of the
    worker. *)
Lemma exec_touches_only_active (fuel i : nat) (s s' : exec_state T) (o : exec_outcome)
    (b : nat) :
  exec_iteration cancelled run fuel i s = Ok (s', o) →
  iActiveTask (thread_at (pool s) i) ≠ Some b →
  tasks s' !! b = tasks s !! b.
Proof.
  unfold exec_iteration, exec_release. intros H Hb.
  destruct (negb _); [injection H as <- <-; reflexivity | ].
  destruct (iStopped _); [injection H as <- <-; reflexivity | ].
  destruct (iActiveTask (thread_at (pool s) i)) as [a | ]; [ | discriminate].
  destruct (tasks s !! a) as [t | ]; [ | discriminate].
  destruct (negb (cancelled t)).
  - destruct ((run t).2).
    + injection H as <- <-. cbn [tasks]. apply lookup_insert_ne. congruence.
    + cbn [pool tasks run_calls skipped] in H. unfold bind in H.
      destruct (release _ i) as [p1 | | ]; try discriminate.
      destruct (next_task fuel p1 i) as [p2 | | ]; try discriminate.
      injection H as <- <-. cbn [tasks]. apply lookup_insert_ne. congruence.
  - cbn [pool tasks run_calls skipped] in H. unfold bind in H.
    destruct (release _ i) as [p1 | | ]; try discriminate.
    destruct (next_task fuel p1 i) as [p2 | | ]; try discriminate.
    injection H as <- <-. reflexivity.
Qed.
End Touch.



(** Before the turn the future of the cancelled task is not signalled,
    and the task has not been run; after it the task has still not been
    run. *)
Example cancelled_task_is_skipped :
  future_signalled cancelled_state 0 = false ∧
  ∃ s' t',
    exec_iteration task_cancelled task_run 2 0 cancelled_state = Ok (s', Continued) ∧
    tasks s' !! 0 = Some t' ∧ runs t' = 0 ∧ run_calls s' = [] ∧
    future_signalled s' 0 = true.
Proof. split; [reflexivity | ]. eexists _, _. repeat split. Qed.

Section TurnFacts.

Context {T : Type} (cancelled : T → bool) (run : T → T * option nat).

(** X9.  After [stop] the pool takes and runs nothing more: [start]
    returns without adding the task, [try_start] refuses, and the turn of
    every worker returns from [exec] without running or releasing a
    task, so the tasks still held, active or queued, stay where they
    are. *)
Theorem stop_ends_work (fuel : nat) (p : thread_pool) (aTask : task_pointer) (aPriority : Z) :
  stopped p = false →
  start fuel (stop p) aTask aPriority = Ok (stop p) ∧
  try_start fuel (stop p) aTask aPriority = Ok (stop p, false) ∧
  all_tasks (stop p) = all_tasks p ∧
  ∀ (i : nat) (ts : gmap nat T) (calls sk : list nat),
    i < length (iThreads p) →
    exec_iteration cancelled run fuel i
      {| pool := stop p; tasks := ts; run_calls := calls; skipped := sk |}
    = Ok ({| pool := stop p; tasks := ts; run_calls := calls; skipped := sk |}, Returned).
Proof.
  intros Hst. pose proof (stopped_stop p) as Hs.
  split; [unfold start; rewrite Hs; reflexivity | ].
  split; [unfold try_start; rewrite Hs; reflexivity | ].
  split; [apply all_tasks_stop | ].
  intros i ts calls sk Hi. unfold exec_iteration. cbn [pool].
  assert (iStopped (thread_at (stop p) i) = true) as ->.
  { unfold stop. rewrite Hst. unfold thread_at. cbn [iThreads].
    rewrite list_lookup_fmap. destruct (iThreads p !! i) as [t | ] eqn:Ht.
    - cbn. unfold thread_stop. destruct (iStopped t) eqn:E; [exact E | reflexivity].
    - apply lookup_ge_None in Ht. lia. }
  rewrite orb_true_r. reflexivity.
Qed.


End TurnFacts.

(** X2.  A worker that has finished its task ([release], then
    [next_task]) goes on with the front of its own queue; when its queue
    is empty it takes the front of the queue of the first other worker,
    in the order of creation, that has a task waiting, and has it as its
    active task at once; when no worker has a task waiting it stays
    without one.  Two levels of [next_task] are enough for this. *)
Theorem worker_turn fuel p i a :
  i < length (iThreads p) → iActiveTask (thread_at p i) = Some a →
  ∃ p1, release p i = Ok p1 ∧ next_task (S (S fuel)) p1 i = Ok (after_turn p i).
Proof.
  intros Hi Ha.
  assert (release p i = Ok (with_thread p i (set_active None))) as Hrel.
  { unfold release. rewrite Ha. reflexivity. }
  destruct (next_task_total fuel (with_thread p i (set_active None)) i) as [p2 Hp2].
  { rewrite length_with_thread. exact Hi. }
  { unfold active. rewrite thread_at_with_thread_eq by exact Hi. reflexivity. }
  destruct (turn_exact _ _ _ _ _ Hrel Hp2) as (_ & _ & <-). eauto.
Qed.

Lemma worker_turn_witness :
  ∃ p1, release pool4 0 = Ok p1 ∧ next_task 2 p1 0 = Ok (after_turn pool4 0).
Proof. apply (worker_turn 0 pool4 0 0); [simpl; lia | reflexivity]. Defined.

(** The first worker of [pool4] has nothing queued and takes task 2 from
    the second. *)
Example worker_steals :
  after_turn pool4 0
  = {| iThreads := [ {| iWaitingTasks := []; iActiveTask := Some 2; iStopped := false |};
                     {| iWaitingTasks := [(Some 3, 1%Z)]; iActiveTask := Some 1;
                        iStopped := false |} ];
       iMaxThreads := 2; pool_iStopped := false; iIdle := false |}.
Proof. reflexivity. Qed.

Lemma tidy_pool4 : tidy pool4.
Proof. repeat constructor; cbn; try discriminate. Defined.

Lemma tidy_pool3 : tidy pool3.
Proof. repeat constructor; cbn; discriminate. Defined.

(** X3.  A pool in which no null pointer is queued and no task waits on
    a worker that is not active stays so under [reserve], under [start]
    of a task that is not null, and under the turn of a worker
    ([release], then [next_task]). *)
Theorem tidy_kept (p : thread_pool) :
  tidy p →
  (∀ n p', reserve (S n) n p = Ok p' → tidy p') ∧
  (∀ fuel aTask aPriority p',
     aTask ≠ None → start fuel p aTask aPriority = Ok p' → tidy p') ∧
  (∀ fuel i p1 p2, release p i = Ok p1 → next_task fuel p1 i = Ok p2 → tidy p2).
Proof.
  intros Ht. split; [ | split].
  - intros n p' Hr. exact (tidy_reserve n p p' Hr Ht).
  - intros fuel aTask aPriority p' Hn Hs. exact (tidy_start fuel p aTask aPriority p' Hn Hs Ht).
  - intros fuel i p1 p2 Hr Hn. destruct (turn_exact _ _ _ _ _ Hr Hn) as (Hi & _ & ->).
    apply tidy_after_turn; assumption.
Qed.

Lemma tidy_kept_witness :
  tidy pool4 ∧
  ∃ p1 p2, release pool4 1 = Ok p1 ∧ next_task 1 p1 1 = Ok p2 ∧ tidy p2.
Proof.
  split; [exact tidy_pool4 | ].
  eexists _, _. split; [reflexivity | ]. split; [reflexivity | ].
  destruct (tidy_kept pool4 tidy_pool4) as (_ & _ & H).
  apply (H 1 1 _ _ eq_refl eq_refl).
Defined.

Lemma busy_first_pool4 : busy_first pool4.
Proof.
  apply busy_first_all_active. intros [ | [ | k]]; cbn; intros Hk; try discriminate. lia.
Defined.

(** X4.  Work stealing keeps the workers busy: in a pool whose workers
    stay the same, if no task waits while a worker has nothing to do,
    then that is still so after [start], of any task pointer; and, as
    long as no null pointer is queued, after the turn of a worker
    ([release], then [next_task]).  (A queued null pointer that a turn
    promotes leaves the worker without a task while others wait; and
    [reserve] can add workers that have nothing to do while tasks
    wait.) *)
Theorem busy_first_kept (p : thread_pool) :
  busy_first p →
  (∀ fuel aTask aPriority p', start fuel p aTask aPriority = Ok p' → busy_first p') ∧
  (no_null_queued p →
   ∀ fuel i p1 p2, release p i = Ok p1 → next_task fuel p1 i = Ok p2 → busy_first p2).
Proof.
  intros Hb. split.
  - intros fuel aTask aPriority p' Hs. exact (start_keeps_busy_first _ _ _ _ _ Hs Hb).
  - intros Ht fuel i p1 p2 Hr Hn. destruct (turn_exact _ _ _ _ _ Hr Hn) as (Hi & Ha & ->).
    apply after_turn_keeps_busy_first; assumption.
Qed.

Lemma no_null_pool4 : no_null_queued pool4.
Proof. exact (proj1 (proj1 (tidy_halves pool4) tidy_pool4)). Defined.

Lemma busy_first_kept_witness :
  busy_first pool4 ∧ no_null_queued pool4 ∧
  (∃ p', start 1 pool4 None 0%Z = Ok p' ∧ busy_first p') ∧
  ∃ p1 p2, release pool4 0 = Ok p1 ∧ next_task 2 p1 0 = Ok p2 ∧ busy_first p2.
Proof.
  split; [exact busy_first_pool4 | ]. split; [exact no_null_pool4 | ].
  destruct (busy_first_kept pool4 busy_first_pool4) as (Hs & Ht).
  split.
  - eexists. split; [reflexivity | ]. apply (Hs 1 None 0%Z _ eq_refl).
  - eexists _, _. split; [reflexivity | ]. split; [reflexivity | ].
    apply (Ht no_null_pool4 2 0 _ _ eq_refl eq_refl).
Defined.

(** With a null pointer queued the turn of a worker can leave that
    worker without a task while a task waits: the worker steals the null
    pointer and has it as its active task. *)
Example null_pointer_breaks_busy_first :
  (∃ p0 p1 p2 p3,
     reserve 3 2 new_pool = Ok p0 ∧ start 2 p0 (Some 0) 0%Z = Ok p1 ∧
     start 2 p1 (Some 1) 0%Z = Ok p2 ∧ start 2 p2 None 5%Z = Ok p3 ∧
     start 2 p3 (Some 2) 0%Z = Ok pool_null) ∧
  busy_first pool_null ∧
  ∃ p1 p2, release pool_null 1 = Ok p1 ∧ next_task 2 p1 1 = Ok p2 ∧ ¬ busy_first p2.
Proof.
  split; [eexists _, _, _, _; repeat split | ].
  split.
  - apply busy_first_all_active. intros [ | [ | k]]; cbn; intros Hk; try discriminate. lia.
  - eexists _, _. split; [reflexivity | ]. split; [reflexivity | ].
    intros H. assert (Forall (λ t, iWaitingTasks t = []) (iThreads
      {| iThreads := [ {| iWaitingTasks := [(Some 2, 0%Z)]; iActiveTask := Some 0;
                          iStopped := false |};
                       {| iWaitingTasks := []; iActiveTask := None; iStopped := false |} ];
         iMaxThreads := 2; pool_iStopped := false; iIdle := false |})) as Hall.
    { apply H. eexists. split; [right; left | reflexivity]. }
    apply Forall_cons in Hall as [Hq _]. discriminate Hq.
Qed.

Lemma start_adds_one_task_witness :
  ∃ p', start 1 pool4 (Some 9) 3%Z = Ok p' ∧ all_tasks p' ≡ₚ [9; 0; 1; 2; 3].
Proof.
  eexists. split; [reflexivity | ].
  apply (start_adds_one_task 1 pool4 (Some 9) 3%Z); reflexivity.
Defined.

(** X6.  The turn of a worker ([release], then [next_task]) takes the
    task the worker has finished out of the pool and no other: the tasks
    held afterwards, with the finished one, are those held before,
    whether the worker went on with its own queue or stole from
    another. *)
Theorem turn_removes_one_task fuel p i a p1 p2 :
  iActiveTask (thread_at p i) = Some a →
  release p i = Ok p1 → next_task fuel p1 i = Ok p2 →
  a :: all_tasks p2 ≡ₚ all_tasks p.
Proof.
  intros Ha Hr Hn. destruct (turn_exact _ _ _ _ _ Hr Hn) as (Hi & _ & ->).
  apply after_turn_keeps_tasks; assumption.
Qed.

Lemma turn_removes_one_task_witness :
  ∃ p1 p2, release pool4 0 = Ok p1 ∧ next_task 2 p1 0 = Ok p2 ∧
           0 :: all_tasks p2 ≡ₚ [0; 1; 2; 3].
Proof.
  eexists _, _. split; [reflexivity | ]. split; [reflexivity | ].
  eapply (turn_removes_one_task 2 pool4 0 0); reflexivity.
Defined.

(** A pool that comes about: two workers reserved, one task started *)
Lemma reachable_example :
  ∃ p1 p2, reserve 3 2 new_pool = Ok p1 ∧ start 1 p1 (Some 0) 0%Z = Ok p2 ∧ reachable p2.
Proof.
  set (p1 := {| iThreads := [new_thread; new_thread]; iMaxThreads := 2;
                pool_iStopped := false; iIdle := true |}).
  set (p2 := {| iThreads := [ {| iWaitingTasks := []; iActiveTask := Some 0;
                                 iStopped := false |}; new_thread ];
                iMaxThreads := 2; pool_iStopped := false; iIdle := false |}).
  assert (reserve 3 2 new_pool = Ok p1) as H1 by reflexivity.
  assert (start 1 p1 (Some 0) 0%Z = Ok p2) as H2 by reflexivity.
  exists p1, p2. split; [exact H1 | ]. split; [exact H2 | ].
  exact (reachable_start p1 p2 1 (Some 0) 0%Z
           (reachable_reserve new_pool p1 2 reachable_new H1) H2).
Defined.

Lemma idle_flag_accurate_witness :
  ∃ p1 p2, reserve 3 2 new_pool = Ok p1 ∧ start 1 p1 (Some 0) 0%Z = Ok p2 ∧
           pool_idle p2 = forallb idle (iThreads p2).
Proof.
  destruct reachable_example as (p1 & p2 & H1 & H2 & Hr).
  exists p1, p2. split; [exact H1 | ]. split; [exact H2 | ].
  exact (idle_flag_accurate p2 Hr).
Defined.

Lemma reachable_sorted_witness :
  ∃ p1 p2, reserve 3 2 new_pool = Ok p1 ∧ start 1 p1 (Some 0) 0%Z = Ok p2 ∧ pool_sorted p2.
Proof.
  destruct reachable_example as (p1 & p2 & H1 & H2 & Hr).
  exists p1, p2. split; [exact H1 | ]. split; [exact H2 | ].
  exact (reachable_sorted p2 Hr).
Defined.

Lemma try_start_starts_or_refuses_witness :
  try_start 1 pool3 (Some 9) 0%Z
  = Ok (update_idle (with_thread pool3 1 (set_active (Some 9))), true) ∧
  try_start 1 pool4 (Some 9) 0%Z = Ok (pool4, false).
Proof.
  split.
  - destruct (try_start_starts_or_refuses 0 pool3 (Some 9) 0%Z) as (_ & _ & H).
    + reflexivity.
    + cbn. lia.
    + exact (proj2 (proj1 (tidy_halves pool3) tidy_pool3)).
    + apply (H eq_refl 1); [cbn; lia | reflexivity | ].
      intros [ | k] Hk; [discriminate | lia].
  - destruct (try_start_starts_or_refuses 1 pool4 (Some 9) 0%Z) as (_ & H & _).
    + reflexivity.
    + cbn. lia.
    + exact (proj2 (proj1 (tidy_halves pool4) tidy_pool4)).
    + apply H. repeat constructor; discriminate.
Defined.

Lemma stop_ends_work_witness :
  start 1 (stop pool4) (Some 9) 0%Z = Ok (stop pool4) ∧
  try_start 1 (stop pool4) (Some 9) 0%Z = Ok (stop pool4, false) ∧
  all_tasks (stop pool4) = all_tasks pool4 ∧
  ∀ (i : nat) (ts : gmap nat nat) (calls sk : list nat),
    i < length (iThreads pool4) →
    exec_iteration (λ _, false) counting_run 1 i
      {| pool := stop pool4; tasks := ts; run_calls := calls; skipped := sk |}
    = Ok ({| pool := stop pool4; tasks := ts; run_calls := calls; skipped := sk |}, Returned).
Proof. apply (stop_ends_work (λ _, false) counting_run 1 pool4 (Some 9) 0%Z). reflexivity. Defined.


End PoolFacts.

(** ** Events *)

Module EventFacts.

Import Event.

(** *** [enqueue] *)

Section EnqueueFacts.

Context (P : platform) (call : nat → world → world * status unit).

Lemma enqueue_inline (w : world) (h : handler) (tr : option Z) :
  calls_inline P w h false = true →
  enqueue P call w h false tr
  = match call (callable h) (log_invoke (callable h) w) with
    | (w', Ret _) => (w', Ret None)
    | (w', Exn e) => (w', Exn e)
    | (w', Undefined) => (w', Undefined)
    | (w', Stuck) => (w', Stuck)
    end.
Proof. intros H. unfold enqueue. rewrite H. reflexivity. Qed.

(** C7.  In the dispatch of [sync_trigger], for a handler that is not
    tagged same-thread-as-emitter: when the handler's queue is destroyed,
    [enqueue] throws [event_queue_destroyed] if [ignoreErrors] is unset,
    and returns without calling the callable and without touching the
    world if it is set; when the queue is alive, [enqueue] either puts a
    callback on that queue and returns, or calls the callable inline, and
    then whatever it throws is what the callable threw.  [ignore_errors]
    sets the flag. *)
Theorem enqueue_on_destroyed_queue (w : world) (h : handler) (tr : option Z) :
  handleInSameThreadAsEmitter h = false →
  (queueDestroyed w h = true → ignoreErrors (instance w) = false →
   enqueue P call w h false tr = (w, Exn event_queue_destroyed)) ∧
  (queueDestroyed w h = true → ignoreErrors (instance w) = true →
   enqueue P call w h false tr = (w, Ret None)) ∧
  (queueDestroyed w h = false → queue h ≠ emitterQueue P →
   ∃ w' t, enqueue P call w h false tr = (w', Ret (Some t)) ∧
           invoked w' = invoked w) ∧
  (queueDestroyed w h = false → queue h = emitterQueue P →
   ∀ w' e, enqueue P call w h false tr = (w', Exn e) →
           call (callable h) (log_invoke (callable h) w) = (w', Exn e)) ∧
  ignoreErrors (instance (ignore_errors w)) = true.
Proof.
  intros Hsame. unfold enqueue, calls_inline. rewrite Hsame. cbn [negb orb andb].
  repeat split.
  - intros -> ->. reflexivity.
  - intros -> ->. reflexivity.
  - intros -> Hq. rewrite bool_decide_eq_false_2 by exact Hq. cbn [negb andb].
    unfold enqueue_on. destruct (queue_enqueue P _ _ _ _) as [q' t].
    eexists _, _. split; reflexivity.
  - intros -> Hq w' e. rewrite bool_decide_eq_true_2 by exact Hq. cbn [negb andb].
    destruct (call _ _) as [w2 [ | | | ]]; intros [= <- <-]; reflexivity.
Qed.

End EnqueueFacts.

Lemma enqueue_on_destroyed_queue_witness :
  let P := spec_platform 0 true in
  let call := λ (_ : nat) (w : world), (w, Ret tt) in
  (queueDestroyed remote_world remote_handler = true →
   ignoreErrors (instance remote_world) = false →
   enqueue P call remote_world remote_handler false None
   = (remote_world, Exn event_queue_destroyed)) ∧
  (queueDestroyed remote_world remote_handler = true →
   ignoreErrors (instance remote_world) = true →
   enqueue P call remote_world remote_handler false None = (remote_world, Ret None)) ∧
  (queueDestroyed remote_world remote_handler = false →
   queue remote_handler ≠ emitterQueue P →
   ∃ w' t, enqueue P call remote_world remote_handler false None = (w', Ret (Some t)) ∧
           invoked w' = invoked remote_world) ∧
  (queueDestroyed remote_world remote_handler = false →
   queue remote_handler = emitterQueue P →
   ∀ w' e, enqueue P call remote_world remote_handler false None = (w', Exn e) →
           call (callable remote_handler) (log_invoke (callable remote_handler) remote_world)
           = (w', Exn e)) ∧
  ignoreErrors (instance (ignore_errors remote_world)) = true.
Proof.
  intros P call.
  apply (enqueue_on_destroyed_queue P call remote_world remote_handler None).
  reflexivity.
Defined.

(** With the flag unset the delivery throws; after [ignore_errors] it is
    dropped. *)
Example destroyed_queue_throws_or_drops :
  let P := spec_platform 0 true in
  let call := λ (_ : nat) (w : world), (w, Ret tt) in
  enqueue P call remote_world remote_handler false None
  = (remote_world, Exn event_queue_destroyed) ∧
  enqueue P call (ignore_errors remote_world) remote_handler false None
  = (ignore_errors remote_world, Ret None).
Proof. split; reflexivity. Qed.


Lemma uint64_succ (z : Z) : 0 ≤ z < 2 ^ 64 - 1 → uint64 (z + 1) = z + 1.
Proof. intros H. unfold uint64. apply Z.mod_small. lia. Qed.


(** The instance data of a world built with the setters *)
Lemma instance_update f w : instance (update f w) = f (instance w).
Proof. reflexivity. Qed.
Lemma instance_log_invoke c w : instance (log_invoke c w) = instance w.
Proof. reflexivity. Qed.
Lemma instance_log_dispatch t c w : instance (log_dispatch t c w) = instance w.
Proof. reflexivity. Qed.
Lemma instance_set_queues qs w : instance (set_queues qs w) = instance w.
Proof. reflexivity. Qed.

Lemma instance_set_instance d w : instance (set_instance d w) = d.
Proof. reflexivity. Qed.

Create Rewrite HintDb world.
#[local] Hint Rewrite instance_set_instance instance_update instance_log_invoke instance_log_dispatch
  instance_set_queues : world.

(** Reduction of the projections of a world built with the setters *)
Ltac wsimpl :=
  unfold pop_context, push_context, unqueue, end_triggering in *;
  repeat progress
    (autorewrite with world in *;
     cbn [update set_instance iInstanceData iNextCookie destroyed queues
          queuesDestroyed dispatched invoked
          set_handlers set_contexts set_triggering set_instance_triggerId
          set_handlersChanged set_ignoreErrors set_triggerType set_filterCount
          ignoreErrors triggerType handlers contexts triggering instance_triggerId
          handlersChanged filterCount
          set_triggerId queue referenceCount clientId callable handleInSameThreadAsEmitter
          handlerIsStateless triggerId
          set_accepted accepted context_handlersChanged
          log_dispatch log_invoke set_queues push_context pop_context unqueue
          fst snd] in * ).

(** *** Finding a handler by its cookie *)

Lemma find_handler_None (k : cookie) (hs : list (cookie * handler)) :
  find_handler k hs = None ↔ k ∉ hs.*1.
Proof.
  induction hs as [ | [k0 h0] hs IH]; cbn [find_handler fmap list_fmap fst].
  - split; [intros _ H; inversion H | reflexivity].
  - rewrite not_elem_of_cons. destruct (Z.eqb_spec k0 k) as [-> | Hne].
    + split; [discriminate | intros [H _]; congruence].
    + destruct (find_handler k hs); cbn.
      * split; [discriminate | ]. intros [_ H]. apply IH in H. discriminate.
      * split; [ | reflexivity]. intros _. split; [congruence | ]. apply IH. reflexivity.
Qed.

Lemma find_handler_Some (k : cookie) (hs : list (cookie * handler)) (i : nat) :
  find_handler k hs = Some i →
  ∃ h, hs !! i = Some (k, h) ∧ ∀ j x, (j < i)%nat → hs !! j = Some x → x.1 ≠ k.
Proof.
  revert i. induction hs as [ | [k0 h0] hs IH]; intros i; cbn [find_handler fst];
    [discriminate | ].
  destruct (Z.eqb_spec k0 k) as [-> | Hne].
  - intros [= <-]. exists h0. split; [reflexivity | ]. intros j x Hj. lia.
  - destruct (find_handler k hs) as [i' | ]; [ | discriminate]. cbn. intros [= <-].
    destruct (IH i' eq_refl) as (h & Hh & Hbefore). exists h. split; [exact Hh | ].
    intros [ | j] x Hj Hx; [injection Hx as <-; exact Hne | ].
    apply (Hbefore j x); [lia | exact Hx].
Qed.

Lemma find_handler_lookup (hs : list (cookie * handler)) (i : nat) (k : cookie) (h : handler) :
  NoDup hs.*1 → hs !! i = Some (k, h) → find_handler k hs = Some i.
Proof.
  intros Hnd Hi. destruct (find_handler k hs) as [j | ] eqn:Hf.
  - destruct (find_handler_Some k hs j Hf) as (h' & Hj & _). f_equal.
    apply (NoDup_lookup hs.*1 j i k Hnd); rewrite list_lookup_fmap.
    + rewrite Hj. reflexivity.
    + rewrite Hi. reflexivity.
  - apply find_handler_None in Hf. exfalso. apply Hf.
    apply list_elem_of_fmap. exists (k, h). split; [reflexivity | ].
    eapply list_elem_of_lookup_2. exact Hi.
Qed.

Lemma find_handler_snoc (k : cookie) (h : handler) (hs : list (cookie * handler)) :
  k ∉ hs.*1 → find_handler k (hs ++ [(k, h)]) = Some (length hs).
Proof.
  intros Hk. induction hs as [ | [k0 h0] hs IH]; cbn [find_handler app fst length].
  - rewrite Z.eqb_refl. reflexivity.
  - cbn [fmap list_fmap fst] in Hk. apply not_elem_of_cons in Hk as [Hne Hk].
    destruct (Z.eqb_spec k0 k) as [-> | _]; [congruence | ].
    rewrite (IH Hk). reflexivity.
Qed.

Lemma get_handler_lookup (w : world) (i : nat) (k : cookie) (h : handler) :
  NoDup (handlers (instance w)).*1 → handlers (instance w) !! i = Some (k, h) →
  get_handler k w = Some (i, h).
Proof.
  intros Hnd Hi. unfold get_handler.
  rewrite (find_handler_lookup _ i k h Hnd Hi). cbn. rewrite Hi. reflexivity.
Qed.

Lemma get_handler_None (w : world) (k : cookie) :
  k ∉ (handlers (instance w)).*1 → get_handler k w = None.
Proof.
  intros Hk. unfold get_handler. rewrite (proj2 (find_handler_None _ _) Hk). reflexivity.
Qed.

Lemma uint32_fits (z : Z) : 0 ≤ z < 2 ^ 32 → uint32 z = z.
Proof. intros H. unfold uint32. apply Z.mod_small, H. Qed.

Lemma NoDup_fst_insert (hs : list (cookie * handler)) (i : nat) (k : cookie) (h h' : handler) :
  hs !! i = Some (k, h) → (<[i := (k, h')]> hs).*1 = hs.*1.
Proof.
  intros Hi. rewrite list_fmap_insert. apply list_insert_id.
  rewrite list_lookup_fmap, Hi. reflexivity.
Qed.

Lemma NoDup_delete_notin (hs : list (cookie * handler)) (i : nat) (k : cookie) (h : handler) :
  NoDup hs.*1 → hs !! i = Some (k, h) → k ∉ (delete i hs).*1.
Proof.
  intros Hnd Hi Hin.
  apply list_elem_of_fmap in Hin as ([k' h'] & Hk & Hin). cbn in Hk. subst k'.
  apply list_elem_of_lookup in Hin as [j Hj].
  rewrite list_lookup_delete in Hj.
  destruct (decide (j < i)%nat) as [Hlt | Hge].
  - assert (j = i); [ | lia].
    apply (NoDup_lookup hs.*1 j i k Hnd); rewrite list_lookup_fmap.
    + rewrite Hj. reflexivity.
    + rewrite Hi. reflexivity.
  - assert (S j = i); [ | lia].
    apply (NoDup_lookup hs.*1 (S j) i k Hnd); rewrite list_lookup_fmap.
    + rewrite Hj. reflexivity.
    + rewrite Hi. reflexivity.
Qed.

Lemma find_handler_snoc_Some (k : cookie) (h : handler) (hs : list (cookie * handler)) :
  ∃ i x, find_handler k (hs ++ [(k, h)]) = Some i ∧ (hs ++ [(k, h)]) !! i = Some x.
Proof.
  induction hs as [ | [k0 h0] hs (i & x & Hf & Hx)]; cbn [find_handler app fst].
  - rewrite Z.eqb_refl. eexists _, _. split; reflexivity.
  - destruct (k0 =? k); [eexists _, _; split; reflexivity | ].
    rewrite Hf. exists (S i), x. split; [reflexivity | exact Hx].
Qed.

(** The cookie reference made in [subscribe] is made without an
    exception: a handler with the cookie has just been added. *)
Lemma subscribe_ref_returns (P : platform) (aCallable aClientId : nat) (w : world) :
  let w1 := (next_cookie (invalidate_handler_list w)).1 in
  let id := (next_cookie (invalidate_handler_list w)).2 in
  (add_ref id
     (update (λ d, set_handlers
                     (handlers d ++ [(id, new_handler P id aClientId aCallable)]) d) w1)).2
  = Ret tt.
Proof.
  intros w1 id. unfold add_ref, get_handler. rewrite instance_update.
  cbn [set_handlers handlers].
  destruct (find_handler_snoc_Some id (new_handler P id aClientId aCallable)
              (handlers (instance w1))) as (i & x & -> & Hx).
  cbn [mbind option_bind]. rewrite Hx. reflexivity.
Qed.

(** The world after [add_ref], whether it throws or not, differs in the
    handlers at most. *)
Lemma add_ref_rest (k : cookie) (w : world) :
  ∃ hs, (add_ref k w).1 = update (set_handlers hs) w.
Proof.
  unfold add_ref. destruct (get_handler k w) as [[i h] | ].
  - eexists. reflexivity.
  - exists (handlers (instance w)). unfold touch, update. cbn [fst]. f_equal.
    destruct (instance w); reflexivity.
Qed.

(** [subscribe] changes the handlers, [handlersChanged] in the instance
    data and in the contexts, and [iNextCookie]. *)
Lemma subscribe_rest (P : platform) (c k : nat) (w : world) :
  ∃ hs, (subscribe P c k w).1
        = update (set_handlers hs) (next_cookie (invalidate_handler_list w)).1.
Proof.
  unfold subscribe, cookie_ref. cbn [next_cookie fst].
  match goal with
  | |- ∃ hs, (add_ref ?x ?w0).1 = _ => destruct (add_ref_rest x w0) as [hs Hhs]
  end.
  exists hs. rewrite Hhs. reflexivity.
Qed.

(** Where no cookie is beyond [iNextCookie], the handle that [subscribe]
    returns refers to the handler just made, which goes last and has
    the reference count 1. *)
Lemma subscribe_handlers (P : platform) (c k : nat) (w : world) :
  cookies_bounded w →
  handlers (instance (subscribe P c k w).1)
  = handlers (instance w)
      ++ [(iNextCookie w + 1, subscribed P (iNextCookie w + 1) k c)].
Proof.
  intros Hle.
  assert (iNextCookie w + 1 ∉ (handlers (instance w)).*1) as Hfresh.
  { intros Hin. apply list_elem_of_fmap in Hin as (x & Hx & Hin).
    unfold cookies_bounded in Hle. rewrite Forall_forall in Hle.
    specialize (Hle x Hin). cbn beta in Hle. lia. }
  unfold subscribe. cbn [next_cookie fst]. unfold cookie_ref.
  change (iNextCookie (invalidate_handler_list w)) with (iNextCookie w).
  set (id := iNextCookie w + 1) in *.
  match goal with |- context [add_ref id ?x] => set (w2 := x) end.
  assert (handlers (instance w2) = handlers (instance w) ++ [(id, new_handler P id k c)])
    as Hh2 by reflexivity.
  assert (get_handler id w2 = Some (length (handlers (instance w)), new_handler P id k c))
    as Hg.
  { unfold get_handler. rewrite Hh2, (find_handler_snoc _ _ _ Hfresh). cbn [mbind option_bind].
    rewrite lookup_app_r, Nat.sub_diag by lia. reflexivity. }
  unfold add_ref. rewrite Hg. cbn [fst]. rewrite instance_update.
  cbn [set_handlers handlers]. rewrite Hh2.
  replace (length (handlers (instance w))) with (length (handlers (instance w)) + 0)%nat
    by lia.
  rewrite insert_app_r. reflexivity.
Qed.

Lemma calls_inline_frame (P : platform) (w w' : world) (h h' : handler) (a : bool) :
  queuesDestroyed w' = queuesDestroyed w →
  queue h' = queue h →
  handleInSameThreadAsEmitter h' = handleInSameThreadAsEmitter h →
  calls_inline P w' h' a = calls_inline P w h a.
Proof.
  intros Hq Hh Hs. unfold calls_inline, queueDestroyed. rewrite Hq, Hh, Hs. reflexivity.
Qed.

Section Loop.

Context (P : platform).
Context (call : nat → world → world * status unit).

(** The three ways a turn of the loop of [sync_trigger] goes *)
Lemma loop_exit (fuel : nat) (w : world) (T : Z) (i : nat) (tr : option Z) :
  handlers (instance w) !! i = None →
  sync_trigger_loop P call (S fuel) w T i tr = (pop_context w, Ret true).
Proof. intros H. cbn [sync_trigger_loop]. rewrite H. reflexivity. Qed.

Lemma loop_skip (fuel : nat) (w : world) (T : Z) (i : nat) (tr : option Z)
    (id : cookie) (h : handler) :
  handlers (instance w) !! i = Some (id, h) → triggerId h = T →
  sync_trigger_loop P call (S fuel) w T i tr
  = sync_trigger_loop P call fuel w T (S i) tr.
Proof.
  intros H Ht. cbn [sync_trigger_loop]. rewrite H.
  rewrite (proj2 (Z.eqb_eq _ _) Ht). reflexivity.
Qed.

Lemma loop_dispatch (fuel : nat) (w : world) (T : Z) (i : nat) (tr : option Z)
    (id : cookie) (h : handler) :
  handlers (instance w) !! i = Some (id, h) → triggerId h ≠ T →
  sync_trigger_loop P call (S fuel) w T i tr
  = match enqueue P call (marked w T i id (mark T h)) (mark T h) false tr with
    | (w2, Exn e) => (pop_context w2, Exn e)
    | (w2, Undefined) => (w2, Undefined)
    | (w2, Stuck) => (w2, Stuck)
    | (w2, Ret transaction') =>
        if destroyed w2 then (w2, Ret true)
        else
          match last (contexts (instance w2)) with
          | None => (w2, Undefined)
          | Some c =>
              if accepted c then (pop_context w2, Ret false)
              else if handlersChanged (instance w2)
              then sync_trigger_loop P call fuel (update (set_handlersChanged false) w2)
                     T 0%nat transaction'
              else sync_trigger_loop P call fuel w2 T (S i) transaction'
          end
    end.
Proof.
  intros H Ht. cbn [sync_trigger_loop]. rewrite H.
  rewrite (proj2 (Z.eqb_neq _ _) Ht). reflexivity.
Qed.

(** C2, the general statement: when the callable of the handler at hand
    returns with the top context accepted, the loop pops that context and
    returns [false] without looking at another handler. *)
Lemma accepted_ends_loop (fuel : nat) (w w2 : world) (T : Z) (i : nat)
    (tr tr' : option Z) (id : cookie) (h : handler) (c : context) :
  handlers (instance w) !! i = Some (id, h) → triggerId h ≠ T →
  enqueue P call (marked w T i id (mark T h)) (mark T h) false tr = (w2, Ret tr') →
  destroyed w2 = false →
  last (contexts (instance w2)) = Some c → accepted c = true →
  sync_trigger_loop P call (S fuel) w T i tr = (pop_context w2, Ret false).
Proof.
  intros H Ht He Hd Hl Ha. rewrite (loop_dispatch fuel w T i tr id h H Ht).
  rewrite He, Hd, Hl, Ha. reflexivity.
Qed.


Lemma mark_lt (T : Z) (h : handler) : triggerId h < T → mark T h = set_triggerId T h.
Proof. intros H. unfold mark. rewrite (proj2 (Z.ltb_lt _ _) H). reflexivity. Qed.

Lemma removelast_snoc {A} (l : list A) (x : A) : removelast (l ++ [x]) = l.
Proof. apply removelast_last. Qed.

(** A turn for a handler whose callable is called inline and does
    nothing *)
Lemma loop_idle_handler (fuel : nat) (w : world) (T : Z) (i : nat) (tr : option Z)
    (id : cookie) (h : handler) (c : context) :
  handlers (instance w) !! i = Some (id, h) → triggerId h < T →
  calls_inline P w h false = true →
  (∀ w', call (callable h) w' = (w', Ret tt)) →
  destroyed w = false →
  last (contexts (instance w)) = Some c → accepted c = false →
  let w2 := log_invoke (callable h) (marked w T i id (set_triggerId T h)) in
  sync_trigger_loop P call (S fuel) w T i tr
  = if handlersChanged (instance w)
    then sync_trigger_loop P call fuel (update (set_handlersChanged false) w2) T 0%nat None
    else sync_trigger_loop P call fuel w2 T (S i) None.
Proof.
  intros H Ht Hin Hcall Hd Hl Ha w2.
  rewrite (loop_dispatch fuel w T i tr id h H) by lia.
  rewrite (mark_lt T h Ht).
  rewrite enqueue_inline
    by (rewrite <- Hin; apply calls_inline_frame; reflexivity).
  cbn [callable set_triggerId]. rewrite Hcall. fold w2.
  unfold w2, marked. wsimpl. rewrite Hd, Hl, Ha. reflexivity.
Qed.

(** A turn for a handler whose callable is called inline and accepts *)
Lemma loop_accepting_handler (fuel : nat) (w : world) (T : Z) (i : nat) (tr : option Z)
    (id : cookie) (h : handler) (cs : list context) (c : context) :
  handlers (instance w) !! i = Some (id, h) → triggerId h ≠ T →
  calls_inline P w h false = true →
  (∀ w', call (callable h) w' = accept w') →
  destroyed w = false →
  contexts (instance w) = cs ++ [c] →
  ∃ w', sync_trigger_loop P call (S fuel) w T i tr = (w', Ret false) ∧
        destroyed w' = false ∧
        invoked w' = invoked w ++ [callable h] ∧
        contexts (instance w') = cs ∧
        triggering (instance w') = triggering (instance w).
Proof.
  intros H Ht Hin Hcall Hd Hc.
  assert (callable (mark T h) = callable h ∧ queue (mark T h) = queue h ∧
          handleInSameThreadAsEmitter (mark T h) = handleInSameThreadAsEmitter h)
    as (Hm1 & Hm2 & Hm3) by (unfold mark; destruct (_ <? _); repeat split).
  eexists. split.
  - eapply accepted_ends_loop with (c := set_accepted true c); [exact H | exact Ht | | | | ].
    + rewrite enqueue_inline
        by (rewrite <- Hin; apply calls_inline_frame; [reflexivity | exact Hm2 | exact Hm3]).
      rewrite Hm1, Hcall. unfold accept, mark_back, marked. wsimpl.
      rewrite Hc, last_snoc. reflexivity.
    + wsimpl. exact Hd.
    + wsimpl. rewrite Hc, removelast_snoc, last_snoc. reflexivity.
    + reflexivity.
  - unfold marked. wsimpl. rewrite Hc, !removelast_snoc. repeat split. exact Hd.
Qed.

End Loop.



Lemma begin_triggering_spec (P : platform) (w : world) :
  Forall (λ x : cookie * handler, triggerId x.2 ≤ instance_triggerId (instance w))
    (handlers (instance w)) →
  0 ≤ instance_triggerId (instance w) < 2 ^ 64 - 1 →
  ∃ (w1 : world) (T : Z) (g : handler → handler),
    begin_triggering P w = (w1, T) ∧
    (g = (λ h, h) ∨ g = set_triggerId 0) ∧
    handlers (instance w1) = map (λ x, (x.1, g x.2)) (handlers (instance w)) ∧
    Forall (λ x : cookie * handler, triggerId x.2 < T) (handlers (instance w1)) ∧
    instance_triggerId (instance w1) = T ∧
    0 < T < 2 ^ 64 ∧
    contexts (instance w1) = contexts (instance w) ∧
    handlersChanged (instance w1) = handlersChanged (instance w) ∧
    filterCount (instance w1) = filterCount (instance w) ∧
    ignoreErrors (instance w1) = ignoreErrors (instance w) ∧
    destroyed w1 = destroyed w ∧
    queuesDestroyed w1 = queuesDestroyed w ∧
    invoked w1 = invoked w ∧
    dispatched w1 = dispatched w.
Proof.
  intros Hids Hrange. unfold begin_triggering. wsimpl.
  destruct (scoped_flag_value P (triggering (instance w))) eqn:Hsf; cbn [negb].
  - eexists _, _, (λ h, h). split; [reflexivity | ]. wsimpl.
    rewrite uint64_succ by exact Hrange.
    split; [left; reflexivity | ].
    split; [symmetry; etrans; [ | apply map_id]; apply map_ext; intros []; reflexivity | ].
    split; [eapply Forall_impl; [exact Hids | simpl; intros; lia] | ].
    repeat split; lia.
  - eexists _, _, (set_triggerId 0). split; [reflexivity | ]. wsimpl.
    change (uint64 (0 + 1)) with 1.
    split; [right; reflexivity | ].
    split; [reflexivity | ].
    split; [apply Forall_forall; intros x Hx; apply list_elem_of_fmap in Hx as (y & -> & _);
            simpl; lia | ].
    repeat split; lia.
Qed.

Section Accept.

Context (P : platform) (behaviour : nat → list action) (filters : list action).

Lemma run_nil (fuel : nat) (w : world) :
  run P behaviour filters (S fuel) [] w = (w, Ret tt).
Proof. reflexivity. Qed.

Lemma run_accept (fuel : nat) (w : world) :
  run P behaviour filters (S fuel) [Accept] w = accept w.
Proof.
  cbn [run run_script run_action continue_with]. unfold accept, mark_back.
  destruct (last _); cbn [continue_with]; [ | reflexivity].
  destruct (destroyed _); reflexivity.
Qed.

Lemma accept_scenario (fuel : nat) (w : world) (d : instance_data)
    (k1 k2 k3 : cookie) (h1 h2 h3 : handler) :
  iInstanceData w = Some d →
  destroyed w = false →
  filterCount d = 0 →
  handlers d = [(k1, h1); (k2, h2); (k3, h3)] →
  calls_inline P w h1 false = true →
  calls_inline P w h2 false = true →
  behaviour (callable h1) = [] →
  behaviour (callable h2) = [Accept] →
  Forall (λ x : cookie * handler, triggerId x.2 ≤ instance_triggerId d) (handlers d) →
  0 ≤ instance_triggerId d < 2 ^ 64 - 1 →
  ∃ w',
    event_sync_trigger P behaviour filters (3 + fuel) w = (w', Ret false) ∧
    invoked w' = invoked w ++ [callable h1; callable h2] ∧
    contexts (instance w') = contexts d ∧
    triggering (instance w') = triggering d.
Proof.
  intros Hd Hdes Hfc Hhs Hi1 Hi2 Hb1 Hb2 Hids Hrange.
  assert (instance w = d) as Hinst by (unfold instance; rewrite Hd; reflexivity).
  unfold event_sync_trigger, sync_trigger.
  unfold has_instance. rewrite Hd, bool_decide_eq_true_2 by discriminate. cbn [negb].
  set (w0 := if bool_decide (trigger_type w = SynchronousDontQueue) then unqueue P w else w).
  assert (instance w0 = d ∧ destroyed w0 = false ∧ queuesDestroyed w0 = queuesDestroyed w ∧
          invoked w0 = invoked w) as (Hinst0 & Hdes0 & Hqd0 & Hinv0).
  { unfold w0. destruct (bool_decide _); wsimpl; auto. }
  clearbody w0.
  rewrite Hinst0, Hhs. rewrite bool_decide_eq_false_2 by discriminate. cbn [andb].
  set (w1 := push_context w0).
  assert (instance w1 = set_contexts
            (contexts d ++ [{| accepted := false; context_handlersChanged := false |}]) d
          ∧ destroyed w1 = false ∧ queuesDestroyed w1 = queuesDestroyed w ∧
          invoked w1 = invoked w) as (Hinst1 & Hdes1 & Hqd1 & Hinv1).
  { unfold w1. wsimpl. rewrite Hinst0. auto. }
  clearbody w1.
  unfold filtered. rewrite Hinst1. wsimpl. rewrite Hfc. cbn [Z.ltb Z.compare].
  unfold sync_trigger_dispatch. rewrite Hinst1. wsimpl. rewrite Hhs.
  destruct (begin_triggering_spec P w1)
    as (w2 & T & g & Hbt & Hg & Hhs2 & Hlt & HT & HTr & Hcs2 & Hhc2 & _ & _ & Hdes2 & Hqd2
        & Hinv2 & _).
  { rewrite Hinst1. wsimpl. exact Hids. }
  { rewrite Hinst1. wsimpl. exact Hrange. }
  rewrite Hbt.
  assert (handlers (instance w2) = [(k1, g h1); (k2, g h2); (k3, g h3)]) as Hh2.
  { rewrite Hhs2, Hinst1. wsimpl. rewrite Hhs. reflexivity. }
  assert (contexts (instance w2)
          = contexts d ++ [{| accepted := false; context_handlersChanged := false |}])
    as Hc2.
  { rewrite Hcs2, Hinst1. reflexivity. }
  assert (destroyed w2 = false) as Hd2 by (rewrite Hdes2; exact Hdes1).
  assert (∀ h, callable (g h) = callable h ∧ queue (g h) = queue h ∧
               handleInSameThreadAsEmitter (g h) = handleInSameThreadAsEmitter h) as Hgf.
  { intros h. destruct Hg as [-> | ->]; repeat split. }
  assert (∀ h, calls_inline P w2 (g h) false = calls_inline P w h false) as Hgi.
  { intros h. destruct (Hgf h) as (_ & Hq & Hs). apply calls_inline_frame; try assumption.
    rewrite Hqd2. exact Hqd1. }
  rewrite Hh2 in Hlt. apply Forall_cons in Hlt as [Hlt1 Hlt]. apply Forall_cons in Hlt as [Hlt2 _].
  cbn [snd] in Hlt1, Hlt2.
  set (call := λ c : nat, run P behaviour filters (3 + fuel) (behaviour c)).
  set (filter := run P behaviour filters (3 + fuel) filters).
  (* the first handler *)
  change (3 + fuel)%nat with (S (S (S fuel))).
  rewrite (loop_idle_handler P call (S (S fuel)) w2 T 0 None k1 (g h1)
             {| accepted := false; context_handlersChanged := false |});
    [ | rewrite Hh2; reflexivity | exact Hlt1 | rewrite Hgi; exact Hi1
      | intros w'; unfold call; rewrite (proj1 (Hgf h1)), Hb1; reflexivity
      | exact Hd2 | rewrite Hc2; apply last_snoc | reflexivity ].
  set (w3 := log_invoke (callable (g h1)) (marked w2 T 0 k1 (set_triggerId T (g h1)))).
  assert (handlers (instance w3) = [(k1, set_triggerId T (g h1)); (k2, g h2); (k3, g h3)])
    as Hh3 by (unfold w3, marked; wsimpl; rewrite Hh2; reflexivity).
  assert (contexts (instance w3)
          = contexts d ++ [{| accepted := false; context_handlersChanged := false |}])
    as Hc3 by (unfold w3, marked; wsimpl; exact Hc2).
  assert (destroyed w3 = false) as Hd3 by (unfold w3, marked; wsimpl; exact Hd2).
  assert (invoked w3 = invoked w ++ [callable h1]) as Hinv3.
  { unfold w3, marked. wsimpl. rewrite Hinv2, Hinv1, (proj1 (Hgf h1)). reflexivity. }
  assert (calls_inline P w3 (g h2) false = true) as Hi3.
  { rewrite <- Hi2, <- (Hgi h2). apply calls_inline_frame; reflexivity. }
  assert (triggering (instance w3) = triggering (instance w2)) as Htr3
    by (unfold w3, marked; wsimpl; reflexivity).
  (* the second handler, at once or after the scan has started again *)
  assert (∃ w4, sync_trigger_loop P call (S (S fuel))
                  (update (set_handlersChanged false) w3) T 0 None = (w4, Ret false) ∧
                destroyed w4 = false ∧
                invoked w4 = invoked w3 ++ [callable (g h2)] ∧
                contexts (instance w4) = contexts d ∧
                triggering (instance w4) = triggering (instance w3)) as Hrestart.
  { rewrite (loop_skip P call (S fuel) _ T 0 None k1 (set_triggerId T (g h1)));
      [ | wsimpl; rewrite Hh3; reflexivity | reflexivity ].
    destruct (loop_accepting_handler P call fuel (update (set_handlersChanged false) w3)
                T 1 None k2 (g h2) (contexts d)
                {| accepted := false; context_handlersChanged := false |})
      as (w4 & Hl & Hd4 & Hinv4 & Hc4 & Htr4).
    - wsimpl. rewrite Hh3. reflexivity.
    - lia.
    - rewrite <- Hi3. apply calls_inline_frame; reflexivity.
    - intros w'. unfold call. rewrite (proj1 (Hgf h2)), Hb2. apply run_accept.
    - wsimpl. exact Hd3.
    - wsimpl. exact Hc3.
    - exists w4. wsimpl. auto. }
  assert (∃ w4, sync_trigger_loop P call (S (S fuel)) w3 T 1 None = (w4, Ret false) ∧
                destroyed w4 = false ∧
                invoked w4 = invoked w3 ++ [callable (g h2)] ∧
                contexts (instance w4) = contexts d ∧
                triggering (instance w4) = triggering (instance w3)) as Hnext.
  { apply (loop_accepting_handler P call (S fuel) _ T 1 None k2 (g h2) (contexts d)
             {| accepted := false; context_handlersChanged := false |}).
    - rewrite Hh3. reflexivity.
    - lia.
    - exact Hi3.
    - intros w'. unfold call. rewrite (proj1 (Hgf h2)), Hb2. apply run_accept.
    - exact Hd3.
    - exact Hc3. }
  destruct (handlersChanged (instance w2)).
  - destruct Hrestart as (w4 & -> & Hd4 & Hinv4 & Hc4 & Htr4).
    exists (end_triggering (triggering d) w4). split; [reflexivity | ].
    unfold end_triggering. rewrite Hd4. wsimpl.
    rewrite Hinv4, Hinv3, (proj1 (Hgf h2)), <- app_assoc. repeat split. exact Hc4.
  - destruct Hnext as (w4 & -> & Hd4 & Hinv4 & Hc4 & Htr4).
    exists (end_triggering (triggering d) w4). split; [reflexivity | ].
    unfold end_triggering. rewrite Hd4. wsimpl.
    rewrite Hinv4, Hinv3, (proj1 (Hgf h2)), <- app_assoc. repeat split. exact Hc4.
Qed.

End Accept.


Section AcceptClaim.

Context (P : platform) (behaviour : nat → list action) (filters : list action).

(** C2.  An event without filters has the handlers [h1], [h2], [h3], in
    that order; the callables of [h1] and [h2] are called inline, the
    first does nothing and the second calls [accept].  Then
    [sync_trigger] calls the callables of [h1] and [h2] and no other,
    returns [false], and leaves the context stack as it found it.  And in
    general: when the callable of the handler at hand returns with the
    top context accepted, the loop of [sync_trigger] pops that context
    and returns [false] at once. *)
Theorem accept_ends_dispatch (fuel : nat) (w : world) (d : instance_data)
    (k1 k2 k3 : cookie) (h1 h2 h3 : handler) :
  iInstanceData w = Some d →
  destroyed w = false →
  filterCount d = 0 →
  handlers d = [(k1, h1); (k2, h2); (k3, h3)] →
  calls_inline P w h1 false = true →
  calls_inline P w h2 false = true →
  behaviour (callable h1) = [] →
  behaviour (callable h2) = [Accept] →
  Forall (λ x : cookie * handler, triggerId x.2 ≤ instance_triggerId d) (handlers d) →
  0 ≤ instance_triggerId d < 2 ^ 64 - 1 →
  (∃ w',
     event_sync_trigger P behaviour filters (3 + fuel) w = (w', Ret false) ∧
     invoked w' = invoked w ++ [callable h1; callable h2] ∧
     contexts (instance w') = contexts d ∧
     triggering (instance w') = triggering d) ∧
  (∀ (call : nat → world → world * status unit) (n : nat) (w1 w2 : world) (T : Z)
     (i : nat) (tr tr' : option Z) (id : cookie) (h : handler) (c : context),
     handlers (instance w1) !! i = Some (id, h) → triggerId h ≠ T →
     enqueue P call (marked w1 T i id (mark T h)) (mark T h) false tr = (w2, Ret tr') →
     destroyed w2 = false →
     last (contexts (instance w2)) = Some c → accepted c = true →
     sync_trigger_loop P call (S n) w1 T i tr = (pop_context w2, Ret false)).
Proof.
  intros Hd Hdes Hfc Hhs Hi1 Hi2 Hb1 Hb2 Hids Hrange. split.
  - eapply accept_scenario; eassumption.
  - intros call n w1 w2 T i tr tr' id h c. apply accepted_ends_loop.
Qed.

End AcceptClaim.

Lemma accept_ends_dispatch_witness :
  let P := spec_platform 0 true in
  ∃ w', event_sync_trigger P accepting [] 3 (three_handlers P) = (w', Ret false) ∧
        invoked w' = [1; 2]%nat ∧
        contexts (instance w') = [] ∧
        triggering (instance w') = false.
Proof.
  intros P.
  destruct (accept_ends_dispatch P accepting [] 0 (three_handlers P)
              (instance (three_handlers P))
              1 2 3 (subscribed P 1 0 1) (subscribed P 2 0 2) (subscribed P 3 0 3))
    as [(w' & H1 & H2 & H3 & H4) _].
  - vm_compute. reflexivity.
  - vm_compute. reflexivity.
  - vm_compute. reflexivity.
  - vm_compute. reflexivity.
  - vm_compute. reflexivity.
  - vm_compute. reflexivity.
  - reflexivity.
  - reflexivity.
  - apply (bool_decide_unpack _). vm_compute. exact I.
  - apply (bool_decide_unpack _). vm_compute. exact I.
  - exists w'. split; [exact H1 | ].
    split; [rewrite H2; vm_compute; reflexivity | ].
    split; [rewrite H3; vm_compute; reflexivity | ].
    rewrite H4. vm_compute. reflexivity.
Defined.

(** *** The context stack *)

Lemma depth_step_frame {A} (w w' : world) (r : status A) :
  destroyed w' = destroyed w →
  filterCount (instance w') = filterCount (instance w) →
  length (contexts (instance w')) = length (contexts (instance w)) →
  depth_step 0 w (w', r).
Proof.
  intros Hd Hf Hc. split; cbn [fst snd].
  - congruence.
  - intros H0 _ _. split; [congruence | lia].
Qed.

Lemma depth_step_trans {A B} (n m : nat) (w w1 : world) (r1 : status A)
    (res : world * status B) :
  depth_step n w (w1, r1) → came_back r1 → depth_step m w1 res →
  depth_step (n + m) w res.
Proof.
  intros [Hd1 H1] Hr1 [Hd2 H2]. cbn [fst snd] in *. split; [tauto | ].
  intros H0 Hdes Hr.
  assert (destroyed w1 = false) as Hdes1.
  { destruct (destroyed w1); [specialize (Hd2 eq_refl); congruence | reflexivity]. }
  destruct (H1 H0 Hdes1 Hr1) as [Hf1 Hl1].
  destruct (H2 Hf1 Hdes Hr) as [Hf2 Hl2]. split; [exact Hf2 | lia].
Qed.

Lemma depth_step_stuck {A} (n : nat) (w w' : world) (r : status A) :
  (destroyed w = true → destroyed w' = true) → ¬ came_back r → depth_step n w (w', r).
Proof. intros Hd Hr. split; cbn [fst snd]; [exact Hd | tauto]. Qed.

Lemma depth_step_destroyed {A} (n : nat) (w w' : world) (r : status A) :
  destroyed w' = true → depth_step n w (w', r).
Proof. intros Hd. split; cbn [fst snd]; [auto | congruence]. Qed.

Lemma length_removelast_snoc {A} (l : list A) (x y : A) :
  last l = Some x → length (removelast l ++ [y]) = length l.
Proof.
  intros Hl. apply last_Some in Hl as [l' ->].
  rewrite removelast_last, !length_app. reflexivity.
Qed.

Lemma length_removelast_Some {A} (l : list A) (x : A) :
  last l = Some x → (length (removelast l) + 1 = length l)%nat.
Proof.
  intros Hl. apply last_Some in Hl as [l' ->].
  rewrite removelast_last, !length_app. reflexivity.
Qed.

Lemma mark_back_balanced b : balanced (mark_back b).
Proof.
  intros w. unfold mark_back. destruct (last _) as [c | ] eqn:Hl.
  - apply depth_step_frame; try reflexivity. wsimpl.
    eapply length_removelast_snoc. exact Hl.
  - apply depth_step_stuck; [tauto | cbn; tauto].
Qed.

Lemma pop_context_depth {A} (w : world) (r : status A) (c : context) :
  last (contexts (instance w)) = Some c → depth_step 1 w (pop_context w, r).
Proof.
  intros Hl. split; cbn [fst snd]; [tauto | ].
  intros H0 _ _. wsimpl. split; [exact H0 | ].
  eapply length_removelast_Some. exact Hl.
Qed.

Lemma depth_step_base {A} (n : nat) (w0 w : world) (res : world * status A) :
  destroyed w = destroyed w0 →
  filterCount (instance w) = filterCount (instance w0) →
  length (contexts (instance w)) = length (contexts (instance w0)) →
  depth_step n w res → depth_step n w0 res.
Proof.
  intros Hd Hf Hc [H1 H2]. split; [rewrite <- Hd; exact H1 | ].
  rewrite <- Hf, <- Hc. exact H2.
Qed.

Lemma depth_step_status {A B} (n : nat) (w w' : world) (r : status A) (r' : status B) :
  (came_back r' → came_back r) → depth_step n w (w', r) → depth_step n w (w', r').
Proof. intros Hr [H1 H2]. split; [exact H1 | ]. cbn [fst snd] in *. tauto. Qed.

Section Depth.

Context (P : platform).

Section Programs.

Context (strigger : world → world * status bool).
Context (atrigger : world → world * status unit).
Context (strigger_balanced : balanced strigger).
Context (atrigger_balanced : balanced atrigger).

Lemma run_action_balanced a : balanced (run_action P strigger atrigger a).
Proof.
  intros w. destruct a; cbn [run_action].
  - apply mark_back_balanced.
  - apply mark_back_balanced.
  - destruct (subscribe_rest P aCallable aClientId w) as [hs ->].
    apply depth_step_frame; try reflexivity.
    unfold next_cookie, invalidate_handler_list. wsimpl. apply length_map.
  - unfold unsubscribe. destruct (find_handler _ _).
    + apply depth_step_frame; try reflexivity.
      unfold invalidate_handler_list. wsimpl. apply length_map.
    + apply depth_step_stuck; [tauto | cbn; tauto].
  - apply depth_step_frame; try reflexivity.
    unfold unsubscribe_client, invalidate_handler_list. wsimpl. apply length_map.
  - apply depth_step_frame; reflexivity.
  - pose proof (strigger_balanced w) as H. destruct (strigger w) as [w' r].
    destruct r; cbn [forget]; (eapply depth_step_status; [ | exact H]); cbn; tauto.
  - apply atrigger_balanced.
  - apply depth_step_destroyed. reflexivity.
  - apply depth_step_frame; reflexivity.
Qed.

Lemma run_script_balanced s : balanced (run_script P strigger atrigger s).
Proof.
  induction s as [ | a s IH]; intros w; cbn [run_script].
  - apply depth_step_frame; reflexivity.
  - pose proof (run_action_balanced a w) as Ha.
    destruct (run_action P strigger atrigger a w) as [w1 r1].
    destruct r1 as [[] | e | | ]; cbn [continue_with]; try exact Ha.
    destruct (destroyed w1) eqn:Hd1; [apply depth_step_destroyed; exact Hd1 | ].
    apply (depth_step_trans 0 0 w w1 (Ret tt)); [exact Ha | exact I | apply IH].
Qed.

End Programs.

Section Triggers.

Context (call : nat → world → world * status unit).
Context (filter : world → world * status unit).
Context (call_balanced : ∀ c, balanced (call c)).
Context (filter_balanced : balanced filter).

Lemma enqueue_balanced h a tr : balanced (λ w, enqueue P call w h a tr).
Proof.
  intros w. unfold enqueue. destruct (calls_inline P w h a).
  - pose proof (call_balanced (callable h) (log_invoke (callable h) w)) as H.
    apply (depth_step_base 0 w) in H; try reflexivity.
    destruct (call _ _) as [w' r].
    destruct r; (eapply depth_step_status; [ | exact H]); cbn; tauto.
  - unfold enqueue_on. destruct (handleInSameThreadAsEmitter h).
    + destruct (queue_enqueue P _ _ _ _). apply depth_step_frame; reflexivity.
    + destruct (negb (queueDestroyed w h)).
      * destruct (queue_enqueue P _ _ _ _). apply depth_step_frame; reflexivity.
      * destruct (negb _); apply depth_step_frame; reflexivity.
Qed.

Lemma marked_depth {A} (n : nat) (w : world) T i k h (res : world * status A) :
  depth_step n (marked w T i k h) res → depth_step n w res.
Proof. apply depth_step_base; reflexivity. Qed.

Lemma sync_loop_depth fuel w T i tr :
  filterCount (instance w) = 0 → contexts (instance w) ≠ [] →
  depth_step 1 w (sync_trigger_loop P call fuel w T i tr).
Proof.
  revert w i tr. induction fuel as [ | fuel IH]; intros w i tr H0 Hne.
  - apply depth_step_stuck; [tauto | cbn; tauto].
  - assert (∃ c, last (contexts (instance w)) = Some c) as [c0 Hc0].
    { destruct (last _) eqn:Hl; [eauto | apply last_None in Hl; contradiction]. }
    destruct (handlers (instance w) !! i) as [[k h] | ] eqn:Hi.
    + destruct (decide (triggerId h = T)) as [Heq | Hneq].
      * rewrite (loop_skip P call fuel w T i tr k h Hi Heq). apply IH; assumption.
      * rewrite (loop_dispatch P call fuel w T i tr k h Hi Hneq).
        pose proof (enqueue_balanced (mark T h) false tr (marked w T i k (mark T h))) as He.
        cbn beta in He. apply marked_depth in He.
        destruct (enqueue P call _ _ false tr) as [w2 r2].
        destruct r2 as [tr' | e | | ].
        -- destruct (destroyed w2) eqn:Hd2; [apply depth_step_destroyed; exact Hd2 | ].
           destruct He as [Hm He]. cbn [fst snd] in Hm, He.
           destruct (He H0 Hd2 I) as [H02 Hl2].
           assert (contexts (instance w2) ≠ []) as Hne2.
           { intros Hnil. rewrite Hnil in Hl2. cbn in Hl2.
             apply Hne. apply length_zero_iff_nil. lia. }
           assert (depth_step 0 w (w2, Ret tr')) as He' by (split; [exact Hm | exact He]).
           destruct (last (contexts (instance w2))) as [c | ] eqn:Hl;
             [ | apply depth_step_stuck; [exact Hm | cbn; tauto]].
           destruct (accepted c).
           ++ apply (depth_step_trans 0 1 w w2 (Ret tr')); [exact He' | exact I | ].
              eapply pop_context_depth. exact Hl.
           ++ destruct (handlersChanged (instance w2)).
              ** apply (depth_step_trans 0 1 w w2 (Ret tr')); [exact He' | exact I | ].
                 apply (depth_step_base 1 w2 (update (set_handlersChanged false) w2));
                   try reflexivity.
                 apply IH; [exact H02 | exact Hne2].
              ** apply (depth_step_trans 0 1 w w2 (Ret tr')); [exact He' | exact I | ].
                 apply IH; [exact H02 | exact Hne2].
        -- split; cbn [fst snd]; [exact (proj1 He) | ].
           intros _ Hd2 _. destruct He as [_ He]. cbn [fst snd] in He.
           destruct (He H0 Hd2 I) as [H02 Hl2]. wsimpl. split; [exact H02 | ].
           rewrite <- Hl2.
           destruct (last (contexts (instance w2))) as [c | ] eqn:Hl.
           ++ rewrite Nat.add_0_r. eapply length_removelast_Some. exact Hl.
           ++ apply last_None in Hl. rewrite Hl in Hl2. cbn in Hl2.
              exfalso. apply Hne. apply length_zero_iff_nil. lia.
        -- apply depth_step_stuck; [exact (proj1 He) | cbn; tauto].
        -- apply depth_step_stuck; [exact (proj1 He) | cbn; tauto].
    + rewrite (loop_exit P call fuel w T i tr Hi). eapply pop_context_depth. exact Hc0.
Qed.

Lemma async_loop_depth fuel w T i tr :
  depth_step 0 w (async_trigger_loop P call fuel w T i tr).
Proof.
  revert w i tr. induction fuel as [ | fuel IH]; intros w i tr; cbn [async_trigger_loop].
  - apply depth_step_stuck; [tauto | cbn; tauto].
  - destruct (handlers (instance w) !! i) as [[k h] | ] eqn:Hi;
      [ | apply depth_step_frame; reflexivity].
    destruct (triggerId h =? T); [apply IH | ].
    pose proof (enqueue_balanced (mark T h) true tr (marked w T i k (mark T h))) as He.
    cbn beta in He. apply marked_depth in He.
    destruct (enqueue P call _ _ true tr) as [w2 r2].
    destruct r2 as [tr' | e | | ]; try exact He.
    destruct (destroyed w2) eqn:Hd2; [apply depth_step_destroyed; exact Hd2 | ].
    destruct (handlersChanged (instance w2)).
    + apply (depth_step_trans 0 0 w w2 (Ret tr')); [exact He | exact I | ].
      apply (depth_step_base 0 w2 (update (set_handlersChanged false) w2)); try reflexivity.
      apply IH.
    + apply (depth_step_trans 0 0 w w2 (Ret tr')); [exact He | exact I | apply IH].
Qed.

Lemma begin_triggering_frame w :
  destroyed (begin_triggering P w).1 = destroyed w ∧
  filterCount (instance (begin_triggering P w).1) = filterCount (instance w) ∧
  contexts (instance (begin_triggering P w).1) = contexts (instance w).
Proof.
  unfold begin_triggering. cbn zeta. wsimpl.
  destruct (negb _); wsimpl; repeat split.
Qed.

Lemma end_triggering_depth {A} (n : nat) (saved : bool) (w w' : world) (r : status A) :
  depth_step n w (w', r) → depth_step n w (end_triggering saved w', r).
Proof.
  unfold end_triggering. destruct (destroyed w') eqn:Hd; [tauto | ].
  intros [H1 H2]. cbn [fst snd] in *. split; cbn [fst snd]; wsimpl.
  - intros H. rewrite (H1 H) in Hd. discriminate.
  - intros H0 _ Hr. apply (H2 H0 Hd Hr).
Qed.

Lemma async_trigger_balanced fuel : balanced (async_trigger P call fuel).
Proof.
  intros w. unfold async_trigger.
  destruct (negb (has_instance w)); [apply depth_step_frame; reflexivity | ].
  set (w0 := if bool_decide (trigger_type w = AsynchronousDontQueue) then unqueue P w else w).
  assert (destroyed w0 = destroyed w ∧ filterCount (instance w0) = filterCount (instance w) ∧
          contexts (instance w0) = contexts (instance w)) as (Hd0 & Hf0 & Hc0)
    by (unfold w0; destruct (bool_decide _); repeat split).
  clearbody w0.
  apply (depth_step_base 0 w w0); [exact Hd0 | exact Hf0 | rewrite Hc0; reflexivity | ].
  destruct (handlers (instance w0)); [apply depth_step_frame; reflexivity | ].
  destruct (begin_triggering_frame w0) as (Hd1 & Hf1 & Hc1).
  destruct (begin_triggering P w0) as [w1 T]. cbn [fst] in Hd1, Hf1, Hc1.
  pose proof (async_loop_depth fuel w1 T 0 None) as Hl.
  destruct (async_trigger_loop P call fuel w1 T 0 None) as [w2 r].
  apply end_triggering_depth.
  apply (depth_step_base 0 w0 w1); [exact Hd1 | exact Hf1 | rewrite Hc1; reflexivity | exact Hl].
Qed.

Lemma sync_trigger_dispatch_depth fuel w :
  filterCount (instance w) = 0 → contexts (instance w) ≠ [] → handlers (instance w) ≠ [] →
  depth_step 1 w (sync_trigger_dispatch P call fuel w).
Proof.
  intros H0 Hne Hh. unfold sync_trigger_dispatch.
  destruct (handlers (instance w)); [congruence | ].
  destruct (begin_triggering_frame w) as (Hd1 & Hf1 & Hc1).
  destruct (begin_triggering P w) as [w1 T]. cbn [fst] in Hd1, Hf1, Hc1.
  pose proof (sync_loop_depth fuel w1 T 0 None) as Hl.
  destruct (sync_trigger_loop P call fuel w1 T 0 None) as [w2 r].
  apply end_triggering_depth.
  apply (depth_step_base 1 w w1); [exact Hd1 | exact Hf1 | rewrite Hc1; reflexivity | ].
  apply Hl; [rewrite Hf1; exact H0 | rewrite Hc1; exact Hne].
Qed.

Lemma sync_loop_mono fuel w T i tr :
  destroyed w = true → destroyed (sync_trigger_loop P call fuel w T i tr).1 = true.
Proof.
  revert w i tr. induction fuel as [ | fuel IH]; intros w i tr Hd; [exact Hd | ].
  cbn [sync_trigger_loop].
  destruct (handlers (instance w) !! i) as [[k h] | ]; [ | exact Hd].
  destruct (triggerId h =? T); [apply IH, Hd | ].
  pose proof (enqueue_balanced (mark T h) false tr (marked w T i k (mark T h))) as [He _].
  cbn beta in He. specialize (He Hd).
  destruct (enqueue P call _ _ false tr) as [w2 r2]. cbn [fst] in He.
  destruct r2; try exact He. rewrite He. exact He.
Qed.

Lemma sync_trigger_dispatch_mono fuel w :
  destroyed w = true → destroyed (sync_trigger_dispatch P call fuel w).1 = true.
Proof.
  intros Hd. unfold sync_trigger_dispatch.
  destruct (handlers (instance w)); [exact Hd | ].
  destruct (begin_triggering_frame w) as (Hd1 & _ & _).
  destruct (begin_triggering P w) as [w1 T]. cbn [fst] in Hd1.
  pose proof (sync_loop_mono fuel w1 T 0 None ltac:(congruence)) as Hl.
  destruct (sync_trigger_loop P call fuel w1 T 0 None) as [w2 r]. cbn [fst] in *.
  unfold end_triggering. rewrite Hl. exact Hl.
Qed.

Lemma sync_trigger_balanced fuel : balanced (sync_trigger P call filter fuel).
Proof.
  intros w. unfold sync_trigger.
  destruct (negb (has_instance w)); [apply depth_step_frame; reflexivity | ].
  set (w0 := if bool_decide (trigger_type w = SynchronousDontQueue) then unqueue P w else w).
  assert (destroyed w0 = destroyed w ∧ filterCount (instance w0) = filterCount (instance w) ∧
          contexts (instance w0) = contexts (instance w)) as (Hd0 & Hf0 & Hc0)
    by (unfold w0; destruct (bool_decide _); repeat split).
  clearbody w0.
  apply (depth_step_base 0 w w0); [exact Hd0 | exact Hf0 | rewrite Hc0; reflexivity | ].
  clear w Hd0 Hf0 Hc0.
  destruct (bool_decide (handlers (instance w0) = [])) eqn:Hh; cbn [andb].
  - (* no handler *)
    unfold filtered at 1. destruct (0 <? filterCount (instance w0)) eqn:Hf; cbn [negb];
      [ | apply depth_step_frame; reflexivity].
    assert (filtered (push_context w0) = true) as -> by exact Hf.
    lazy iota. split.
    + intros Hd. pose proof (filter_balanced (push_context w0)) as [Hm _].
      specialize (Hm Hd). destruct (filter (push_context w0)) as [w2 r]. cbn [fst] in Hm.
      destruct r as [[] | | | ]; try exact Hm. rewrite Hm. exact Hm.
    + intros H0. apply Z.ltb_lt in Hf. lia.
  - apply bool_decide_eq_false in Hh.
    assert (filtered (push_context w0) = (0 <? filterCount (instance w0))) as ->
      by reflexivity.
    destruct (0 <? filterCount (instance w0)) eqn:Hf; lazy iota.
    + split.
      * intros Hd. pose proof (filter_balanced (push_context w0)) as [Hm _].
        specialize (Hm Hd). destruct (filter (push_context w0)) as [w2 r]. cbn [fst] in Hm.
        destruct r as [[] | | | ]; try exact Hm. rewrite Hm. exact Hm.
      * intros H0. apply Z.ltb_lt in Hf. lia.
    + split.
      * intros Hd. apply sync_trigger_dispatch_mono. exact Hd.
      * intros H0 Hdes Hr.
        pose proof (sync_trigger_dispatch_depth fuel (push_context w0)) as [_ Hdepth].
        -- exact H0.
        -- unfold push_context. wsimpl. intros Hnil. apply app_eq_nil in Hnil as [_ Hnil].
           discriminate.
        -- exact Hh.
        -- destruct (Hdepth H0 Hdes Hr) as [Hf' Hl]. split; [exact Hf' | ].
           unfold push_context in Hl. wsimpl. rewrite length_app in Hl. cbn in Hl. lia.
Qed.

End Triggers.

End Depth.

Lemma run_balanced (P : platform) (behaviour : nat → list action) (filters : list action)
    (fuel : nat) (s : list action) :
  balanced (run P behaviour filters fuel s).
Proof.
  revert s. induction fuel as [ | fuel IH]; intros s; cbn [run].
  - intros w. apply depth_step_stuck; [tauto | cbn; tauto].
  - apply run_script_balanced.
    + apply sync_trigger_balanced; [intros c; apply IH | apply IH].
    + apply async_trigger_balanced. intros c; apply IH.
Qed.

(** X17.  On an event without filters, whatever its callables do,
    triggers inside triggers included, a [sync_trigger] that comes back,
    by return or by exception, with the event alive leaves the context
    stack as deep as it found it (the case in which C3 holds). *)
Theorem unfiltered_sync_trigger_balanced (P : platform) (behaviour : nat → list action)
    (filters : list action) (fuel : nat) (w w' : world) (r : status bool) :
  filterCount (instance w) = 0 →
  event_sync_trigger P behaviour filters fuel w = (w', r) →
  came_back r → destroyed w' = false →
  length (contexts (instance w')) = length (contexts (instance w)).
Proof.
  intros H0 Hrun Hr Hd.
  pose proof (sync_trigger_balanced P (λ c, run P behaviour filters fuel (behaviour c))
                (run P behaviour filters fuel filters)
                (λ c, run_balanced P behaviour filters fuel (behaviour c))
                (run_balanced P behaviour filters fuel filters) fuel w) as [_ H].
  unfold event_sync_trigger in Hrun. rewrite Hrun in H. cbn [fst snd] in H.
  destruct (H H0 Hd Hr) as [_ Hl]. lia.
Qed.

(** C3 fails on an event that has a filter and no handler: [sync_trigger]
    pushes a context, the filters run and neither accept nor destroy, and
    the second test for an empty handler list returns [true] with the
    context still on the stack. *)
Theorem filtered_without_handlers_leaks_context (P : platform)
    (call : nat → world → world * status unit) (fuel : nat) (w : world)
    (d : instance_data) :
  iInstanceData w = Some d →
  handlers d = [] →
  0 < filterCount d →
  triggerType d ≠ SynchronousDontQueue →
  sync_trigger P call (λ w', (w', Ret tt)) fuel w = (push_context w, Ret true) ∧
  destroyed (push_context w) = destroyed w ∧
  length (contexts (instance (push_context w))) = S (length (contexts (instance w))).
Proof.
  intros Hd Hhs Hfc Htt.
  assert (instance w = d) as Hinst by (unfold instance; rewrite Hd; reflexivity).
  split; [ | split; [reflexivity | ]].
  - unfold sync_trigger, has_instance.
    rewrite Hd, bool_decide_eq_true_2 by discriminate. cbn [negb].
    unfold trigger_type. rewrite Hinst, (bool_decide_eq_false_2 _ Htt).
    assert (instance (push_context w)
            = set_contexts
                (contexts d ++ [{| accepted := false; context_handlersChanged := false |}]) d)
      as Hinst1 by (unfold push_context; rewrite instance_update, Hinst; reflexivity).
    unfold filtered, sync_trigger_dispatch. rewrite Hinst, Hinst1, Hhs.
    cbn [filterCount set_contexts contexts handlers].
    rewrite Hhs, (proj2 (Z.ltb_lt _ _) Hfc).
    rewrite bool_decide_eq_true_2 by reflexivity. cbn [negb andb].
    rewrite last_snoc. cbn [accepted].
    destruct (destroyed (push_context w)); reflexivity.
  - unfold push_context. rewrite instance_update. cbn [contexts set_contexts].
    rewrite length_app. cbn [length]. lia.
Qed.

Lemma filtered_without_handlers_leaks_context_witness :
  let P := spec_platform 0 true in
  sync_trigger P (λ _ w', (w', Ret tt)) (λ w', (w', Ret tt)) 1 filtered_event
  = (push_context filtered_event, Ret true) ∧
  destroyed (push_context filtered_event) = destroyed filtered_event ∧
  length (contexts (instance (push_context filtered_event)))
  = S (length (contexts (instance filtered_event))).
Proof.
  intros P.
  apply (filtered_without_handlers_leaks_context P (λ _ w', (w', Ret tt)) 1 filtered_event
           (instance filtered_event)).
  - reflexivity.
  - reflexivity.
  - reflexivity.
  - discriminate.
Defined.

Example sync_trigger_leaks_context :
  let r := event_sync_trigger (spec_platform 0 true) (λ _, []) [] 1 filtered_event in
  r.2 = Ret true ∧
  contexts (instance filtered_event) = [] ∧
  contexts (instance r.1) = [{| accepted := false; context_handlersChanged := false |}].
Proof. vm_compute. auto. Qed.

(** *** Each handler at most once, without a trigger inside a trigger *)

Lemma quiet_step_refl w : quiet_step w w.
Proof.
  split; [lia | ]. split; [reflexivity | ]. split; [tauto | ]. split; [tauto | ].
  intros _. exists []. rewrite app_nil_r.
  repeat split; [reflexivity | constructor | constructor].
Qed.

Lemma quiet_step_bounded w w' : quiet_step w w' → cookies_bounded w → cookies_bounded w'.
Proof.
  intros (Hc & _ & _ & _ & H) Hb. destruct (H Hb) as (new & Hs & _ & Hf).
  unfold cookies_bounded in *. rewrite Forall_forall in *. intros x Hx.
  apply (sublist_subseteq _ _ Hs) in Hx. apply elem_of_app in Hx as [Hx | Hx].
  - specialize (Hb x Hx). cbn beta in Hb. lia.
  - specialize (Hf x Hx). cbn beta in Hf. lia.
Qed.

Lemma quiet_step_trans w1 w2 w3 : quiet_step w1 w2 → quiet_step w2 w3 → quiet_step w1 w3.
Proof.
  intros H12 H23.
  pose proof (quiet_step_bounded _ _ H12) as Hb2.
  destruct H12 as (Hc1 & Hd1 & Hm1 & Ht1 & H1). destruct H23 as (Hc2 & Hd2 & Hm2 & Ht2 & H2).
  split; [lia | ]. split; [congruence | ]. split; [tauto | ].
  split.
  { intros H3. assert (destroyed w2 = false) as Hdes2.
    { destruct (destroyed w2); [specialize (Hm2 eq_refl); congruence | reflexivity]. }
    rewrite Ht2, Ht1 by assumption. reflexivity. }
  intros Hb1.
  destruct (H1 Hb1) as (new1 & Hs1 & Hn1 & Hf1).
  destruct (H2 (Hb2 Hb1)) as (new2 & Hs2 & Hn2 & Hf2).
  exists (new1 ++ new2). split; [ | split].
  - etrans; [exact Hs2 | ]. rewrite app_assoc. apply sublist_app; [exact Hs1 | reflexivity].
  - rewrite fmap_app. apply NoDup_app. split; [exact Hn1 | split; [ | exact Hn2]].
    intros k Hk1 Hk2.
    apply list_elem_of_fmap in Hk1 as (x1 & -> & Hx1).
    apply list_elem_of_fmap in Hk2 as (x2 & Heq & Hx2).
    rewrite Forall_forall in Hf1, Hf2.
    specialize (Hf1 _ Hx1). specialize (Hf2 _ Hx2). cbn beta in *. lia.
  - apply Forall_app. split.
    + eapply Forall_impl; [exact Hf1 | ]. simpl. intros; lia.
    + eapply Forall_impl; [exact Hf2 | ]. simpl. intros; lia.
Qed.

(** A step that leaves the handlers, the cookies, the log and the
    lifetime alone *)
Lemma quiet_step_frame w w' :
  handlers (instance w') = handlers (instance w) →
  instance_triggerId (instance w') = instance_triggerId (instance w) →
  iNextCookie w' = iNextCookie w →
  dispatched w' = dispatched w →
  destroyed w' = destroyed w →
  quiet_step w w'.
Proof.
  intros Hh Ht Hc Hd Hdes. split; [lia | ]. split; [exact Hd | ].
  split; [congruence | ]. split; [intros _; exact Ht | ]. intros _.
  exists []. rewrite app_nil_r, Hh. repeat split; [reflexivity | constructor | constructor].
Qed.

Lemma quiet_step_sublist w w' :
  handlers (instance w') `sublist_of` handlers (instance w) →
  instance_triggerId (instance w') = instance_triggerId (instance w) →
  iNextCookie w' = iNextCookie w →
  dispatched w' = dispatched w →
  destroyed w' = destroyed w →
  quiet_step w w'.
Proof.
  intros Hh Ht Hc Hd Hdes. split; [lia | ]. split; [exact Hd | ].
  split; [congruence | ]. split; [intros _; exact Ht | ]. intros _.
  exists []. rewrite app_nil_r. repeat split; [exact Hh | constructor | constructor].
Qed.

Lemma mark_back_quiet b w w' r : mark_back b w = (w', r) → quiet_step w w'.
Proof.
  unfold mark_back. destruct (last _); intros [= <- <-].
  - apply quiet_step_frame; reflexivity.
  - apply quiet_step_refl.
Qed.

Lemma invalidate_quiet w : quiet_step w (invalidate_handler_list w).
Proof. apply quiet_step_frame; reflexivity. Qed.

Lemma subscribe_quiet P c k w : quiet_step w (subscribe P c k w).1.
Proof.
  pose proof (subscribe_handlers P c k w) as Hh.
  destruct (subscribe_rest P c k w) as [hs Hrest]. rewrite Hrest in *.
  split; [cbn; lia | ]. split; [reflexivity | ]. split; [cbn; tauto | ].
  split; [intros _; reflexivity | ].
  intros Hb. rewrite (Hh Hb).
  exists [(iNextCookie w + 1, subscribed P (iNextCookie w + 1) k c)]. split; [ | split].
  - reflexivity.
  - repeat constructor. intros H. inversion H.
  - repeat constructor; cbn; lia.
Qed.

Lemma unsubscribe_quiet k w w' r : unsubscribe k w = (w', r) → quiet_step w w'.
Proof.
  unfold unsubscribe. destruct (find_handler _ _) as [i | ]; intros [= <- <-].
  - apply quiet_step_sublist; try reflexivity. cbn. apply sublist_delete.
  - apply invalidate_quiet.
Qed.

Lemma unsubscribe_client_quiet k w : quiet_step w (unsubscribe_client k w).
Proof.
  unfold unsubscribe_client. apply quiet_step_sublist; try reflexivity.
  cbn. apply sublist_filter.
Qed.

Lemma destroy_quiet P w : quiet_step w (destroy P w).
Proof.
  split; [cbn; lia | ]. split; [reflexivity | ]. split; [reflexivity | ].
  split; [discriminate | ]. intros _.
  exists []. cbn. repeat split; [apply sublist_nil_l | constructor | constructor].
Qed.

Section QuietPrograms.

Context (P : platform).
Context (strigger : world → world * status bool).
Context (atrigger : world → world * status unit).

Lemma run_action_quiet a w w' r :
  a ≠ SyncTrigger → a ≠ AsyncTrigger →
  run_action P strigger atrigger a w = (w', r) → quiet_step w w'.
Proof.
  intros Hs Ha. destruct a; cbn [run_action]; try congruence.
  - apply mark_back_quiet.
  - apply mark_back_quiet.
  - intros [= <- <-]. apply subscribe_quiet.
  - apply unsubscribe_quiet.
  - intros [= <- <-]. apply unsubscribe_client_quiet.
  - intros [= <- <-]. apply quiet_step_frame; reflexivity.
  - intros [= <- <-]. apply destroy_quiet.
  - intros [= <- <-]. apply quiet_step_refl.
Qed.

Lemma run_script_quiet s w w' r :
  quiet s → run_script P strigger atrigger s w = (w', r) → quiet_step w w'.
Proof.
  intros Hq. revert w. induction Hq as [ | a s [Hs Ha] Hq IH]; intros w; cbn [run_script].
  - intros [= <- <-]. apply quiet_step_refl.
  - destruct (run_action P strigger atrigger a w) as [w1 r1] eqn:H1.
    apply (run_action_quiet a w w1 r1 Hs Ha) in H1.
    destruct r1; cbn [continue_with]; try (intros [= <- <-]; exact H1).
    destruct (destroyed w1); [intros [= <- <-]; exact H1 | ].
    intros H2. eapply quiet_step_trans; [exact H1 | apply IH, H2].
Qed.

End QuietPrograms.

Lemma run_quiet P behaviour filters fuel s w w' r :
  quiet s → run P behaviour filters fuel s w = (w', r) → quiet_step w w'.
Proof.
  intros Hq. destruct fuel as [ | fuel]; cbn [run].
  - intros [= <- <-]. apply quiet_step_refl.
  - apply run_script_quiet, Hq.
Qed.

(** The invariants under such a step *)

Lemma handlers_ok_quiet_step (bound : Z) (w w' : world) :
  0 ≤ bound → quiet_step w w' → handlers_ok bound w → handlers_ok bound w'.
Proof.
  intros Hb (Hc & _ & _ & _ & H) [Hnd Hall].
  destruct H as (new & Hs & Hn & Hf).
  { eapply Forall_impl; [exact Hall | ]. cbn beta. intros x [Hx _]. exact Hx. }
  assert (NoDup (handlers (instance w) ++ new).*1 ∧
          Forall (λ x : cookie * handler, x.1 ≤ iNextCookie w' ∧ triggerId x.2 ≤ bound)
            (handlers (instance w) ++ new)) as [Hnd' Hall'].
  { split.
    - rewrite fmap_app. apply NoDup_app. split; [exact Hnd | split; [ | exact Hn]].
      intros k Hk1 Hk2.
      apply list_elem_of_fmap in Hk1 as (x1 & -> & Hx1).
      apply list_elem_of_fmap in Hk2 as (x2 & Heq & Hx2).
      rewrite Forall_forall in Hall, Hf.
      specialize (Hall _ Hx1). specialize (Hf _ Hx2). cbn beta in *. lia.
    - apply Forall_app. split.
      + eapply Forall_impl; [exact Hall | ]. cbn beta. intros; lia.
      + eapply Forall_impl; [exact Hf | ]. cbn beta. intros; lia. }
  split.
  - eapply sublist_NoDup; [exact Hnd' | apply fmap_sublist, Hs].
  - rewrite Forall_forall in *. intros x Hx. apply Hall'.
    eapply sublist_subseteq; [exact Hs | exact Hx].
Qed.

Lemma dispatching_quiet_step base T w w' :
  0 ≤ T → quiet_step w w' → dispatching base T w → dispatching base T w'.
Proof.
  intros HT Hq [Hok (l & Hl & Hnd & Hall)].
  split; [eapply handlers_ok_quiet_step; eassumption | ].
  destruct Hq as (Hc & Hd & _ & _ & H).
  destruct H as (new & Hs & Hn & Hf).
  { destruct Hok as [_ Hok]. eapply Forall_impl; [exact Hok | ].
    cbn beta. intros x [Hx _]. exact Hx. }
  exists l. split; [congruence | ]. split; [exact Hnd | ].
  rewrite Forall_forall in Hall. rewrite Forall_forall in Hf. apply Forall_forall.
  intros e He. destruct (Hall e He) as (He1 & He2 & He3).
  split; [exact He1 | ]. split; [lia | ].
  intros h Hh. apply (sublist_subseteq _ _ Hs) in Hh.
  apply elem_of_app in Hh as [Hh | Hh]; [exact (He3 h Hh) | ].
  specialize (Hf _ Hh). cbn in Hf. lia.
Qed.

Lemma dispatching_frame base T w w' :
  handlers (instance w') = handlers (instance w) →
  iNextCookie w' = iNextCookie w →
  dispatched w' = dispatched w →
  dispatching base T w → dispatching base T w'.
Proof.
  intros Hh Hc Hd [[Hnd Hall] (l & Hl & Hndl & Hlall)].
  unfold dispatching, handlers_ok, log_ok. rewrite Hh, Hc, Hd.
  split; [split; assumption | exists l; repeat split; assumption].
Qed.

Lemma insert_cookie_elem_of (hs : list (cookie * handler)) (i : nat) (k : cookie)
    (h h' h'' : handler) (k' : cookie) :
  NoDup hs.*1 → hs !! i = Some (k, h) →
  (k', h'') ∈ <[i := (k, h')]> hs →
  (k' = k ∧ h'' = h') ∨ (k' ≠ k ∧ (k', h'') ∈ hs).
Proof.
  intros Hnd Hi Hin. apply list_elem_of_lookup in Hin as [j Hj].
  apply list_lookup_insert_Some in Hj as [(-> & [= -> ->] & _) | (Hne & Hj)].
  - left. split; reflexivity.
  - right. split; [ | eapply list_elem_of_lookup_2; exact Hj].
    intros ->. apply Hne.
    apply (NoDup_lookup hs.*1 i j k Hnd); rewrite list_lookup_fmap.
    + rewrite Hi. reflexivity.
    + rewrite Hj. reflexivity.
Qed.

Lemma dispatching_marked base T w i k h :
  dispatching base T w →
  handlers (instance w) !! i = Some (k, h) → triggerId h ≠ T →
  mark T h = set_triggerId T h ∧
  dispatching base T (marked w T i k (set_triggerId T h)).
Proof.
  intros [[Hnd Hall] (l & Hl & Hndl & Hlall)] Hi Hne.
  pose proof (Forall_lookup_1 _ _ _ _ Hall Hi) as [Hk Hle]. cbn [fst snd] in Hk, Hle.
  split; [apply mark_lt; lia | ].
  unfold dispatching, handlers_ok, log_ok, marked. wsimpl.
  assert ((<[i := (k, set_triggerId T h)]> (handlers (instance w))).*1
          = (handlers (instance w)).*1) as Hfst.
  { rewrite list_fmap_insert. apply list_insert_id. rewrite list_lookup_fmap, Hi. reflexivity. }
  split; [split | ].
  - rewrite Hfst. exact Hnd.
  - apply Forall_insert; [exact Hall | ]. cbn. lia.
  - exists (l ++ [(T, k)]). split; [rewrite Hl, app_assoc; reflexivity | ]. split.
    + rewrite fmap_app. apply NoDup_app. split; [exact Hndl | split; [ | repeat constructor]].
      * intros k' Hk1 Hk2. apply list_elem_of_singleton in Hk2. cbn in Hk2. subst k'.
        apply list_elem_of_fmap in Hk1 as (e & He & Hel).
        rewrite Forall_forall in Hlall. destruct (Hlall e Hel) as (_ & _ & He3).
        apply Hne, He3. rewrite <- He. eapply list_elem_of_lookup_2. exact Hi.
      * intros H. inversion H.
    + apply Forall_app. split.
      * rewrite Forall_forall in Hlall. apply Forall_forall. intros e He.
        destruct (Hlall e He) as (He1 & He2 & He3). repeat split; try assumption.
        intros h' Hh'.
        apply (insert_cookie_elem_of _ _ _ _ _ _ _ Hnd Hi) in Hh' as [[_ ->] | [_ Hh']];
          [reflexivity | exact (He3 h' Hh')].
      * repeat constructor; cbn [fst snd]; try assumption.
        intros h' Hh'.
        apply (insert_cookie_elem_of _ _ _ _ _ _ _ Hnd Hi) in Hh' as [[_ ->] | [Hc _]];
          [reflexivity | congruence].
Qed.

Section QuietLoop.

Context (P : platform).
Context (call : nat → world → world * status unit).
Context (call_quiet : ∀ c w w' r, call c w = (w', r) → quiet_step w w').

Lemma enqueue_quiet w h a tr w' r :
  enqueue P call w h a tr = (w', r) → quiet_step w w'.
Proof.
  unfold enqueue. destruct (calls_inline P w h a).
  - destruct (call _ _) as [w1 r1] eqn:Hc. apply call_quiet in Hc.
    assert (quiet_step w w1) as Hq.
    { eapply quiet_step_trans; [ | exact Hc]. apply quiet_step_frame; reflexivity. }
    destruct r1; intros [= <- <-]; exact Hq.
  - unfold enqueue_on.
    destruct (handleInSameThreadAsEmitter h).
    + destruct (queue_enqueue P _ _ _ _). intros [= <- <-].
      apply quiet_step_frame; reflexivity.
    + destruct (negb (queueDestroyed w h)).
      * destruct (queue_enqueue P _ _ _ _). intros [= <- <-].
        apply quiet_step_frame; reflexivity.
      * destruct (negb _); intros [= <- <-]; apply quiet_step_refl.
Qed.

Lemma sync_loop_keeps_dispatching base T fuel w i tr w' r :
  0 ≤ T → dispatching base T w →
  sync_trigger_loop P call fuel w T i tr = (w', r) →
  dispatching base T w'.
Proof.
  intros HT. revert w i tr.
  induction fuel as [ | fuel IH]; intros w i tr Hinv.
  - intros [= <- <-]. exact Hinv.
  - destruct (handlers (instance w) !! i) as [[k h] | ] eqn:Hi.
    + destruct (decide (triggerId h = T)) as [Heq | Hne].
      * rewrite (loop_skip P call fuel w T i tr k h Hi Heq). apply IH, Hinv.
      * rewrite (loop_dispatch P call fuel w T i tr k h Hi Hne).
        destruct (dispatching_marked base T w i k h Hinv Hi Hne) as [-> Hm].
        destruct (enqueue P call _ _ false tr) as [w2 r2] eqn:He.
        apply enqueue_quiet in He.
        pose proof (dispatching_quiet_step base T _ _ HT He Hm) as H2.
        destruct r2 as [tr' | e | | ];
          [ | intros [= <- <-]; eapply dispatching_frame; [ | | | exact H2]; reflexivity
            | intros [= <- <-]; exact H2 | intros [= <- <-]; exact H2 ].
        destruct (destroyed w2); [intros [= <- <-]; exact H2 | ].
        destruct (last _) as [c | ]; [ | intros [= <- <-]; exact H2].
        destruct (accepted c).
        -- intros [= <- <-]. eapply dispatching_frame; [ | | | exact H2]; reflexivity.
        -- destruct (handlersChanged (instance w2)); apply IH; [ | exact H2].
           eapply dispatching_frame; [ | | | exact H2]; reflexivity.
    + rewrite (loop_exit P call fuel w T i tr Hi). intros [= <- <-].
      eapply dispatching_frame; [ | | | exact Hinv]; reflexivity.
Qed.

End QuietLoop.

Lemma begin_triggering_dispatching (P : platform) (w : world) :
  idle_ok w →
  ∃ w1 T, begin_triggering P w = (w1, T) ∧ 0 < T ∧
          dispatching (dispatched w) T w1 ∧
          dispatched w1 = dispatched w.
Proof.
  intros [[Hnd Hall] Hrange]. unfold begin_triggering.
  assert (log_base : ∀ w1 T, dispatched w1 = dispatched w →
                             log_ok (dispatched w) T w1).
  { intros w1 T Hd. exists []. rewrite app_nil_r. repeat split; [exact Hd | constructor | constructor]. }
  cbn zeta. wsimpl.
  destruct (scoped_flag_value P (triggering (instance w))) eqn:Hsf; cbn [negb]; wsimpl.
  - rewrite uint64_succ by exact Hrange.
    eexists _, _. split; [reflexivity | ].
    split; [lia | ]. split; [ | reflexivity].
    split; [ | apply log_base; reflexivity].
    unfold handlers_ok. wsimpl. split; [exact Hnd | ].
    eapply Forall_impl; [exact Hall | ]. cbn beta. intros; lia.
  - change (uint64 (0 + 1)) with 1.
    eexists _, _. split; [reflexivity | ].
    split; [lia | ]. split; [ | reflexivity].
    split; [ | apply log_base; reflexivity].
    unfold handlers_ok. wsimpl. split.
    + change (map ?f ?l) with (f <$> l). rewrite <- list_fmap_compose.
      erewrite list_fmap_ext; [exact Hnd | ]. intros i [k h] _. reflexivity.
    + apply Forall_fmap. eapply Forall_impl; [exact Hall | ].
      intros [k h]. cbn. intros; lia.
Qed.

Section QuietTrigger.

Context (P : platform).
Context (call : nat → world → world * status unit).
Context (call_quiet : ∀ c w w' r, call c w = (w', r) → quiet_step w w').

Lemma once_each_none w w' : dispatched w' = dispatched w → once_each w w'.
Proof.
  intros H. exists 0, []. rewrite app_nil_r. repeat split; [exact H | constructor | constructor].
Qed.

Lemma once_each_dispatching w T w' :
  dispatching (dispatched w) T w' → once_each w w'.
Proof.
  intros [_ (l & Hl & Hnd & Hall)]. exists T, l. repeat split; try assumption.
  eapply Forall_impl; [exact Hall | ]. cbn beta. tauto.
Qed.

Lemma sync_trigger_dispatch_once fuel w :
  idle_ok w → once_each w (sync_trigger_dispatch P call fuel w).1.
Proof.
  intros Hok. unfold sync_trigger_dispatch.
  destruct (handlers (instance w)) eqn:Hhs; [apply once_each_none; reflexivity | ].
  destruct (begin_triggering_dispatching P w Hok) as (w1 & T & -> & HT & Hinv & Hd).
  destruct (sync_trigger_loop P call fuel w1 T 0 None) as [w2 r] eqn:Hloop.
  apply (sync_loop_keeps_dispatching P call call_quiet (dispatched w) T) in Hloop;
    [ | lia | exact Hinv].
  cbn [fst]. apply (once_each_dispatching w T).
  unfold end_triggering. destruct (destroyed w2); [exact Hloop | ].
  eapply dispatching_frame; [ | | | exact Hloop]; reflexivity.
Qed.

End QuietTrigger.

Lemma idle_ok_frame w w' :
  handlers (instance w') = handlers (instance w) →
  instance_triggerId (instance w') = instance_triggerId (instance w) →
  iNextCookie w' = iNextCookie w →
  idle_ok w → idle_ok w'.
Proof.
  intros Hh Ht Hc [[Hnd Hall] Hr]. unfold idle_ok, handlers_ok.
  rewrite Hh, Ht, Hc. repeat split; assumption || lia.
Qed.

Lemma idle_ok_quiet_step w w' :
  quiet_step w w' → destroyed w' = false → idle_ok w → idle_ok w'.
Proof.
  intros Hq Hd [Hok Hr].
  pose proof Hq as (_ & _ & _ & Ht & _). specialize (Ht Hd).
  unfold idle_ok. rewrite Ht. split; [ | exact Hr].
  eapply handlers_ok_quiet_step; [lia | exact Hq | exact Hok].
Qed.

Lemma once_each_base w0 w w' :
  dispatched w = dispatched w0 → once_each w w' → once_each w0 w'.
Proof. intros H (T & l & Hl & Hrest). exists T, l. rewrite <- H. split; assumption. Qed.

Section QuietTriggers.

Context (P : platform).
Context (call : nat → world → world * status unit).
Context (filter : world → world * status unit).
Context (call_quiet : ∀ c w w' r, call c w = (w', r) → quiet_step w w').
Context (filter_quiet : ∀ w w' r, filter w = (w', r) → quiet_step w w').

Lemma sync_trigger_once fuel w :
  idle_ok w → once_each w (sync_trigger P call filter fuel w).1.
Proof.
  intros Hok. unfold sync_trigger.
  destruct (negb (has_instance w)); [apply once_each_none; reflexivity | ].
  set (w0 := if bool_decide (trigger_type w = SynchronousDontQueue) then unqueue P w else w).
  assert (idle_ok w0 ∧ dispatched w0 = dispatched w) as [Hok0 Hd0].
  { unfold w0. destruct (bool_decide _); [ | auto].
    split; [eapply idle_ok_frame; [ | | | exact Hok] | ]; reflexivity. }
  clearbody w0. apply (once_each_base w w0); [exact Hd0 | ].
  destruct (bool_decide (handlers (instance w0) = []) && negb (filtered w0));
    [apply once_each_none; reflexivity | ].
  assert (idle_ok (push_context w0)) as Hok1
    by (eapply idle_ok_frame; [ | | | exact Hok0]; reflexivity).
  destruct (filtered (push_context w0)).
  - destruct (filter (push_context w0)) as [w2 r] eqn:Hf.
    apply filter_quiet in Hf.
    assert (dispatched w2 = dispatched w0) as Hd2 by (destruct Hf as (_ & -> & _); reflexivity).
    destruct r as [[] | e | | ]; try (apply once_each_none; exact Hd2).
    destruct (destroyed w2) eqn:Hdes; [apply once_each_none; exact Hd2 | ].
    destruct (last _) as [c | ]; [ | apply once_each_none; exact Hd2].
    destruct (accepted c); [apply once_each_none; exact Hd2 | ].
    apply (once_each_base w0 w2); [exact Hd2 | ].
    apply (sync_trigger_dispatch_once P call call_quiet).
    exact (idle_ok_quiet_step _ _ Hf Hdes Hok1).
  - apply (once_each_base w0 (push_context w0)); [reflexivity | ].
    apply (sync_trigger_dispatch_once P call call_quiet), Hok1.
Qed.

Lemma async_loop_keeps_dispatching base T fuel w i tr w' r :
  0 ≤ T → dispatching base T w →
  async_trigger_loop P call fuel w T i tr = (w', r) →
  dispatching base T w'.
Proof.
  intros HT. revert w i tr.
  induction fuel as [ | fuel IH]; intros w i tr Hinv; cbn [async_trigger_loop].
  - intros [= <- <-]. exact Hinv.
  - destruct (handlers (instance w) !! i) as [[k h] | ] eqn:Hi;
      [ | intros [= <- <-]; exact Hinv].
    destruct (Z.eqb_spec (triggerId h) T) as [Heq | Hne]; [apply IH, Hinv | ].
    destruct (dispatching_marked base T w i k h Hinv Hi Hne) as [-> Hm].
    destruct (enqueue P call _ _ true tr) as [w2 r2] eqn:He.
    apply (enqueue_quiet P call call_quiet) in He.
    pose proof (dispatching_quiet_step base T _ _ HT He Hm) as H2.
    destruct r2 as [tr' | e | | ]; try (intros [= <- <-]; exact H2).
    destruct (destroyed w2); [intros [= <- <-]; exact H2 | ].
    destruct (handlersChanged (instance w2)); apply IH; [ | exact H2].
    eapply dispatching_frame; [ | | | exact H2]; reflexivity.
Qed.

Lemma async_trigger_once fuel w :
  idle_ok w → once_each w (async_trigger P call fuel w).1.
Proof.
  intros Hok. unfold async_trigger.
  destruct (negb (has_instance w)); [apply once_each_none; reflexivity | ].
  set (w0 := if bool_decide (trigger_type w = AsynchronousDontQueue) then unqueue P w else w).
  assert (idle_ok w0 ∧ dispatched w0 = dispatched w) as [Hok0 Hd0].
  { unfold w0. destruct (bool_decide _); [ | auto].
    split; [eapply idle_ok_frame; [ | | | exact Hok] | ]; reflexivity. }
  clearbody w0. apply (once_each_base w w0); [exact Hd0 | ].
  destruct (handlers (instance w0)) eqn:Hhs; [apply once_each_none; reflexivity | ].
  destruct (begin_triggering_dispatching P w0 Hok0) as (w1 & T & -> & HT & Hinv & Hd).
  destruct (async_trigger_loop P call fuel w1 T 0 None) as [w2 r] eqn:Hloop.
  apply (async_loop_keeps_dispatching (dispatched w0) T) in Hloop; [ | lia | exact Hinv].
  cbn [fst]. apply (once_each_dispatching w0 T).
  unfold end_triggering. destruct (destroyed w2); [exact Hloop | ].
  eapply dispatching_frame; [ | | | exact Hloop]; reflexivity.
Qed.

End QuietTriggers.

(** X16.  As long as no callable and no filter triggers the event
    again, whatever else they do (subscribe, unsubscribe, accept, ignore,
    throw, destroy the event), what a [sync_trigger] or an
    [async_trigger] adds to the log are entries of one trigger id with no
    cookie twice: no handler is dispatched twice by one trigger (the
    case in which C1 holds). *)
Theorem quiet_trigger_dispatches_once (P : platform) (behaviour : nat → list action)
    (filters : list action) (fuel : nat) (w : world) :
  (∀ c, quiet (behaviour c)) → quiet filters → idle_ok w →
  once_each w (event_sync_trigger P behaviour filters fuel w).1 ∧
  once_each w (event_async_trigger P behaviour filters fuel w).1.
Proof.
  intros Hb Hf Hok. split.
  - apply sync_trigger_once; [ | | exact Hok].
    + intros c w1 w2 r. apply run_quiet, Hb.
    + intros w1 w2 r. apply run_quiet, Hf.
  - apply async_trigger_once; [ | exact Hok].
    intros c w1 w2 r. apply run_quiet, Hb.
Qed.

Lemma three_handlers_idle_ok P : idle_ok (three_handlers P).
Proof.
  split; [split | ]; apply (bool_decide_unpack _); vm_compute; exact I.
Qed.

(** *** A trigger inside a trigger *)

(** C1 fails when a callable triggers the event again and the handler
    list changes: the trigger with id 1 hands the handler with cookie 1
    to [enqueue] twice, and its callable is called twice by that trigger
    (and once more by the inner trigger, with id 2).  The inner trigger
    left 2 in the handler's [triggerId]; on the new scan 2 is neither
    below 1 nor equal to 1. *)
Theorem reentrant_trigger_dispatches_twice (sets : bool) :
  let P := spec_platform 0 sets in
  let r := event_sync_trigger P reentrant [] 6 (two_handlers P) in
  r.2 = Ret true ∧
  dispatched r.1 = [(1, 1); (1, 2); (2, 1); (1, 1); (1, 3)] ∧
  invoked r.1 = [1; 2; 1; 1; 3]%nat ∧
  ¬ NoDup (dispatched r.1).
Proof.
  destruct sets; vm_compute; (split; [ | split; [ | split]]); try reflexivity;
    intros H; apply NoDup_cons in H as [H _]; apply H;
    apply elem_of_cons; right; apply elem_of_cons; right;
    apply elem_of_cons; left; reflexivity.
Qed.

(** *** Triggers of programs: examples *)

Lemma accepting_quiet c : quiet (accepting c).
Proof.
  unfold accepting. destruct c as [ | [ | [ | [ | c]]]]; repeat constructor; discriminate.
Defined.

Lemma quiet_trigger_dispatches_once_witness :
  let P := spec_platform 0 true in
  once_each (three_handlers P) (event_sync_trigger P accepting [] 4 (three_handlers P)).1 ∧
  once_each (three_handlers P) (event_async_trigger P accepting [] 4 (three_handlers P)).1.
Proof.
  intros P.
  apply (quiet_trigger_dispatches_once P accepting [] 4 (three_handlers P)).
  - exact accepting_quiet.
  - constructor.
  - apply three_handlers_idle_ok.
Defined.

Lemma unfiltered_sync_trigger_balanced_witness :
  let P := spec_platform 0 true in
  let r := event_sync_trigger P reentrant [] 6 (two_handlers P) in
  length (contexts (instance r.1)) = length (contexts (instance (two_handlers P))).
Proof.
  intros P r.
  apply (unfiltered_sync_trigger_balanced P reentrant [] 6 (two_handlers P) r.1 r.2).
  - reflexivity.
  - apply surjective_pairing.
  - vm_compute. exact I.
  - vm_compute. reflexivity.
Defined.

(** *** Subscriptions and the reference count of a handler *)


Lemma three_handlers_bounded P : cookies_bounded (three_handlers P).
Proof. apply (bool_decide_unpack _). vm_compute. exact I. Defined.


(** X19.  For a subscribed handler with unique cookie and a count below
    [2 ^ 31 - 1]: [add_ref] raises the count by one, which [use_count]
    shows; the [release] that follows erases the handler exactly when
    the count was 0 before, after which [use_count] and [release] throw
    [event_handler_not_found]; otherwise it puts the handler list back
    as it was. *)
Theorem handler_lives_by_its_count (w : world) (i : nat) (k : cookie) (h : handler) :
  NoDup (handlers (instance w)).*1 →
  handlers (instance w) !! i = Some (k, h) →
  0 ≤ referenceCount h < 2 ^ 31 - 1 →
  let w1 := (add_ref k w).1 in
  let w2 := (release k w1).1 in
  (add_ref k w).2 = Ret tt ∧
  use_count k w1 = Ret (referenceCount h + 1) ∧
  (release k w1).2 = Ret tt ∧
  if referenceCount h =? 0
  then handlers (instance w2) = delete i (handlers (instance w)) ∧
       use_count k w2 = Exn event_handler_not_found ∧
       (release k w2).2 = Exn event_handler_not_found
  else handlers (instance w2) = handlers (instance w).
Proof.
  intros Hnd Hi Hrc w1 w2.
  assert (add_ref k w
          = (update (λ d, set_handlers
                            (<[i := (k, set_referenceCount (uint32 (referenceCount h + 1)) h)]>
                               (handlers d)) d) w, Ret tt)) as Ha.
  { unfold add_ref. rewrite (get_handler_lookup w i k h Hnd Hi). reflexivity. }
  assert (i < length (handlers (instance w)))%nat as Hlt by (eapply lookup_lt_Some; exact Hi).
  set (h1 := set_referenceCount (referenceCount h + 1) h).
  assert (handlers (instance w1) = <[i := (k, h1)]> (handlers (instance w))) as Hh1.
  { unfold w1. rewrite Ha. cbn [fst]. rewrite instance_update. cbn [set_handlers handlers].
    rewrite uint32_fits by lia. reflexivity. }
  assert (NoDup (handlers (instance w1)).*1) as Hnd1.
  { rewrite Hh1, (NoDup_fst_insert _ i k h h1 Hi). exact Hnd. }
  assert (handlers (instance w1) !! i = Some (k, h1)) as Hi1.
  { rewrite Hh1. apply list_lookup_insert_eq. exact Hlt. }
  pose proof (get_handler_lookup w1 i k h1 Hnd1 Hi1) as Hg1.
  split; [rewrite Ha; reflexivity | ].
  split; [unfold use_count; rewrite Hg1; reflexivity | ].
  unfold w2, release. rewrite Hg1. cbn [h1 set_referenceCount referenceCount].
  replace (referenceCount h + 1 - 1) with (referenceCount h) by lia.
  rewrite uint32_fits by lia.
  destruct (Z.eqb_spec (referenceCount h) 0) as [H0 | Hn0].
  - cbn [fst snd]. split; [reflexivity | ].
    assert (handlers (instance (update (λ d, set_handlers (delete i (handlers d)) d) w1))
            = delete i (handlers (instance w))) as Hh2.
    { rewrite instance_update. cbn [set_handlers handlers]. rewrite Hh1.
      rewrite !delete_take_drop, take_insert_ge, drop_insert_lt by lia. reflexivity. }
    split; [exact Hh2 | ].
    assert (get_handler k (update (λ d, set_handlers (delete i (handlers d)) d) w1) = None)
      as Hg2.
    { apply get_handler_None. rewrite Hh2. exact (NoDup_delete_notin _ i k h Hnd Hi). }
    unfold use_count, release. rewrite Hg2. split; reflexivity.
  - cbn [fst snd]. split; [reflexivity | ].
    rewrite instance_update. cbn [set_handlers handlers]. rewrite Hh1.
    rewrite list_insert_insert_eq. apply list_insert_id. rewrite Hi.
    destruct h; reflexivity.
Qed.

Lemma handler_lives_by_its_count_witness :
  let P := spec_platform 0 true in
  let w := three_handlers P in
  let w1 := (add_ref 2 w).1 in
  let w2 := (release 2 w1).1 in
  (add_ref 2 w).2 = Ret tt ∧
  use_count 2 w1 = Ret 2 ∧
  (release 2 w1).2 = Ret tt ∧
  handlers (instance w2) = handlers (instance w).
Proof.
  intros P w.
  apply (handler_lives_by_its_count w 1 2 (subscribed P 2 0 2)).
  - apply (bool_decide_unpack _). vm_compute. exact I.
  - vm_compute. reflexivity.
  - apply (bool_decide_unpack _). vm_compute. exact I.
Defined.

(** X20.  When no cookie of a handler is beyond [iNextCookie], the
    handler that [subscribe] has made is held by one reference, that of
    the handle returned: [release] of that reference, which is what the
    handle does when it gives its cookie back, takes the count to zero
    and erases the handler, so that the handlers are as they were before
    the subscription; after that [use_count] and [release] for the
    cookie throw [event_handler_not_found]. *)
Theorem last_release_unsubscribes (P : platform) (aCallable aClientId : nat) (w : world) :
  cookies_bounded w →
  let s := subscribe P aCallable aClientId w in
  let r := release s.2 s.1 in
  use_count s.2 s.1 = Ret 1 ∧
  r.2 = Ret tt ∧
  handlers (instance r.1) = handlers (instance w) ∧
  use_count s.2 r.1 = Exn event_handler_not_found ∧
  (release s.2 r.1).2 = Exn event_handler_not_found.
Proof.
  intros Hle s r.
  assert (iNextCookie w + 1 ∉ (handlers (instance w)).*1) as Hfresh.
  { intros Hin. apply list_elem_of_fmap in Hin as (x & Hx & Hin).
    unfold cookies_bounded in Hle. rewrite Forall_forall in Hle.
    specialize (Hle x Hin). cbn beta in Hle. lia. }
  assert (s.2 = iNextCookie w + 1) as Hid by reflexivity.
  pose proof (subscribe_handlers P aCallable aClientId w Hle) as Hs. fold s in Hs.
  unfold r. change (s.2) with (iNextCookie w + 1). clear r.
  set (r := release (iNextCookie w + 1) s.1).
  assert (get_handler (iNextCookie w + 1) s.1
          = Some (length (handlers (instance w)),
                  subscribed P (iNextCookie w + 1) aClientId aCallable)) as Hg.
  { unfold get_handler. rewrite Hs, (find_handler_snoc _ _ _ Hfresh).
    cbn [mbind option_bind]. rewrite lookup_app_r, Nat.sub_diag by lia. reflexivity. }
  split; [unfold use_count; rewrite Hg; reflexivity | ].
  assert (r = (update (λ d, set_handlers (delete (length (handlers (instance w)))
                                             (handlers d)) d) s.1, Ret tt)) as Hr.
  { unfold r, release. rewrite Hg. reflexivity. }
  assert (handlers (instance r.1) = handlers (instance w)) as Hh.
  { rewrite Hr. cbn [fst]. rewrite instance_update. cbn [set_handlers handlers]. rewrite Hs.
    rewrite delete_take_drop, take_app_length.
    rewrite drop_app_ge by lia.
    replace (S (length (handlers (instance w))) - length (handlers (instance w)))%nat
      with 1%nat by lia.
    cbn. apply app_nil_r. }
  split; [rewrite Hr; reflexivity | ]. split; [exact Hh | ].
  assert (get_handler (iNextCookie w + 1) r.1 = None) as Hg2
    by (apply get_handler_None; rewrite Hh; exact Hfresh).
  unfold use_count, release. rewrite Hg2. split; reflexivity.
Qed.

Lemma last_release_unsubscribes_witness :
  let P := spec_platform 0 true in
  let w := three_handlers P in
  let s := subscribe P 4 0 w in
  let r := release s.2 s.1 in
  use_count s.2 s.1 = Ret 1 ∧
  r.2 = Ret tt ∧
  handlers (instance r.1) = handlers (instance w) ∧
  use_count s.2 r.1 = Exn event_handler_not_found ∧
  (release s.2 r.1).2 = Exn event_handler_not_found.
Proof.
  intros P w.
  apply (last_release_unsubscribes P 4 0 w).
  apply three_handlers_bounded.
Defined.

(** *** A trigger whose handlers leave the event alone *)

Lemma instance_rest_refl d : instance_rest d d.
Proof. repeat split. Qed.

Lemma instance_rest_trans d1 d2 d3 :
  instance_rest d1 d2 → instance_rest d2 d3 → instance_rest d1 d3.
Proof. unfold instance_rest. intuition congruence. Qed.

Lemma world_rest_refl w : world_rest w w.
Proof. repeat split. Qed.

Lemma world_rest_trans w1 w2 w3 : world_rest w1 w2 → world_rest w2 w3 → world_rest w1 w3.
Proof. unfold world_rest. intuition congruence. Qed.

Lemma deliverable_frame (w w' : world) (h h' : handler) :
  world_rest w w' → instance_rest (instance w) (instance w') →
  queue h' = queue h → handleInSameThreadAsEmitter h' = handleInSameThreadAsEmitter h →
  deliverable w h → deliverable w' h'.
Proof.
  intros (_ & _ & Hqd) (Hie & _) Hq Hs. unfold deliverable, queueDestroyed.
  rewrite Hqd, Hq, Hs, Hie. tauto.
Qed.

Section AsyncAll.

Context (P : platform).
Context (call : nat → world → world * status unit).

(** [enqueue] for [async_trigger] calls nothing: it puts a callback on a
    queue, or drops the delivery. *)
Lemma enqueue_async (w : world) (h : handler) (tr : option Z) :
  deliverable w h →
  ∃ w' tr', enqueue P call w h true tr = (w', Ret tr') ∧
            iInstanceData w' = iInstanceData w ∧ world_rest w w' ∧
            dispatched w' = dispatched w ∧ invoked w' = invoked w.
Proof.
  intros Hd. unfold enqueue, calls_inline. cbn [negb andb]. unfold enqueue_on.
  destruct (handleInSameThreadAsEmitter h) eqn:Hs.
  - destruct (queue_enqueue P _ _ _ _) as [q' t]. eexists _, _.
    split; [reflexivity | ]. repeat split.
  - destruct (queueDestroyed w h) eqn:Hq; cbn [negb].
    + destruct Hd as [Hd | [Hd | Hd]]; [congruence | congruence | ]. rewrite Hd. cbn [negb].
      eexists _, _. split; [reflexivity | ]. repeat split.
    + destruct (queue_enqueue P _ _ _ _) as [q' t]. eexists _, _.
      split; [reflexivity | ]. repeat split.
Qed.

Lemma instance_eq (w w' : world) : iInstanceData w' = iInstanceData w → instance w' = instance w.
Proof. unfold instance. intros ->. reflexivity. Qed.

Lemma async_loop_all (T : Z) (todo : list (cookie * handler)) :
  ∀ (done : list (cookie * handler)) (w : world) (tr : option Z) (fuel : nat),
    handlers (instance w) = done ++ todo →
    Forall (λ x : cookie * handler, triggerId x.2 < T) todo →
    handlersChanged (instance w) = false →
    destroyed w = false →
    Forall (λ x : cookie * handler, deliverable w x.2) todo →
    (length todo < fuel)%nat →
    ∃ w', async_trigger_loop P call fuel w T (length done) tr = (w', Ret tt) ∧
          handlers (instance w') = done ++ map (λ x, (x.1, set_triggerId T x.2)) todo ∧
          dispatched w' = dispatched w ++ map (λ x : cookie * handler, (T, x.1)) todo ∧
          invoked w' = invoked w ∧
          handlersChanged (instance w') = false ∧
          instance_rest (instance w) (instance w') ∧ world_rest w w'.
Proof.
  induction todo as [ | [k h] rest IH]; intros done w tr fuel Hhs Hlt Hhc Hdes Hdel Hfuel.
  - destruct fuel as [ | fuel]; [cbn in Hfuel; lia | ]. cbn [async_trigger_loop].
    rewrite app_nil_r in Hhs. rewrite Hhs, lookup_ge_None_2 by lia.
    exists w. cbn [map]. rewrite !app_nil_r.
    split; [reflexivity | ]. split; [exact Hhs | ]. split; [reflexivity | ].
    split; [reflexivity | ]. split; [exact Hhc | ].
    split; [apply instance_rest_refl | apply world_rest_refl].
  - destruct fuel as [ | fuel]; [cbn in Hfuel; lia | ]. cbn [async_trigger_loop length] in *.
    apply Forall_cons in Hlt as [Hlt1 Hlt]. apply Forall_cons in Hdel as [Hdel1 Hdel].
    cbn [snd] in Hlt1, Hdel1.
    rewrite Hhs, lookup_app_r, Nat.sub_diag by lia. cbn [lookup list_lookup].
    destruct (Z.eqb_spec (triggerId h) T) as [Heq | _]; [lia | ].
    rewrite (mark_lt T h Hlt1).
    set (h1 := set_triggerId T h).
    set (w1 := marked w T (length done) k h1).
    assert (handlers (instance w1) = (done ++ [(k, h1)]) ++ rest) as Hhs1.
    { unfold w1, marked. wsimpl. rewrite Hhs.
      replace (length done) with (length done + 0)%nat at 1 by lia.
      rewrite insert_app_r. cbn. rewrite <- app_assoc. reflexivity. }
    assert (world_rest w w1 ∧ instance_rest (instance w) (instance w1) ∧
            handlersChanged (instance w1) = handlersChanged (instance w) ∧
            dispatched w1 = dispatched w ++ [(T, k)] ∧ invoked w1 = invoked w)
      as (Hwr1 & Hir1 & Hhc1 & Hd1 & Hi1).
    { unfold w1, marked. wsimpl. repeat split. }
    destruct (enqueue_async w1 h1 tr) as (w2 & tr' & He & Hinst2 & Hwr2 & Hd2 & Hi2).
    { apply (deliverable_frame w w1 h h1); [exact Hwr1 | exact Hir1 | | | exact Hdel1];
        reflexivity. }
    rewrite He. apply instance_eq in Hinst2.
    assert (destroyed w2 = false) as Hdes2.
    { destruct Hwr2 as (_ & -> & _). destruct Hwr1 as (_ & -> & _). exact Hdes. }
    rewrite Hdes2, Hinst2, Hhc1, Hhc.
    destruct (IH (done ++ [(k, h1)]) w2 tr' fuel) as (w' & Hloop & Hh' & Hd' & Hi' & Hhc' & Hir' & Hwr').
    + rewrite Hinst2. exact Hhs1.
    + exact Hlt.
    + rewrite Hinst2, Hhc1. exact Hhc.
    + exact Hdes2.
    + eapply Forall_impl; [exact Hdel | ]. intros x Hx.
      apply (deliverable_frame w w2 x.2 x.2); [ | | reflexivity | reflexivity | exact Hx].
      * exact (world_rest_trans _ _ _ Hwr1 Hwr2).
      * rewrite Hinst2. exact Hir1.
    + lia.
    + rewrite length_app in Hloop. cbn [length] in Hloop.
      rewrite Nat.add_1_r in Hloop.
      exists w'. split; [exact Hloop | ].
      split; [rewrite Hh', <- app_assoc; reflexivity | ].
      split; [rewrite Hd', Hd2, Hd1, <- app_assoc; reflexivity | ].
      split; [congruence | ]. split; [exact Hhc' | ].
      split.
      * eapply instance_rest_trans; [exact Hir1 | ]. rewrite <- Hinst2. exact Hir'.
      * exact (world_rest_trans _ _ _ Hwr1 (world_rest_trans _ _ _ Hwr2 Hwr')).
Qed.

End AsyncAll.

Section AsyncTrigger.

Context (P : platform).
Context (call : nat → world → world * status unit).
Context (filter : world → world * status unit).

Lemma async_loop_skip (fuel : nat) (w : world) (T : Z) (i : nat) (tr : option Z)
    (k : cookie) (h : handler) :
  handlers (instance w) !! i = Some (k, h) → triggerId h = T →
  async_trigger_loop P call (S fuel) w T i tr = async_trigger_loop P call fuel w T (S i) tr.
Proof.
  intros H Ht. cbn [async_trigger_loop]. rewrite H, (proj2 (Z.eqb_eq _ _) Ht). reflexivity.
Qed.

Lemma async_from_start (T : Z) (hs : list (cookie * handler)) (w : world) (tr : option Z)
    (fuel : nat) :
  handlers (instance w) = hs →
  Forall (λ x : cookie * handler, triggerId x.2 < T) hs →
  destroyed w = false →
  Forall (λ x : cookie * handler, deliverable w x.2) hs →
  (length hs + 1 < fuel)%nat →
  ∃ w', async_trigger_loop P call fuel w T 0 tr = (w', Ret tt) ∧
        handlers (instance w') = map (λ x, (x.1, set_triggerId T x.2)) hs ∧
        dispatched w' = dispatched w ++ map (λ x : cookie * handler, (T, x.1)) hs ∧
        invoked w' = invoked w ∧
        instance_rest (instance w) (instance w') ∧ world_rest w w'.
Proof.
  intros Hhs Hlt Hdes Hdel Hfuel.
  destruct (handlersChanged (instance w)) eqn:Hhc.
  - destruct hs as [ | [k h] rest].
    + destruct fuel as [ | fuel]; [lia | ]. cbn [async_trigger_loop]. rewrite Hhs.
      exists w. cbn. rewrite app_nil_r. repeat split; assumption || reflexivity.
    + destruct fuel as [ | fuel]; cbn [length] in Hfuel; [lia | ].
      apply Forall_cons in Hlt as [Hlt1 Hlt]. apply Forall_cons in Hdel as [Hdel1 Hdel].
      cbn [snd] in Hlt1, Hdel1.
      cbn [async_trigger_loop]. rewrite Hhs. cbn [lookup list_lookup].
      destruct (Z.eqb_spec (triggerId h) T) as [Heq | _]; [lia | ].
      rewrite (mark_lt T h Hlt1).
      set (h1 := set_triggerId T h).
      set (w1 := marked w T 0 k h1).
      assert (handlers (instance w1) = (k, h1) :: rest) as Hhs1.
      { unfold w1, marked. wsimpl. rewrite Hhs. reflexivity. }
      assert (world_rest w w1 ∧ instance_rest (instance w) (instance w1) ∧
              handlersChanged (instance w1) = handlersChanged (instance w) ∧
              dispatched w1 = dispatched w ++ [(T, k)] ∧ invoked w1 = invoked w)
        as (Hwr1 & Hir1 & Hhc1 & Hd1 & Hi1).
      { unfold w1, marked. wsimpl. repeat split. }
      destruct (enqueue_async P call w1 h1 tr) as (w2 & tr' & He & Hinst2 & Hwr2 & Hd2 & Hi2).
      { apply (deliverable_frame w w1 h h1); [exact Hwr1 | exact Hir1 | | | exact Hdel1];
          reflexivity. }
      rewrite He. apply instance_eq in Hinst2.
      assert (destroyed w2 = false) as Hdes2.
      { destruct Hwr2 as (_ & -> & _). destruct Hwr1 as (_ & -> & _). exact Hdes. }
      rewrite Hdes2, Hinst2, Hhc1, Hhc.
      set (w3 := update (set_handlersChanged false) w2).
      assert (instance w3 = set_handlersChanged false (instance w1)) as Hinst3.
      { unfold w3. rewrite instance_update, Hinst2. reflexivity. }
      destruct fuel as [ | fuel]; [lia | ].
      rewrite (async_loop_skip fuel w3 T 0 tr' k h1);
        [ | rewrite Hinst3; cbn [set_handlersChanged handlers]; rewrite Hhs1; reflexivity
          | reflexivity ].
      destruct (async_loop_all P call T rest [(k, h1)] w3 tr' fuel)
        as (w' & Hloop & Hh' & Hd' & Hi' & _ & Hir' & Hwr').
      * rewrite Hinst3. cbn [set_handlersChanged handlers]. exact Hhs1.
      * exact Hlt.
      * rewrite Hinst3. reflexivity.
      * exact Hdes2.
      * eapply Forall_impl; [exact Hdel | ]. intros x Hx.
        apply (deliverable_frame w w3 x.2 x.2); [ | | reflexivity | reflexivity | exact Hx].
        -- exact (world_rest_trans _ _ _ Hwr1 Hwr2).
        -- rewrite Hinst3. destruct Hir1 as (? & ? & ? & ? & ? & ?). repeat split; assumption.
      * lia.
      * exists w'. split; [exact Hloop | ].
        split; [exact Hh' | ].
        split; [rewrite Hd'; unfold w3; cbn [dispatched update set_instance];
                rewrite Hd2, Hd1, <- app_assoc; reflexivity | ].
        split; [rewrite Hi'; unfold w3; cbn [invoked update set_instance]; congruence | ].
        split.
        -- eapply instance_rest_trans; [ | exact Hir']. rewrite Hinst3.
           destruct Hir1 as (? & ? & ? & ? & ? & ?). repeat split; assumption.
        -- exact (world_rest_trans _ _ _ Hwr1 (world_rest_trans _ _ _ Hwr2 Hwr')).
  - destruct (async_loop_all P call T hs [] w tr fuel)
      as (w' & Hloop & Hh' & Hd' & Hi' & _ & Hir' & Hwr'); try assumption; [lia | ].
    exists w'. repeat split; try assumption; try apply Hir'; apply Hwr'.
Qed.

(** X21.  [async_trigger] of a live event whose handlers can all be
    delivered to (tagged same-thread, or their queue alive, or errors
    ignored) returns, calls no callable, hands every handler to
    [enqueue] exactly once, in subscription order and under one trigger
    id, which every handler carries afterwards; the cookies, the context
    stack and the [triggering] flag are as before.  [trigger] does the
    same and returns [true] when the trigger type is asynchronous. *)
Theorem async_trigger_hands_each_handler_on_once (fuel : nat) (w : world) (d : instance_data) :
  iInstanceData w = Some d →
  destroyed w = false →
  Forall (λ x : cookie * handler, triggerId x.2 ≤ instance_triggerId d) (handlers d) →
  0 ≤ instance_triggerId d < 2 ^ 64 - 1 →
  Forall (λ x : cookie * handler, deliverable w x.2) (handlers d) →
  (length (handlers d) + 1 < fuel)%nat →
  ∃ w' T,
    async_trigger P call fuel w = (w', Ret tt) ∧
    (triggerType d = Asynchronous ∨ triggerType d = AsynchronousDontQueue →
     trigger P call filter fuel w = (w', Ret true)) ∧
    invoked w' = invoked w ∧
    dispatched w' = dispatched w ++ map (λ x : cookie * handler, (T, x.1)) (handlers d) ∧
    (handlers (instance w')).*1 = (handlers d).*1 ∧
    Forall (λ x : cookie * handler, triggerId x.2 = T) (handlers (instance w')) ∧
    contexts (instance w') = contexts d ∧
    triggering (instance w') = triggering d.
Proof.
  intros Hd Hdes Hids Hrange Hdel Hfuel.
  assert (instance w = d) as Hinst by (unfold instance; rewrite Hd; reflexivity).
  assert (∀ w', async_trigger P call fuel w = (w', Ret tt) →
            (triggerType d = Asynchronous ∨ triggerType d = AsynchronousDontQueue →
             trigger P call filter fuel w = (w', Ret true))) as Htrig.
  { intros w' Ha Ht. unfold trigger, has_instance, trigger_type.
    rewrite Hd, Hinst, bool_decide_eq_true_2 by discriminate. cbn [negb].
    destruct Ht as [-> | ->]; rewrite Ha; reflexivity. }
  cut (∃ w' T,
    async_trigger P call fuel w = (w', Ret tt) ∧
    invoked w' = invoked w ∧
    dispatched w' = dispatched w ++ map (λ x : cookie * handler, (T, x.1)) (handlers d) ∧
    (handlers (instance w')).*1 = (handlers d).*1 ∧
    Forall (λ x : cookie * handler, triggerId x.2 = T) (handlers (instance w')) ∧
    contexts (instance w') = contexts d ∧
    triggering (instance w') = triggering d).
  { intros (w' & T & Ha & Hrest). exists w', T. split; [exact Ha | ].
    split; [exact (Htrig w' Ha) | exact Hrest]. }
  clear Htrig.
  unfold async_trigger, has_instance.
  rewrite Hd, bool_decide_eq_true_2 by discriminate. cbn [negb].
  set (w0 := if bool_decide (trigger_type w = AsynchronousDontQueue) then unqueue P w else w).
  assert (instance w0 = d ∧ destroyed w0 = false ∧ queuesDestroyed w0 = queuesDestroyed w ∧
          invoked w0 = invoked w ∧ dispatched w0 = dispatched w)
    as (Hinst0 & Hdes0 & Hqd0 & Hinv0 & Hdis0).
  { unfold w0. destruct (bool_decide _); wsimpl; auto. }
  clearbody w0. rewrite Hinst0.
  destruct (handlers d) as [ | x0 hs0] eqn:Hhs.
  { exists w0, 0. rewrite Hinst0, Hhs. cbn. rewrite app_nil_r. repeat split; auto. }
  rewrite <- Hhs in *.
  destruct (begin_triggering_spec P w0)
    as (w1 & T & g & Hbt & Hg & Hhs1 & Hlt & HT & HTr & Hcs1 & Hhc1 & _ & Hie1 & Hdes1 & Hqd1
        & Hinv1 & Hdis1).
  { rewrite Hinst0. exact Hids. }
  { rewrite Hinst0. exact Hrange. }
  rewrite Hbt. rewrite Hinst0 in Hhs1, Hcs1, Hie1.
  assert (∀ h, queue (g h) = queue h ∧
               handleInSameThreadAsEmitter (g h) = handleInSameThreadAsEmitter h) as Hgf.
  { intros h. destruct Hg as [-> | ->]; split; reflexivity. }
  destruct (async_from_start T (handlers (instance w1)) w1 None fuel)
    as (w2 & Hloop & Hh2 & Hd2 & Hi2 & Hir2 & Hwr2).
  - reflexivity.
  - exact Hlt.
  - rewrite Hdes1. exact Hdes0.
  - rewrite Hhs1. apply Forall_forall. intros x Hx.
    apply list_elem_of_fmap in Hx as (y & -> & Hy). cbn [snd].
    rewrite Forall_forall in Hdel. specialize (Hdel y Hy).
    destruct (Hgf y.2) as [Hq Hs].
    unfold deliverable, queueDestroyed in *.
    rewrite Hq, Hs, Hqd1, Hqd0, Hie1. rewrite Hinst in Hdel. exact Hdel.
  - rewrite Hhs1, length_map. lia.
  - rewrite Hloop.
    assert (destroyed w2 = false) as Hdes2.
    { destruct Hwr2 as (_ & -> & _). rewrite Hdes1. exact Hdes0. }
    exists (end_triggering (triggering d) w2), T. split; [reflexivity | ].
    unfold end_triggering. rewrite Hdes2. wsimpl.
    destruct Hir2 as (_ & _ & Hc2 & _).
    split; [congruence | ].
    split.
    { rewrite Hd2, Hdis1, Hdis0, Hhs1. f_equal. rewrite map_map. reflexivity. }
    split.
    { rewrite Hh2, Hhs1.
      change (map ?f ?l) with (f <$> l). rewrite <- !list_fmap_compose.
      apply list_fmap_ext. intros i x _. reflexivity. }
    split.
    { rewrite Hh2. apply Forall_forall. intros x Hx.
      apply list_elem_of_fmap in Hx as (y & -> & _). reflexivity. }
    split; [congruence | reflexivity].
Qed.

End AsyncTrigger.

Section SyncAll.

Context (P : platform).
Context (call : nat → world → world * status unit).

Lemma inert_inline_frame (w w' : world) (h h' : handler) :
  world_rest w w' → queue h' = queue h →
  handleInSameThreadAsEmitter h' = handleInSameThreadAsEmitter h →
  callable h' = callable h →
  inert_inline P call w h → inert_inline P call w' h'.
Proof.
  intros (_ & _ & Hqd) Hq Hs Hc [Hin Hcall]. split.
  - rewrite <- Hin. apply calls_inline_frame; assumption.
  - rewrite Hc. exact Hcall.
Qed.

(** The world after the turn of [loop_idle_handler] *)
Lemma idle_turn_world (w : world) (T : Z) (i : nat) (k : cookie) (h : handler) :
  let w2 := log_invoke (callable h) (marked w T i k (set_triggerId T h)) in
  handlers (instance w2) = <[i := (k, set_triggerId T h)]> (handlers (instance w)) ∧
  dispatched w2 = dispatched w ++ [(T, k)] ∧
  invoked w2 = invoked w ++ [callable h] ∧
  handlersChanged (instance w2) = handlersChanged (instance w) ∧
  instance_rest (instance w) (instance w2) ∧ world_rest w w2.
Proof. unfold marked. wsimpl. repeat split. Qed.

Lemma sync_loop_inert (T : Z) (todo : list (cookie * handler)) :
  ∀ (done rest : list (cookie * handler)) (w : world) (tr : option Z) (c : context),
    handlers (instance w) = done ++ todo ++ rest →
    Forall (λ x : cookie * handler, triggerId x.2 < T) todo →
    handlersChanged (instance w) = false →
    destroyed w = false →
    last (contexts (instance w)) = Some c → accepted c = false →
    Forall (λ x : cookie * handler, inert_inline P call w x.2) todo →
    ∃ w' tr',
      (∀ fuel, sync_trigger_loop P call (length todo + fuel) w T (length done) tr
               = sync_trigger_loop P call fuel w' T (length done + length todo) tr') ∧
      handlers (instance w')
      = done ++ map (λ x, (x.1, set_triggerId T x.2)) todo ++ rest ∧
      dispatched w' = dispatched w ++ map (λ x : cookie * handler, (T, x.1)) todo ∧
      invoked w' = invoked w ++ map (λ x : cookie * handler, callable x.2) todo ∧
      instance_rest (instance w) (instance w') ∧ world_rest w w'.
Proof.
  induction todo as [ | [k h] todo' IH]; intros done rest w tr c Hhs Hlt Hhc Hdes Hl Ha Hin.
  - exists w, tr. cbn [length map app]. rewrite Nat.add_0_r, !app_nil_r.
    split; [reflexivity | ]. split; [exact Hhs | ].
    repeat split.
  - apply Forall_cons in Hlt as [Hlt1 Hlt]. apply Forall_cons in Hin as [[Hin1 Hcall1] Hin].
    cbn [snd] in Hlt1, Hin1, Hcall1.
    destruct (idle_turn_world w T (length done) k h) as (Hh2 & Hd2 & Hi2 & Hhc2 & Hir2 & Hwr2).
    set (w2 := log_invoke (callable h) (marked w T (length done) k (set_triggerId T h))) in *.
    destruct (IH (done ++ [(k, set_triggerId T h)]) rest w2 None c)
      as (w' & tr' & Hloop & Hh' & Hd' & Hi' & Hir' & Hwr').
    + rewrite Hh2, Hhs.
      replace (length done) with (length done + 0)%nat at 1 by lia.
      rewrite insert_app_r. cbn. rewrite <- app_assoc. reflexivity.
    + exact Hlt.
    + rewrite Hhc2. exact Hhc.
    + destruct Hwr2 as (_ & -> & _). exact Hdes.
    + destruct Hir2 as (_ & _ & -> & _). exact Hl.
    + exact Ha.
    + eapply Forall_impl; [exact Hin | ]. intros x Hx.
      apply (inert_inline_frame w w2 x.2 x.2); [exact Hwr2 | reflexivity .. | exact Hx].
    + exists w', tr'.
      split.
      { intros fuel. cbn [length Nat.add].
        rewrite (loop_idle_handler P call _ w T (length done) tr k h c);
          [ | rewrite Hhs, lookup_app_r, Nat.sub_diag by lia; reflexivity
            | exact Hlt1 | exact Hin1 | exact Hcall1 | exact Hdes | exact Hl | exact Ha ].
        rewrite Hhc. fold w2. specialize (Hloop fuel).
        rewrite length_app in Hloop. cbn [length] in Hloop.
        replace (length done + 1)%nat with (S (length done)) in Hloop by lia.
        replace (length done + S (length todo'))%nat
          with (S (length done) + length todo')%nat by lia.
        exact Hloop. }
      split; [rewrite Hh', <- app_assoc; reflexivity | ].
      split; [rewrite Hd', Hd2, <- app_assoc; reflexivity | ].
      split; [rewrite Hi', Hi2, <- app_assoc; reflexivity | ].
      split; [exact (instance_rest_trans _ _ _ Hir2 Hir')
             | exact (world_rest_trans _ _ _ Hwr2 Hwr')].
Qed.

(** The same from the head of the list, whatever [handlersChanged]
    holds: when it is set, the loop starts again after the first handler
    and skips it. *)
Lemma sync_from_start (T : Z) (todo rest : list (cookie * handler)) (w : world)
    (tr : option Z) (c : context) :
  handlers (instance w) = todo ++ rest →
  Forall (λ x : cookie * handler, triggerId x.2 < T) todo →
  destroyed w = false →
  last (contexts (instance w)) = Some c → accepted c = false →
  Forall (λ x : cookie * handler, inert_inline P call w x.2) todo →
  ∃ n w' tr',
    (n ≤ length todo + 1)%nat ∧
    (∀ fuel, sync_trigger_loop P call (n + fuel) w T 0 tr
             = sync_trigger_loop P call fuel w' T (length todo) tr') ∧
    handlers (instance w') = map (λ x, (x.1, set_triggerId T x.2)) todo ++ rest ∧
    dispatched w' = dispatched w ++ map (λ x : cookie * handler, (T, x.1)) todo ∧
    invoked w' = invoked w ++ map (λ x : cookie * handler, callable x.2) todo ∧
    instance_rest (instance w) (instance w') ∧ world_rest w w'.
Proof.
  intros Hhs Hlt Hdes Hl Ha Hin.
  destruct (handlersChanged (instance w)) eqn:Hhc.
  - destruct todo as [ | [k h] todo'].
    + exists 0%nat, w, tr. split; [cbn; lia | ]. split; [reflexivity | ].
      cbn [map app]. rewrite !app_nil_r. repeat split. exact Hhs.
    + apply Forall_cons in Hlt as [Hlt1 Hlt]. apply Forall_cons in Hin as [[Hin1 Hcall1] Hin].
      cbn [snd] in Hlt1, Hin1, Hcall1.
      destruct (idle_turn_world w T 0 k h) as (Hh2 & Hd2 & Hi2 & Hhc2 & Hir2 & Hwr2).
      set (w2 := log_invoke (callable h) (marked w T 0 k (set_triggerId T h))) in *.
      set (w3 := update (set_handlersChanged false) w2).
      assert (handlers (instance w3) = [(k, set_triggerId T h)] ++ todo' ++ rest) as Hh3.
      { unfold w3. rewrite instance_update. cbn [set_handlersChanged handlers].
        rewrite Hh2, Hhs. reflexivity. }
      assert (instance_rest (instance w) (instance w3)) as Hir3.
      { unfold w3. rewrite instance_update.
        destruct Hir2 as (? & ? & ? & ? & ? & ?). repeat split; assumption. }
      assert (world_rest w w3) as Hwr3.
      { destruct Hwr2 as (? & ? & ?). repeat split; assumption. }
      destruct (sync_loop_inert T todo' [(k, set_triggerId T h)] rest w3 None c)
        as (w' & tr' & Hloop & Hh' & Hd' & Hi' & Hir' & Hwr').
      * exact Hh3.
      * exact Hlt.
      * unfold w3. rewrite instance_update. reflexivity.
      * destruct Hwr3 as (_ & -> & _). exact Hdes.
      * destruct Hir3 as (_ & _ & -> & _). exact Hl.
      * exact Ha.
      * eapply Forall_impl; [exact Hin | ]. intros x Hx.
        apply (inert_inline_frame w w3 x.2 x.2); [exact Hwr3 | reflexivity .. | exact Hx].
      * exists (S (S (length todo'))), w', tr'.
        split; [cbn [length]; lia | ].
        split.
        { intros fuel. cbn [Nat.add].
          rewrite (loop_idle_handler P call _ w T 0 tr k h c);
            [ | rewrite Hhs; reflexivity
              | exact Hlt1 | exact Hin1 | exact Hcall1 | exact Hdes | exact Hl | exact Ha ].
          rewrite Hhc. fold w2. fold w3.
          rewrite (loop_skip P call _ w3 T 0 None k (set_triggerId T h));
            [ | rewrite Hh3; reflexivity | reflexivity ].
          exact (Hloop fuel). }
        cbn [length Nat.add app] in Hh'. cbn [map app].
        split; [exact Hh' | ].
        split.
        { rewrite Hd'. unfold w3. cbn [dispatched update set_instance].
          rewrite Hd2, <- app_assoc. reflexivity. }
        split.
        { rewrite Hi'. unfold w3. cbn [invoked update set_instance].
          rewrite Hi2, <- app_assoc. reflexivity. }
        split; [exact (instance_rest_trans _ _ _ Hir3 Hir')
               | exact (world_rest_trans _ _ _ Hwr3 Hwr')].
  - destruct (sync_loop_inert T todo [] rest w tr c)
      as (w' & tr' & Hloop & Hh' & Hd' & Hi' & Hir' & Hwr'); try assumption.
    exists (length todo), w', tr'. split; [lia | ].
    split; [exact Hloop | ]. repeat split; try assumption; try apply Hir'; apply Hwr'.
Qed.

Context (filter : world → world * status unit).

(** [sync_trigger] of an event without filters up to the handler behind
    the handlers [pre], which are called inline and do nothing *)
Lemma sync_trigger_reaches (fuel : nat) (w : world) (d : instance_data)
    (pre post : list (cookie * handler)) :
  iInstanceData w = Some d → destroyed w = false → filtered w = false →
  handlers d = pre ++ post → handlers d ≠ [] →
  Forall (λ x : cookie * handler, triggerId x.2 ≤ instance_triggerId d) (handlers d) →
  0 ≤ instance_triggerId d < 2 ^ 64 - 1 →
  Forall (λ x : cookie * handler, inert_inline P call w x.2) pre →
  (length pre + 1 < fuel)%nat →
  ∃ (w1 : world) (T : Z) (g : handler → handler) (fuel' : nat) (tr : option Z),
    sync_trigger P call filter fuel w
    = (let '(w2, r) := sync_trigger_loop P call (S fuel') w1 T (length pre) tr in
       (end_triggering (triggering d) w2, r)) ∧
    (g = (λ h, h) ∨ g = set_triggerId 0) ∧
    Forall (λ x : cookie * handler, triggerId (g x.2) < T) post ∧
    handlers (instance w1)
    = map (λ x, (x.1, set_triggerId T x.2)) pre ++ map (λ x, (x.1, g x.2)) post ∧
    dispatched w1 = dispatched w ++ map (λ x : cookie * handler, (T, x.1)) pre ∧
    invoked w1 = invoked w ++ map (λ x : cookie * handler, callable x.2) pre ∧
    contexts (instance w1)
    = contexts d ++ [{| accepted := false; context_handlersChanged := false |}] ∧
    destroyed w1 = false ∧ queuesDestroyed w1 = queuesDestroyed w.
Proof.
  intros Hd Hdes Hfilt Hhs Hne Hids Hrange Hin Hfuel.
  assert (instance w = d) as Hinst by (unfold instance; rewrite Hd; reflexivity).
  unfold sync_trigger, has_instance.
  rewrite Hd, bool_decide_eq_true_2 by discriminate. cbn [negb].
  set (w0 := if bool_decide (trigger_type w = SynchronousDontQueue) then unqueue P w else w).
  assert (instance w0 = d ∧ destroyed w0 = false ∧ queuesDestroyed w0 = queuesDestroyed w ∧
          invoked w0 = invoked w ∧ dispatched w0 = dispatched w)
    as (Hinst0 & Hdes0 & Hqd0 & Hinv0 & Hdis0).
  { unfold w0. destruct (bool_decide _); wsimpl; auto. }
  clearbody w0.
  rewrite Hinst0, bool_decide_eq_false_2 by exact Hne. cbn [andb].
  set (c0 := {| accepted := false; context_handlersChanged := false |}).
  set (w1 := push_context w0).
  assert (instance w1 = set_contexts (contexts d ++ [c0]) d) as Hinst1.
  { unfold w1, push_context. rewrite instance_update, Hinst0. reflexivity. }
  assert (filtered w1 = false) as Hf1.
  { unfold filtered in *. rewrite Hinst1. rewrite Hinst in Hfilt. exact Hfilt. }
  rewrite Hf1. unfold sync_trigger_dispatch. rewrite Hinst1.
  cbn [set_contexts handlers triggering].
  destruct (handlers d) as [ | x0 hs0] eqn:Hhd; [congruence | ]. rewrite <- Hhd in *.
  destruct (begin_triggering_spec P w1)
    as (w2 & T & g & Hbt & Hg & Hhs2 & Hlt & _ & HT & Hcs2 & _ & _ & _ & Hdes2 & Hqd2
        & Hinv2 & Hdis2).
  { rewrite Hinst1. exact Hids. }
  { rewrite Hinst1. exact Hrange. }
  rewrite Hbt. rewrite Hinst1 in Hhs2, Hcs2. cbn [set_contexts handlers contexts] in Hhs2, Hcs2.
  assert (∀ h, queue (g h) = queue h ∧
               handleInSameThreadAsEmitter (g h) = handleInSameThreadAsEmitter h ∧
               callable (g h) = callable h) as Hgf.
  { intros h. destruct Hg as [-> | ->]; repeat split. }
  rewrite Hhs, map_app in Hhs2. rewrite Hhs2 in Hlt. apply Forall_app in Hlt as [Hlt Hltp].
  destruct (sync_from_start T (map (λ x, (x.1, g x.2)) pre) (map (λ x, (x.1, g x.2)) post)
              w2 None c0)
    as (n & w3 & tr & Hn & Hloop & Hh3 & Hd3 & Hi3 & Hir3 & Hwr3).
  - exact Hhs2.
  - exact Hlt.
  - rewrite Hdes2. unfold w1. wsimpl. exact Hdes0.
  - rewrite Hcs2. apply last_snoc.
  - reflexivity.
  - apply Forall_forall. intros x Hx. apply list_elem_of_fmap in Hx as (y & -> & Hy).
    cbn [snd]. rewrite Forall_forall in Hin. destruct (Hin y Hy) as [Hin1 Hcall1].
    destruct (Hgf y.2) as (Hq & Hs & Hc). split.
    + rewrite <- Hin1. apply calls_inline_frame; [ | exact Hq | exact Hs].
      rewrite Hqd2. unfold w1. wsimpl. exact Hqd0.
    + rewrite Hc. exact Hcall1.
  - rewrite length_map in Hn, Hloop.
    exists w3, T, g, (fuel - n - 1)%nat, tr.
    replace fuel with (n + S (fuel - n - 1))%nat at 1 by lia.
    rewrite Hloop.
    split; [reflexivity | ]. split; [exact Hg | ].
    split; [rewrite Forall_map in Hltp; exact Hltp | ].
    split.
    { rewrite Hh3, map_map. f_equal. apply map_ext. intros x. cbn [fst snd].
      destruct Hg as [-> | ->]; reflexivity. }
    split; [rewrite Hd3, Hdis2, map_map; unfold w1; wsimpl; rewrite Hdis0; reflexivity | ].
    split.
    { rewrite Hi3, Hinv2, map_map. unfold w1. wsimpl. rewrite Hinv0.
      f_equal. apply map_ext. intros x. apply Hgf. }
    destruct Hir3 as (_ & _ & Hc3 & _). destruct Hwr3 as (_ & Hde3 & Hqd3).
    split; [rewrite Hc3; exact Hcs2 | ].
    split; [rewrite Hde3, Hdes2; unfold w1; wsimpl; exact Hdes0 | ].
    rewrite Hqd3, Hqd2. unfold w1. wsimpl. exact Hqd0.
Qed.

(** X22.  [sync_trigger] of a live event without filters whose
    handlers are all called inline and do nothing returns [true] after
    calling every callable exactly once, in subscription order, under
    one trigger id; the cookies, the context stack and the [triggering]
    flag are as before.  [trigger] does the same unless the trigger type
    is asynchronous. *)
Theorem sync_trigger_calls_each_in_order (fuel : nat) (w : world) (d : instance_data) :
  iInstanceData w = Some d → destroyed w = false → filtered w = false →
  Forall (λ x : cookie * handler, triggerId x.2 ≤ instance_triggerId d) (handlers d) →
  0 ≤ instance_triggerId d < 2 ^ 64 - 1 →
  Forall (λ x : cookie * handler, inert_inline P call w x.2) (handlers d) →
  (length (handlers d) + 1 < fuel)%nat →
  ∃ w' T,
    sync_trigger P call filter fuel w = (w', Ret true) ∧
    (triggerType d ≠ Asynchronous → triggerType d ≠ AsynchronousDontQueue →
     trigger P call filter fuel w = (w', Ret true)) ∧
    invoked w' = invoked w ++ map (λ x : cookie * handler, callable x.2) (handlers d) ∧
    dispatched w' = dispatched w ++ map (λ x : cookie * handler, (T, x.1)) (handlers d) ∧
    (handlers (instance w')).*1 = (handlers d).*1 ∧
    contexts (instance w') = contexts d ∧
    triggering (instance w') = triggering d.
Proof.
  intros Hd Hdes Hfilt Hids Hrange Hin Hfuel.
  assert (instance w = d) as Hinst by (unfold instance; rewrite Hd; reflexivity).
  cut (∃ w' T,
    sync_trigger P call filter fuel w = (w', Ret true) ∧
    invoked w' = invoked w ++ map (λ x : cookie * handler, callable x.2) (handlers d) ∧
    dispatched w' = dispatched w ++ map (λ x : cookie * handler, (T, x.1)) (handlers d) ∧
    (handlers (instance w')).*1 = (handlers d).*1 ∧
    contexts (instance w') = contexts d ∧
    triggering (instance w') = triggering d).
  { intros (w' & T & Hs & Hrest). exists w', T. split; [exact Hs | ].
    split; [ | exact Hrest].
    intros Hn1 Hn2. unfold trigger, has_instance, trigger_type.
    rewrite Hd, Hinst, bool_decide_eq_true_2 by discriminate. cbn [negb].
    destruct (triggerType d); try exact Hs; congruence. }
  destruct (handlers d) as [ | x0 hs0] eqn:Hhd.
  { unfold sync_trigger, has_instance.
    rewrite Hd, bool_decide_eq_true_2 by discriminate. cbn [negb].
    set (w0 := if bool_decide (trigger_type w = SynchronousDontQueue) then unqueue P w else w).
    assert (instance w0 = d ∧ invoked w0 = invoked w ∧ dispatched w0 = dispatched w ∧
            filtered w0 = false)
      as (Hinst0 & Hinv0 & Hdis0 & Hf0).
    { unfold w0. destruct (bool_decide _); unfold filtered in *; wsimpl; auto. }
    rewrite Hinst0, Hhd, Hf0, bool_decide_eq_true_2 by reflexivity. cbn [andb negb].
    exists w0, 0. rewrite Hinst0, Hhd. cbn. rewrite !app_nil_r. repeat split; auto. }
  rewrite <- Hhd in *.
  destruct (sync_trigger_reaches fuel w d (handlers d) [])
    as (w1 & T & g & fuel' & tr & Hs & _ & _ & Hh1 & Hd1 & Hi1 & Hc1 & Hdes1 & _);
    try assumption.
  { rewrite app_nil_r. reflexivity. }
  { rewrite Hhd. discriminate. }
  cbn [map] in Hh1. rewrite app_nil_r in Hh1.
  rewrite Hs, loop_exit
    by (rewrite Hh1; apply lookup_ge_None_2; rewrite length_map; lia).
  exists (end_triggering (triggering d) (pop_context w1)), T.
  split; [reflexivity | ].
  unfold end_triggering. wsimpl. rewrite Hdes1. wsimpl.
  rewrite Hh1, Hc1, removelast_snoc.
  repeat split; try assumption.
  change (map ?f ?l) with (f <$> l). rewrite <- list_fmap_compose.
  apply list_fmap_ext. intros i x _. reflexivity.
Qed.

(** The turn of the loop for the handler behind [pre], up to the call
    of its callable *)
Lemma sync_trigger_reaches_call (fuel : nat) (w : world) (d : instance_data)
    (pre post : list (cookie * handler)) (k : cookie) (h : handler) :
  iInstanceData w = Some d → destroyed w = false → filtered w = false →
  handlers d = pre ++ (k, h) :: post →
  Forall (λ x : cookie * handler, triggerId x.2 ≤ instance_triggerId d) (handlers d) →
  0 ≤ instance_triggerId d < 2 ^ 64 - 1 →
  Forall (λ x : cookie * handler, inert_inline P call w x.2) pre →
  calls_inline P w h false = true →
  (length pre + 1 < fuel)%nat →
  ∃ (w2 : world) (T : Z) (fuel' : nat),
    sync_trigger P call filter fuel w
    = (let '(w3, r) :=
         match call (callable h) w2 with
         | (w3, Exn e) => (pop_context w3, Exn e)
         | (w3, Undefined) => (w3, Undefined)
         | (w3, Stuck) => (w3, Stuck)
         | (w3, Ret _) =>
             if destroyed w3 then (w3, Ret true)
             else
               match last (contexts (instance w3)) with
               | None => (w3, Undefined)
               | Some c =>
                   if accepted c then (pop_context w3, Ret false)
                   else if handlersChanged (instance w3)
                   then sync_trigger_loop P call fuel' (update (set_handlersChanged false) w3)
                          T 0%nat None
                   else sync_trigger_loop P call fuel' w3 T (S (length pre)) None
               end
         end in
       (end_triggering (triggering d) w3, r)) ∧
    invoked w2 = invoked w ++ map (λ x : cookie * handler, callable x.2) pre ++ [callable h] ∧
    dispatched w2 = dispatched w ++ map (λ x : cookie * handler, (T, x.1)) pre ++ [(T, k)] ∧
    (handlers (instance w2)).*1 = (handlers d).*1 ∧
    contexts (instance w2)
    = contexts d ++ [{| accepted := false; context_handlersChanged := false |}] ∧
    destroyed w2 = false.
Proof.
  intros Hd Hdes Hfilt Hhs Hids Hrange Hin Hinl Hfuel.
  destruct (sync_trigger_reaches fuel w d pre ((k, h) :: post))
    as (w1 & T & g & fuel' & tr & Hs & Hg & Hlt & Hh1 & Hd1 & Hi1 & Hc1 & Hdes1 & Hqd1);
    try assumption.
  { rewrite Hhs. destruct pre; discriminate. }
  apply Forall_cons in Hlt as [Hlt _]. cbn [snd] in Hlt.
  assert (queue (g h) = queue h ∧
          handleInSameThreadAsEmitter (g h) = handleInSameThreadAsEmitter h ∧
          callable (g h) = callable h) as (Hq & Hsm & Hcb).
  { destruct Hg as [-> | ->]; repeat split. }
  set (i := length pre) in *.
  set (h1 := set_triggerId T (g h)).
  set (w2 := log_invoke (callable h) (marked w1 T i k h1)).
  exists w2, T, fuel'. split.
  - rewrite Hs. rewrite (loop_dispatch P call fuel' w1 T i tr k (g h));
      [ | rewrite Hh1, lookup_app_r by (rewrite length_map; unfold i; lia);
          rewrite length_map; unfold i; rewrite Nat.sub_diag; reflexivity
        | lia ].
    rewrite (mark_lt T (g h) Hlt). fold h1.
    rewrite enqueue_inline
      by (rewrite <- Hinl; apply calls_inline_frame;
          [unfold marked; wsimpl; exact Hqd1 | exact Hq | exact Hsm]).
    change (callable h1) with (callable (g h)). rewrite Hcb. fold w2.
    destruct (call (callable h) w2) as [w3 [[] | e | | ]]; reflexivity.
  - unfold w2, marked. wsimpl. rewrite Hi1, Hd1, Hh1, Hc1, Hhs, Hdes1, <- !app_assoc.
    repeat split.
    replace i with (length (map (λ x : cookie * handler, (x.1, set_triggerId T x.2)) pre) + 0)%nat
      by (rewrite length_map; unfold i; lia).
    rewrite insert_app_r. cbn [map insert list_insert].
    rewrite !fmap_app, !fmap_cons. cbn [fst].
    f_equal; [ | f_equal]; change (map ?f ?l) with (f <$> l); rewrite <- list_fmap_compose;
      apply list_fmap_ext; intros j x _; reflexivity.
Qed.

(** X23.  When the handlers before one whose callable throws are called
    inline and do nothing, [sync_trigger] calls them in order, then the
    thrower, and lets the exception out; no handler behind the thrower
    is called; the context that was pushed is popped and the
    [triggering] flag is put back. *)
Theorem sync_trigger_stops_at_exception (fuel : nat) (w : world) (d : instance_data)
    (pre post : list (cookie * handler)) (k : cookie) (h : handler) (e : exn) :
  iInstanceData w = Some d → destroyed w = false → filtered w = false →
  handlers d = pre ++ (k, h) :: post →
  Forall (λ x : cookie * handler, triggerId x.2 ≤ instance_triggerId d) (handlers d) →
  0 ≤ instance_triggerId d < 2 ^ 64 - 1 →
  Forall (λ x : cookie * handler, inert_inline P call w x.2) pre →
  calls_inline P w h false = true →
  (∀ w', call (callable h) w' = (w', Exn e)) →
  (length pre + 1 < fuel)%nat →
  ∃ w' T,
    sync_trigger P call filter fuel w = (w', Exn e) ∧
    invoked w'
    = invoked w ++ map (λ x : cookie * handler, callable x.2) pre ++ [callable h] ∧
    dispatched w'
    = dispatched w ++ map (λ x : cookie * handler, (T, x.1)) pre ++ [(T, k)] ∧
    (handlers (instance w')).*1 = (handlers d).*1 ∧
    contexts (instance w') = contexts d ∧
    triggering (instance w') = triggering d.
Proof.
  intros Hd Hdes Hfilt Hhs Hids Hrange Hin Hinl Hcall Hfuel.
  destruct (sync_trigger_reaches_call fuel w d pre post k h)
    as (w2 & T & fuel' & Hs & Hi2 & Hd2 & Hh2 & Hc2 & Hdes2); try assumption.
  rewrite Hcall in Hs.
  exists (end_triggering (triggering d) (pop_context w2)), T.
  split; [exact Hs | ].
  unfold end_triggering. wsimpl. rewrite Hdes2. wsimpl.
  rewrite Hc2, removelast_snoc. repeat split; assumption.
Qed.

(** X24.  When the handlers before one whose callable accepts the event
    are called inline and do nothing, [sync_trigger] calls them in
    order, then the accepting one, and returns [false]; no handler
    behind it is called; the context that was pushed is popped and the
    [triggering] flag is put back. *)
Theorem sync_trigger_stops_at_accept (fuel : nat) (w : world) (d : instance_data)
    (pre post : list (cookie * handler)) (k : cookie) (h : handler) :
  iInstanceData w = Some d → destroyed w = false → filtered w = false →
  handlers d = pre ++ (k, h) :: post →
  Forall (λ x : cookie * handler, triggerId x.2 ≤ instance_triggerId d) (handlers d) →
  0 ≤ instance_triggerId d < 2 ^ 64 - 1 →
  Forall (λ x : cookie * handler, inert_inline P call w x.2) pre →
  calls_inline P w h false = true →
  (∀ w', call (callable h) w' = accept w') →
  (length pre + 1 < fuel)%nat →
  ∃ w' T,
    sync_trigger P call filter fuel w = (w', Ret false) ∧
    invoked w'
    = invoked w ++ map (λ x : cookie * handler, callable x.2) pre ++ [callable h] ∧
    dispatched w'
    = dispatched w ++ map (λ x : cookie * handler, (T, x.1)) pre ++ [(T, k)] ∧
    (handlers (instance w')).*1 = (handlers d).*1 ∧
    contexts (instance w') = contexts d ∧
    triggering (instance w') = triggering d.
Proof.
  intros Hd Hdes Hfilt Hhs Hids Hrange Hin Hinl Hcall Hfuel.
  destruct (sync_trigger_reaches_call fuel w d pre post k h)
    as (w2 & T & fuel' & Hs & Hi2 & Hd2 & Hh2 & Hc2 & Hdes2); try assumption.
  rewrite Hcall in Hs. unfold accept, mark_back in Hs.
  rewrite Hc2, last_snoc in Hs. wsimpl.
  rewrite Hdes2, Hc2, removelast_snoc, last_snoc in Hs. cbn [set_accepted accepted] in Hs.
  wsimpl. rewrite Hdes2 in Hs.
  eexists _, T. split; [exact Hs | ].
  wsimpl. rewrite Hc2, !removelast_snoc. repeat split; assumption.
Qed.

End SyncAll.

Lemma async_trigger_hands_each_handler_on_once_witness :
  let P := spec_platform 0 true in
  let w := three_handlers P in
  ∃ w' T,
    async_trigger P inert_call 5 w = (w', Ret tt) ∧
    (triggerType (instance w) = Asynchronous ∨
     triggerType (instance w) = AsynchronousDontQueue →
     trigger P inert_call (inert_call 0) 5 w = (w', Ret true)) ∧
    invoked w' = invoked w ∧
    dispatched w'
    = dispatched w ++ map (λ x : cookie * handler, (T, x.1)) (handlers (instance w)) ∧
    (handlers (instance w')).*1 = (handlers (instance w)).*1 ∧
    Forall (λ x : cookie * handler, triggerId x.2 = T) (handlers (instance w')) ∧
    contexts (instance w') = contexts (instance w) ∧
    triggering (instance w') = triggering (instance w).
Proof.
  intros P w.
  apply (async_trigger_hands_each_handler_on_once P inert_call (inert_call 0) 5 w (instance w)).
  - vm_compute. reflexivity.
  - vm_compute. reflexivity.
  - apply (bool_decide_unpack _). vm_compute. exact I.
  - apply (bool_decide_unpack _). vm_compute. exact I.
  - apply Forall_forall. intros x _. right. left. reflexivity.
  - apply (bool_decide_unpack _). vm_compute. exact I.
Defined.


Lemma sync_trigger_calls_each_in_order_witness :
  let P := spec_platform 0 true in
  let w := three_handlers P in
  ∃ w' T,
    sync_trigger P inert_call (inert_call 0) 5 w = (w', Ret true) ∧
    (triggerType (instance w) ≠ Asynchronous →
     triggerType (instance w) ≠ AsynchronousDontQueue →
     trigger P inert_call (inert_call 0) 5 w = (w', Ret true)) ∧
    invoked w'
    = invoked w ++ map (λ x : cookie * handler, callable x.2) (handlers (instance w)) ∧
    dispatched w'
    = dispatched w ++ map (λ x : cookie * handler, (T, x.1)) (handlers (instance w)) ∧
    (handlers (instance w')).*1 = (handlers (instance w)).*1 ∧
    contexts (instance w') = contexts (instance w) ∧
    triggering (instance w') = triggering (instance w).
Proof.
  intros P w.
  apply (sync_trigger_calls_each_in_order P inert_call (inert_call 0) 5 w (instance w)).
  - vm_compute. reflexivity.
  - vm_compute. reflexivity.
  - vm_compute. reflexivity.
  - apply (bool_decide_unpack _). vm_compute. exact I.
  - apply (bool_decide_unpack _). vm_compute. exact I.
  - apply Forall_forall. intros x Hx.
    split; [ | intros w'; reflexivity].
    revert x Hx. apply Forall_forall. apply (bool_decide_unpack _). vm_compute. exact I.
  - apply (bool_decide_unpack _). vm_compute. exact I.
Defined.

Lemma sync_trigger_stops_at_exception_witness :
  let P := spec_platform 0 true in
  let w := three_handlers P in
  ∃ w' T,
    sync_trigger P third_throws (inert_call 0) 5 w = (w', Exn (user_exception 0)) ∧
    invoked w' = invoked w ++ [1; 2]%nat ++ [3%nat] ∧
    dispatched w' = dispatched w ++ [(T, 1); (T, 2)] ++ [(T, 3)] ∧
    (handlers (instance w')).*1 = (handlers (instance w)).*1 ∧
    contexts (instance w') = contexts (instance w) ∧
    triggering (instance w') = triggering (instance w).
Proof.
  intros P w.
  apply (sync_trigger_stops_at_exception P third_throws (inert_call 0) 5 w (instance w)
           [(1, subscribed P 1 0 1); (2, subscribed P 2 0 2)] [] 3 (subscribed P 3 0 3)
           (user_exception 0)).
  - vm_compute. reflexivity.
  - vm_compute. reflexivity.
  - vm_compute. reflexivity.
  - vm_compute. reflexivity.
  - apply (bool_decide_unpack _). vm_compute. exact I.
  - apply (bool_decide_unpack _). vm_compute. exact I.
  - repeat (apply Forall_cons;
            split; [split; [vm_compute; reflexivity | intros w'; reflexivity] | ]).
    apply Forall_nil_2.
  - vm_compute. reflexivity.
  - intros w'. reflexivity.
  - apply (bool_decide_unpack _). vm_compute. exact I.
Defined.

Lemma sync_trigger_stops_at_accept_witness :
  let P := spec_platform 0 true in
  let w := three_handlers P in
  ∃ w' T,
    sync_trigger P second_accepts (inert_call 0) 5 w = (w', Ret false) ∧
    invoked w' = invoked w ++ [1%nat] ++ [2%nat] ∧
    dispatched w' = dispatched w ++ [(T, 1)] ++ [(T, 2)] ∧
    (handlers (instance w')).*1 = (handlers (instance w)).*1 ∧
    contexts (instance w') = contexts (instance w) ∧
    triggering (instance w') = triggering (instance w).
Proof.
  intros P w.
  apply (sync_trigger_stops_at_accept P second_accepts (inert_call 0) 5 w (instance w)
           [(1, subscribed P 1 0 1)] [(3, subscribed P 3 0 3)] 2 (subscribed P 2 0 2)).
  - vm_compute. reflexivity.
  - vm_compute. reflexivity.
  - vm_compute. reflexivity.
  - vm_compute. reflexivity.
  - apply (bool_decide_unpack _). vm_compute. exact I.
  - apply (bool_decide_unpack _). vm_compute. exact I.
  - repeat (apply Forall_cons;
            split; [split; [vm_compute; reflexivity | intros w'; reflexivity] | ]).
    apply Forall_nil_2.
  - vm_compute. reflexivity.
  - intros w'. reflexivity.
  - apply (bool_decide_unpack _). vm_compute. exact I.
Defined.

(** *** Handlers tagged for the thread of the emitter *)

(** X25.  On an event with unique cookies,
    [handle_in_same_thread_as_emitter] throws [event_handler_not_found]
    for a cookie that is not subscribed, having made the instance data
    if there was none; for a subscribed cookie it changes that handler
    only, and from then on [enqueue] needs no queue of the handler's
    own: in a synchronous dispatch it calls the callable inline,
    whatever became of the handler's queue, and in an asynchronous one
    it puts the callback on the queue of the emitter and returns. *)
Theorem tagged_handler_needs_no_queue (P : platform)
    (call : nat → world → world * status unit) (w : world) (k : cookie) :
  NoDup (handlers (instance w)).*1 →
  (k ∉ (handlers (instance w)).*1 →
   handle_in_same_thread_as_emitter k w = (touch w, Exn event_handler_not_found)) ∧
  (∀ i h, handlers (instance w) !! i = Some (k, h) →
     ∃ w' h',
       handle_in_same_thread_as_emitter k w = (w', Ret tt) ∧
       handlers (instance w') = <[i := (k, h')]> (handlers (instance w)) ∧
       callable h' = callable h ∧
       (∀ w2 tr,
          enqueue P call w2 h' false tr
          = match call (callable h) (log_invoke (callable h) w2) with
            | (w3, Ret _) => (w3, Ret None)
            | (w3, Exn e) => (w3, Exn e)
            | (w3, Undefined) => (w3, Undefined)
            | (w3, Stuck) => (w3, Stuck)
            end) ∧
       (∀ w2 tr, ∃ w3 t,
          enqueue P call w2 h' true tr = (w3, Ret (Some t)) ∧
          invoked w3 = invoked w2 ∧
          ∀ q, q ≠ emitterQueue P → queues w3 !! q = queues w2 !! q)).
Proof.
  intros Hnd. split.
  - intros Hk. unfold handle_in_same_thread_as_emitter.
    rewrite (proj2 (find_handler_None _ _) Hk). reflexivity.
  - intros i h Hi. unfold handle_in_same_thread_as_emitter.
    rewrite (find_handler_lookup _ i k h Hnd Hi).
    eexists _, _. split; [reflexivity | ]. rewrite instance_update.
    cbn [set_handlers handlers].
    split.
    { apply list_eq. intros j. rewrite list_lookup_alter.
      destruct (decide (j = i)) as [-> | Hne].
      - rewrite decide_True by reflexivity.
        rewrite Hi, list_lookup_insert_eq by (eapply lookup_lt_Some; exact Hi). reflexivity.
      - rewrite decide_False by congruence.
        rewrite list_lookup_insert_ne by congruence. reflexivity. }
    split; [reflexivity | ].
    split.
    + intros w2 tr. rewrite enqueue_inline; reflexivity.
    + intros w2 tr. unfold enqueue, calls_inline. cbn [negb andb snd handleInSameThreadAsEmitter].
      unfold enqueue_on. destruct (queue_enqueue P _ _ _ _) as [q' t].
      eexists _, _. split; [reflexivity | ]. split; [reflexivity | ].
      intros q Hq. cbn [queues set_queues]. apply lookup_insert_ne. congruence.
Qed.

Lemma tagged_handler_needs_no_queue_witness :
  let P := spec_platform 0 true in
  let w := three_handlers P in
  (2 ∉ (handlers (instance w)).*1 →
   handle_in_same_thread_as_emitter 2 w = (touch w, Exn event_handler_not_found)) ∧
  (∀ i h, handlers (instance w) !! i = Some (2, h) →
     ∃ w' h',
       handle_in_same_thread_as_emitter 2 w = (w', Ret tt) ∧
       handlers (instance w') = <[i := (2, h')]> (handlers (instance w)) ∧
       callable h' = callable h ∧
       (∀ w2 tr,
          enqueue P inert_call w2 h' false tr
          = match inert_call (callable h) (log_invoke (callable h) w2) with
            | (w3, Ret _) => (w3, Ret None)
            | (w3, Exn e) => (w3, Exn e)
            | (w3, Undefined) => (w3, Undefined)
            | (w3, Stuck) => (w3, Stuck)
            end) ∧
       (∀ w2 tr, ∃ w3 t,
          enqueue P inert_call w2 h' true tr = (w3, Ret (Some t)) ∧
          invoked w3 = invoked w2 ∧
          ∀ q, q ≠ emitterQueue P → queues w3 !! q = queues w2 !! q)).
Proof.
  intros P w.
  apply (tagged_handler_needs_no_queue P inert_call w 2).
  apply (bool_decide_unpack _). vm_compute. exact I.
Defined.

(** The dispatches of the trigger inside a trigger do not depend on what
    is found in [handlerIsStateless]: every callable is called inline. *)
Lemma reentrant_dispatch_any_stateless (stateless : cookie → bool) (sets : bool) :
  let P := spec_platform_with stateless 0 sets in
  let r := event_sync_trigger P reentrant [] 6 (two_handlers P) in
  r.2 = Ret true ∧
  dispatched r.1 = [(1, 1); (1, 2); (2, 1); (1, 1); (1, 3)] ∧
  invoked r.1 = [1; 2; 1; 1; 3]%nat.
Proof. destruct sets; vm_compute; repeat split. Qed.

End EventFacts.

(** ** The recursion limiter *)

Module LimiterFacts.

Import Limiter.

Lemma size_t_small (z : Z) : 0 ≤ z < 2 ^ 64 → size_t z = z.
Proof. intros H. unfold size_t. apply Z.mod_small. exact H. Qed.

Lemma construct_fits (aMaxDepth d : Z) :
  0 ≤ d → d + 1 ≤ aMaxDepth → aMaxDepth < 2 ^ 64 →
  construct aMaxDepth d = (d + 1, Ok {| iMaxDepth := aMaxDepth |}).
Proof.
  intros H0 H1 H2. unfold construct, max_depth. cbn [iMaxDepth].
  rewrite size_t_small by lia.
  destruct (Z.gtb_spec (d + 1) aMaxDepth) as [H | H]; [lia | reflexivity].
Qed.

Lemma construct_too_deep (aMaxDepth d : Z) :
  0 ≤ d → aMaxDepth < d + 1 → d + 1 < 2 ^ 64 →
  construct aMaxDepth d = (d + 1, Throw too_deep).
Proof.
  intros H0 H1 H2. unfold construct, max_depth. cbn [iMaxDepth].
  rewrite size_t_small by lia.
  destruct (Z.gtb_spec (d + 1) aMaxDepth) as [H | H]; [reflexivity | lia].
Qed.

(** A block under a limiter whose constructor went through leaves the
    counter as its body leaves it, less one, however the body ends. *)
Lemma limited_fits {A} (aMaxDepth d : Z) (body : Z → Z * result A) :
  0 ≤ d → d + 1 ≤ aMaxDepth → aMaxDepth < 2 ^ 64 →
  limited aMaxDepth body d = (destroy (body (d + 1)).1, (body (d + 1)).2).
Proof.
  intros H0 H1 H2. unfold limited. rewrite construct_fits by assumption.
  destruct (body (d + 1)); reflexivity.
Qed.

(** What [n] + 1 nested blocks come to *)
Lemma recurse_exact (aMaxDepth : Z) (n : nat) (d : Z) :
  0 ≤ d → d + 1 < 2 ^ 64 → aMaxDepth < 2 ^ 64 - 1 →
  recurse aMaxDepth n d
  = if d + Z.of_nat n + 1 <=? aMaxDepth then (d, Ok tt) else (d + 1, Throw too_deep).
Proof.
  revert d. induction n as [ | n IH]; intros d H0 H1 H2.
  - cbn [recurse]. rewrite Z.add_0_r.
    destruct (Z.leb_spec (d + 1) aMaxDepth) as [Hle | Hgt].
    + rewrite limited_fits by lia. cbn [fst snd]. unfold destroy.
      rewrite size_t_small by lia. f_equal. lia.
    + unfold limited. rewrite construct_too_deep by lia. reflexivity.
  - cbn [recurse].
    destruct (Z.leb_spec (d + 1) aMaxDepth) as [Hle | Hgt].
    + rewrite limited_fits by lia. rewrite IH by lia.
      replace (d + 1 + Z.of_nat n + 1) with (d + Z.of_nat (S n) + 1) by lia.
      destruct (Z.leb_spec (d + Z.of_nat (S n) + 1) aMaxDepth) as [Hle' | Hgt'];
        cbn [fst snd]; unfold destroy; rewrite size_t_small by lia; f_equal; lia.
    + unfold limited. rewrite construct_too_deep by lia.
      destruct (Z.leb_spec (d + Z.of_nat (S n) + 1) aMaxDepth) as [Hle' | Hgt'];
        [lia | reflexivity].
Qed.

(** X11.  With the counter at [d], [n] + 1 blocks under limiters of one
    tag, one inside the other, all come into being exactly when
    [d + n + 1] is within the limit, and then the counter is back at [d]
    when the outermost block is left.  Otherwise the constructor of the
    first limiter beyond the limit throws [too_deep]; the blocks around
    it are left by that exception, and the counter ends at [d + 1], not
    at [d]: the limiter that threw has counted itself and, as it never
    came into being, its destructor does not count it out. *)
Theorem limiter_counts_nesting (aMaxDepth : Z) (n : nat) (d : Z) :
  0 ≤ d → d + 1 < 2 ^ 64 → aMaxDepth < 2 ^ 64 - 1 →
  (d + Z.of_nat n + 1 ≤ aMaxDepth → recurse aMaxDepth n d = (d, Ok tt)) ∧
  (aMaxDepth < d + Z.of_nat n + 1 → recurse aMaxDepth n d = (d + 1, Throw too_deep)).
Proof.
  intros H0 H1 H2. rewrite recurse_exact by assumption.
  destruct (Z.leb_spec (d + Z.of_nat n + 1) aMaxDepth); split; intros; reflexivity || lia.
Qed.

Lemma limiter_counts_nesting_witness :
  recurse 3 2 0 = (0, Ok tt) ∧ recurse 3 3 0 = (1, Throw too_deep).
Proof.
  split.
  - apply (limiter_counts_nesting 3 2 0); lia.
  - apply (limiter_counts_nesting 3 3 0); lia.
Defined.

Lemma calls_too_deep (aMaxDepth : Z) (n k : nat) (d : Z) :
  0 ≤ d → d + Z.of_nat k < 2 ^ 64 → aMaxDepth < 2 ^ 64 - 1 →
  aMaxDepth < d + Z.of_nat n + 1 →
  calls aMaxDepth n k d = d + Z.of_nat k.
Proof.
  revert d. induction k as [ | k IH]; intros d H0 H1 H2 H3; cbn [calls]; [lia | ].
  rewrite recurse_exact by lia.
  destruct (Z.leb_spec (d + Z.of_nat n + 1) aMaxDepth) as [Hle | Hgt]; [lia | ].
  cbn [fst]. rewrite IH by lia. lia.
Qed.

(** X12.  Every call that goes too deep uses up one level of the limit
    for good: after [k] such calls, each caught by its caller, the
    counter of the thread stands at [k] with no limiter alive, and a
    later call gets through only if it nests no deeper than the limit
    less [k]; after as many such calls as the limit, even a call that
    does not recurse throws [too_deep]. *)
Theorem too_deep_uses_up_the_limit (aMaxDepth : Z) (n k m : nat) :
  0 ≤ aMaxDepth < 2 ^ 64 - 1 → Z.of_nat k < 2 ^ 64 - 1 →
  aMaxDepth < Z.of_nat n + 1 →
  let d := calls aMaxDepth n k 0 in
  d = Z.of_nat k ∧
  recurse aMaxDepth m d
  = if Z.of_nat k + Z.of_nat m + 1 <=? aMaxDepth
    then (d, Ok tt) else (d + 1, Throw too_deep).
Proof.
  intros Hmax Hk Hn d.
  assert (d = Z.of_nat k) as Hd.
  { unfold d. rewrite calls_too_deep by lia. lia. }
  split; [exact Hd | ].
  rewrite recurse_exact by lia. rewrite Hd. reflexivity.
Qed.

Lemma too_deep_uses_up_the_limit_witness :
  calls 3 3 3 0 = 3 ∧ recurse 3 0 (calls 3 3 3 0) = (calls 3 3 3 0 + 1, Throw too_deep).
Proof.
  destruct (too_deep_uses_up_the_limit 3 3 3 0) as [H1 H2]; [lia | lia | lia | ].
  split; [exact H1 | exact H2].
Defined.

End LimiterFacts.
